(** * libbitcoin-database: the storage substrate, embedded and verified

    The development follows the sources:
    - [Bytes]: little-endian serializer and byte ranges of a mapped file;
    - [Mmfile]: the memory-mapped file of [mmfile.cpp];
    - [DbInterface]: the transaction loop of [db_interface::push];
    - [Shard]: [hdb_shard.cpp];
    - [Slab]: [htdb_slab.ipp] and [htdb_slab_list_item.ipp]. *)

From Stdlib Require Import ZArith List Bool Lia Permutation Sorted.
Import ListNotations.
Local Open Scope Z_scope.

(* ================================================================== *)
(** * Bytes, fixed-width integers and byte ranges *)
(* ================================================================== *)

Module Bytes.

(** A byte is a [Z] in [0, 256); [uintN] values are [Z] reduced modulo
    [2^N] wherever the C++ type would wrap. *)
Definition byte := Z.

Definition wrap16 (x : Z) : Z := x mod 2 ^ 16.
Definition wrap32 (x : Z) : Z := x mod 2 ^ 32.
Definition wrap64 (x : Z) : Z := x mod 2 ^ 64.

(** [serializer::write_N_bytes]: the [n] low bytes of [v], lowest first. *)
Fixpoint to_little_endian (n : nat) (v : Z) : list byte :=
  match n with
  | O => []
  | S m => v mod 256 :: to_little_endian m (v / 256)
  end.

(** [deserializer::read_N_bytes] / [from_little_endian_unsafe]. *)
Fixpoint from_little_endian (bs : list byte) : Z :=
  match bs with
  | [] => 0
  | b :: rest => b + 256 * from_little_endian rest
  end.

(** The bytes of a mapping are a list; a pointer is an offset into it.
    An access outside the mapping has no defined result ([None]); an
    access of no bytes touches nothing. *)
Definition in_bounds (pos n : Z) (d : list byte) : bool :=
  (n =? 0) || ((0 <=? pos) && (0 <=? n) && (pos + n <=? Z.of_nat (length d))).

Definition read_bytes (pos n : Z) (d : list byte) : option (list byte) :=
  if in_bounds pos n d
  then Some (firstn (Z.to_nat n) (skipn (Z.to_nat pos) d))
  else None.

Definition splice (pos : Z) (bs d : list byte) : list byte :=
  firstn (Z.to_nat pos) d ++ bs
    ++ skipn (Z.to_nat pos + length bs) d.

Definition write_bytes (pos : Z) (bs d : list byte) : option (list byte) :=
  if in_bounds pos (Z.of_nat (length bs)) d
  then Some (splice pos bs d)
  else None.

Lemma length_to_little_endian n v : length (to_little_endian n v) = n.
Proof. revert v; induction n; simpl; intros; [|rewrite IHn]; reflexivity. Qed.

Lemma from_to_little_endian n v :
  from_little_endian (to_little_endian n v) = v mod 256 ^ Z.of_nat n.
Proof.
  revert v; induction n as [|n IH]; intros v.
  - simpl. now rewrite Z.mod_1_r.
  - cbn [to_little_endian from_little_endian]. rewrite IH.
    rewrite Nat2Z.inj_succ, Z.pow_succ_r by lia.
    assert (0 < 256 ^ Z.of_nat n) by (apply Z.pow_pos_nonneg; lia).
    rewrite Z.rem_mul_r by lia. lia.
Qed.

Lemma from_to_little_endian_small n v :
  0 <= v < 256 ^ Z.of_nat n ->
  from_little_endian (to_little_endian n v) = v.
Proof. intros. rewrite from_to_little_endian. now apply Z.mod_small. Qed.

Lemma to_little_endian_mod n v :
  to_little_endian n (v mod 256 ^ Z.of_nat n) = to_little_endian n v.
Proof.
  revert v; induction n as [|n IH]; intros v; [reflexivity|].
  cbn [to_little_endian].
  rewrite Nat2Z.inj_succ, Z.pow_succ_r by lia.
  assert (0 < 256 ^ Z.of_nat n) by (apply Z.pow_pos_nonneg; lia).
  rewrite Z.rem_mul_r by lia.
  rewrite (Z.mul_comm 256 ((v / 256) mod _)).
  rewrite Z.mod_add, Z.div_add by lia.
  rewrite Z.mod_mod by lia.
  rewrite (Z.div_small (v mod 256)) by (apply Z.mod_pos_bound; lia).
  now rewrite Z.add_0_l, IH.
Qed.

(** ** Reading and writing ranges of a mapping *)

Lemma in_bounds_true pos n d :
  in_bounds pos n d = true <->
  n = 0 \/ (0 <= pos /\ 0 <= n /\ pos + n <= Z.of_nat (length d)).
Proof.
  unfold in_bounds.
  rewrite orb_true_iff, !andb_true_iff, Z.eqb_eq, !Z.leb_le. tauto.
Qed.

Lemma splice_nil pos d : splice pos [] d = d.
Proof.
  unfold splice. simpl. rewrite Nat.add_0_r. apply firstn_skipn.
Qed.

Lemma length_splice pos bs d :
  in_bounds pos (Z.of_nat (length bs)) d = true ->
  length (splice pos bs d) = length d.
Proof.
  intros H. apply in_bounds_true in H as [H | H].
  - destruct bs; [|simpl in H; lia]. now rewrite splice_nil.
  - unfold splice. rewrite !length_app, length_firstn, length_skipn. lia.
Qed.

Lemma nth_splice pos bs d i :
  in_bounds pos (Z.of_nat (length bs)) d = true ->
  nth i (splice pos bs d) 0
  = if (Z.to_nat pos <=? i)%nat && (i <? Z.to_nat pos + length bs)%nat
    then nth (i - Z.to_nat pos) bs 0
    else nth i d 0.
Proof.
  intros H. apply in_bounds_true in H as [H | H].
  - destruct bs; [|simpl in H; lia]. rewrite splice_nil. simpl.
    rewrite Nat.add_0_r.
    destruct (Z.to_nat pos <=? i)%nat eqn:E1, (i <? Z.to_nat pos)%nat eqn:E2;
      simpl; try reflexivity.
    apply Nat.leb_le in E1. apply Nat.ltb_lt in E2. lia.
  - unfold splice.
    destruct (Z.to_nat pos <=? i)%nat eqn:E1; simpl.
    + apply Nat.leb_le in E1.
      rewrite app_nth2 by (rewrite length_firstn; lia).
      rewrite length_firstn, Nat.min_l by lia.
      destruct (i <? Z.to_nat pos + length bs)%nat eqn:E2.
      * apply Nat.ltb_lt in E2. now rewrite app_nth1 by lia.
      * apply Nat.ltb_ge in E2. rewrite app_nth2 by lia.
        rewrite nth_skipn. f_equal. lia.
    + apply Nat.leb_gt in E1.
      rewrite app_nth1 by (rewrite length_firstn; lia).
      rewrite nth_firstn.
      now replace (i <? Z.to_nat pos)%nat with true
        by (symmetry; apply Nat.ltb_lt; lia).
Qed.

Lemma read_bytes_Some pos n d bs :
  read_bytes pos n d = Some bs ->
  in_bounds pos n d = true /\ 0 <= n /\ Z.of_nat (length bs) = n.
Proof.
  unfold read_bytes. destruct (in_bounds pos n d) eqn:H; [|discriminate].
  intros [= <-]. split; [reflexivity|].
  apply in_bounds_true in H as [-> | H]; [simpl; lia|].
  rewrite length_firstn, length_skipn. lia.
Qed.

Lemma nth_read_bytes pos n d bs j :
  read_bytes pos n d = Some bs -> (j < length bs)%nat ->
  nth j bs 0 = nth (Z.to_nat pos + j) d 0.
Proof.
  intros H Hj. pose proof (read_bytes_Some _ _ _ _ H) as (_ & Hn & Hlen).
  unfold read_bytes in H. destruct (in_bounds pos n d); [|discriminate].
  injection H as <-. rewrite nth_firstn, nth_skipn.
  now replace (j <? Z.to_nat n)%nat with true
    by (symmetry; apply Nat.ltb_lt; lia).
Qed.

(** A read is determined by the bytes it covers. *)
Lemma read_bytes_ext pos n d pos' d' :
  in_bounds pos n d = true -> in_bounds pos' n d' = true ->
  (forall j, (j < Z.to_nat n)%nat ->
     nth (Z.to_nat pos + j) d 0 = nth (Z.to_nat pos' + j) d' 0) ->
  read_bytes pos n d = read_bytes pos' n d'.
Proof.
  intros H1 H2 Hnth. unfold read_bytes. rewrite H1, H2. f_equal.
  apply in_bounds_true in H1, H2.
  destruct H1 as [-> | H1]; [reflexivity|].
  destruct H2 as [-> | H2]; [reflexivity|].
  apply nth_ext with (d := 0) (d' := 0).
  - rewrite !length_firstn, !length_skipn. lia.
  - intros j Hj. rewrite length_firstn, length_skipn in Hj.
    rewrite !nth_firstn, !nth_skipn.
    replace (j <? Z.to_nat n)%nat with true
      by (symmetry; apply Nat.ltb_lt; lia).
    apply Hnth. lia.
Qed.

Lemma read_bytes_eq pos n d bs :
  read_bytes pos n d = Some bs <->
  in_bounds pos n d = true /\ Z.of_nat (length bs) = n /\
  (forall j, (j < length bs)%nat -> nth j bs 0 = nth (Z.to_nat pos + j) d 0).
Proof.
  split.
  - intros H. pose proof (read_bytes_Some _ _ _ _ H) as (Hb & _ & Hl).
    repeat split; auto. intros j Hj. now apply nth_read_bytes with (n := n).
  - intros (Hb & Hl & Hnth). unfold read_bytes. rewrite Hb. f_equal.
    apply in_bounds_true in Hb.
    apply nth_ext with (d := 0) (d' := 0).
    + rewrite length_firstn, length_skipn.
      destruct Hb as [-> | Hb]; lia.
    + intros j Hj. rewrite length_firstn, length_skipn in Hj.
      rewrite nth_firstn, nth_skipn.
      replace (j <? Z.to_nat n)%nat with true
        by (symmetry; apply Nat.ltb_lt; lia).
      symmetry. apply Hnth. lia.
Qed.

Lemma read_splice_same pos bs d :
  in_bounds pos (Z.of_nat (length bs)) d = true ->
  read_bytes pos (Z.of_nat (length bs)) (splice pos bs d) = Some bs.
Proof.
  intros H. apply read_bytes_eq. repeat split.
  - apply in_bounds_true. rewrite length_splice by assumption.
    now apply in_bounds_true.
  - intros j Hj. rewrite nth_splice by assumption.
    replace (Z.to_nat pos <=? Z.to_nat pos + j)%nat with true
      by (symmetry; apply Nat.leb_le; lia).
    replace (Z.to_nat pos + j <? Z.to_nat pos + length bs)%nat with true
      by (symmetry; apply Nat.ltb_lt; lia).
    simpl. f_equal. lia.
Qed.

Lemma read_splice_other pos bs d p n :
  in_bounds pos (Z.of_nat (length bs)) d = true ->
  p + n <= pos \/ pos + Z.of_nat (length bs) <= p ->
  read_bytes p n (splice pos bs d) = read_bytes p n d.
Proof.
  intros H Hdis.
  destruct bs as [|b bs']; [now rewrite splice_nil|].
  destruct (in_bounds p n d) eqn:Hp.
  - apply read_bytes_ext.
    + apply in_bounds_true. rewrite length_splice by assumption.
      now apply in_bounds_true.
    + assumption.
    + intros j Hj. rewrite nth_splice by assumption.
      apply in_bounds_true in H, Hp. cbn [length] in *.
      destruct H as [H|H]; [lia|]. destruct Hp as [Hp|Hp]; [lia|].
      destruct (Z.to_nat pos <=? Z.to_nat p + j)%nat eqn:E1; simpl;
        [|reflexivity].
      destruct (Z.to_nat p + j <? Z.to_nat pos + S (length bs'))%nat eqn:E2;
        [|reflexivity].
      apply Nat.leb_le in E1. apply Nat.ltb_lt in E2. lia.
  - unfold read_bytes. rewrite Hp.
    replace (in_bounds p n (splice pos (b :: bs') d)) with false;
      [reflexivity|].
    symmetry. apply not_true_is_false. intros Hc.
    apply not_true_iff_false in Hp. apply Hp.
    apply in_bounds_true. apply in_bounds_true in Hc.
    now rewrite length_splice in Hc by assumption.
Qed.

(** Two writes, the second where the first ended, are one write. *)
Lemma splice_splice pos b1 b2 d :
  in_bounds pos (Z.of_nat (length b1)) d = true ->
  in_bounds (pos + Z.of_nat (length b1)) (Z.of_nat (length b2)) d = true ->
  splice (pos + Z.of_nat (length b1)) b2 (splice pos b1 d)
  = splice pos (b1 ++ b2) d
  /\ in_bounds pos (Z.of_nat (length (b1 ++ b2))) d = true.
Proof.
  intros H1 H2.
  destruct b1 as [|x b1'].
  { simpl in *. rewrite Z.add_0_r in *. rewrite splice_nil. auto. }
  destruct b2 as [|y b2'].
  { rewrite splice_nil, app_nil_r. auto. }
  assert (Hb : in_bounds pos (Z.of_nat (length ((x :: b1') ++ y :: b2'))) d
               = true).
  { apply in_bounds_true. apply in_bounds_true in H1, H2.
    rewrite length_app. cbn [length] in *. lia. }
  split; [|exact Hb].
  assert (H2' : in_bounds (pos + Z.of_nat (length (x :: b1')))
                  (Z.of_nat (length (y :: b2'))) (splice pos (x :: b1') d)
                = true).
  { apply in_bounds_true. rewrite length_splice by assumption.
    now apply in_bounds_true. }
  apply nth_ext with (d := 0) (d' := 0).
  - now rewrite !length_splice.
  - intros i _. rewrite !nth_splice by assumption.
    apply in_bounds_true in H1, H2. rewrite length_app.
    cbn [length] in *.
    destruct H1 as [H1|H1]; [lia|]. destruct H2 as [H2|H2]; [lia|].
    replace (Z.to_nat (pos + Z.of_nat (S (length b1'))))
      with (Z.to_nat pos + S (length b1'))%nat by lia.
    destruct (Z.to_nat pos <=? i)%nat eqn:E1;
    destruct (i <? Z.to_nat pos + S (length b1'))%nat eqn:E2;
    destruct (Z.to_nat pos + S (length b1') <=? i)%nat eqn:E3;
    destruct (i <? Z.to_nat pos + S (length b1') + S (length b2'))%nat eqn:E4;
    destruct (i <? Z.to_nat pos + (S (length b1') + S (length b2')))%nat eqn:E5;
    cbn [andb];
    repeat match goal with
    | H : (_ <=? _)%nat = true |- _ => apply Nat.leb_le in H
    | H : (_ <=? _)%nat = false |- _ => apply Nat.leb_gt in H
    | H : (_ <? _)%nat = true |- _ => apply Nat.ltb_lt in H
    | H : (_ <? _)%nat = false |- _ => apply Nat.ltb_ge in H
    end; try lia; try reflexivity.
    all: try (rewrite app_nth2 by (cbn [length]; lia); f_equal;
              cbn [length]; lia).
    all: try (rewrite app_nth1 by (cbn [length]; lia); reflexivity).
Qed.

(** Reading inside a range that was read. *)
Lemma read_bytes_sub pos n d bs o m :
  read_bytes pos n d = Some bs ->
  0 <= o -> 0 <= m -> o + m <= n ->
  read_bytes (pos + o) m d = Some (firstn (Z.to_nat m) (skipn (Z.to_nat o) bs)).
Proof.
  intros H Ho Hm Hom.
  pose proof (read_bytes_Some _ _ _ _ H) as (Hb & Hn & Hl).
  destruct (Z.eq_dec m 0) as [-> | Hm0].
  { unfold read_bytes, in_bounds. simpl. reflexivity. }
  apply in_bounds_true in Hb. destruct Hb as [Hb | Hb]; [lia|].
  apply read_bytes_eq. repeat split.
  - apply in_bounds_true. right. lia.
  - rewrite length_firstn, length_skipn. lia.
  - intros j Hj. rewrite length_firstn, length_skipn in Hj.
    rewrite nth_firstn, nth_skipn.
    replace (j <? Z.to_nat m)%nat with true
      by (symmetry; apply Nat.ltb_lt; lia).
    rewrite (nth_read_bytes _ _ _ _ _ H) by lia. f_equal. lia.
Qed.

Lemma read_bytes_prefix pos n d ext :
  in_bounds pos n d = true ->
  read_bytes pos n (d ++ ext) = read_bytes pos n d.
Proof.
  intros H. apply read_bytes_ext; [|assumption|].
  - apply in_bounds_true. apply in_bounds_true in H. rewrite length_app. lia.
  - intros j Hj. apply app_nth1.
    apply in_bounds_true in H. destruct H as [H|H]; lia.
Qed.

Lemma read_bytes_whole d :
  read_bytes 0 (Z.of_nat (length d)) d = Some d.
Proof.
  unfold read_bytes.
  replace (in_bounds 0 (Z.of_nat (length d)) d) with true
    by (symmetry; apply in_bounds_true; lia).
  simpl. now rewrite Nat2Z.id, firstn_all.
Qed.

End Bytes.

(* ================================================================== *)
(** * mmfile: the memory-mapped file *)
(* ================================================================== *)

Module Mmfile.
Import Bytes.

(** What the operating system answers to the two calls [resize] makes,
    as a function of the requested length. *)
Record os_calls := {
  ftruncate_ok : Z -> bool;
  mremap_ok : Z -> bool
}.

(** [ftruncate] takes an [off_t]: a length that does not fit a signed
    64-bit integer is refused whatever the file system says. *)
Definition ftruncate (os : os_calls) (new_size : Z) : bool :=
  (new_size <? 2 ^ 63) && ftruncate_ok os new_size.

(** [data_ = None] stands for [nullptr] / [MAP_FAILED]. *)
Record mmfile := {
  file_handle_ : Z;
  data_ : option (list byte);
  size_ : Z
}.

Definition data (f : mmfile) : option (list byte) := data_ f.
Definition size (f : mmfile) : Z := size_ f.

(** The bytes of a shared mapping after the file was truncated or
    extended (with zeros) to [new_size] bytes. *)
Definition remapped (new_size : Z) (d : list byte) : list byte :=
  firstn (Z.to_nat new_size) d
    ++ repeat 0 (Z.to_nat new_size - length d).

(** [mmfile::resize]. *)
Definition resize (os : os_calls) (new_size : Z) (f : mmfile)
  : bool * mmfile :=
  if negb (ftruncate os new_size) then (false, f)
  else if negb (mremap_ok os new_size)
  then (false, {| file_handle_ := file_handle_ f;
                  data_ := None;
                  size_ := size_ f |})
  else (true, {| file_handle_ := file_handle_ f;
                 data_ := option_map (remapped new_size) (data_ f);
                 size_ := new_size |}).

Definition os_always_ok : os_calls :=
  {| ftruncate_ok := fun _ => true; mremap_ok := fun _ => true |}.

(** A mapping whose [size_] is the length of its bytes. *)
Definition mapped (f : mmfile) (d : list byte) : Prop :=
  data_ f = Some d /\ size_ f = Z.of_nat (length d).

Lemma length_remapped n d :
  0 <= n -> Z.of_nat (length (remapped n d)) = n.
Proof.
  intros Hn. unfold remapped.
  rewrite length_app, length_firstn, repeat_length. lia.
Qed.

Lemma remapped_grow n d :
  Z.of_nat (length d) <= n ->
  remapped n d = d ++ repeat 0 (Z.to_nat n - length d).
Proof.
  intros H. unfold remapped. now rewrite firstn_all2 by lia.
Qed.

Lemma resize_true os n f f' :
  resize os n f = (true, f') ->
  n < 2 ^ 63 /\ size_ f' = n /\
  data_ f' = option_map (remapped n) (data_ f).
Proof.
  unfold resize, ftruncate.
  destruct (n <? 2 ^ 63) eqn:Hn; simpl; [|discriminate].
  destruct (ftruncate_ok os n); simpl; [|discriminate].
  destruct (mremap_ok os n); simpl; [|discriminate].
  intros [= <-]; simpl. apply Z.ltb_lt in Hn. auto.
Qed.

(** C7, as the code has it: a successful [resize] sets [size()] to
    exactly the requested [new_size], larger or smaller than before; a
    failed one leaves [size()] as it was.  So [size()] does not decrease
    whenever the request is at least the current size. *)
Theorem resize_sets_size (os : os_calls) (new_size : Z) (f : mmfile) :
  size (snd (resize os new_size f))
    = (if fst (resize os new_size f) then new_size else size f)
  /\ (size f <= new_size -> size f <= size (snd (resize os new_size f))).
Proof.
  unfold resize, size.
  destruct (negb (ftruncate os new_size)); simpl; [lia|].
  destruct (negb (mremap_ok os new_size)); simpl; lia.
Qed.

Definition ten_bytes : mmfile :=
  {| file_handle_ := 3; data_ := Some (repeat 0 10%nat); size_ := 10 |}.

Lemma resize_sets_size_witness :
  size (snd (resize os_always_ok 12 ten_bytes)) = 12
  /\ size ten_bytes <= size (snd (resize os_always_ok 12 ten_bytes)).
Proof.
  destruct (resize_sets_size os_always_ok 12 ten_bytes) as [H1 H2].
  split; [exact H1 | apply H2; vm_compute; discriminate].
Defined.

(** C7 as stated fails: a request below the current size succeeds and
    shrinks the mapping. *)
Lemma resize_can_shrink :
  fst (resize os_always_ok 5 ten_bytes) = true
  /\ size ten_bytes = 10
  /\ size (snd (resize os_always_ok 5 ten_bytes)) = 5
  /\ data (snd (resize os_always_ok 5 ten_bytes)) = Some (repeat 0 5%nat)
  /\ ~ (size ten_bytes <= size (snd (resize os_always_ok 5 ten_bytes))).
Proof. repeat split. vm_compute. intros H; apply H; reflexivity. Qed.

End Mmfile.

(* ================================================================== *)
(** * db_interface::push: which transactions reach the tables *)
(* ================================================================== *)

Module DbInterface.

Set Implicit Arguments.

Section Push.

(** Types and helpers of libbitcoin proper, which this library only
    calls: hashes, scripts, address extraction and stealth parsing. *)
Variables hash_digest short_hash script : Type.

Record point := { point_hash : hash_digest; point_index : Z }.

Record input := { previous_output : point; input_script : script }.

Record output := { value : Z; output_script : script }.

Record transaction := { inputs : list input; outputs : list output }.

Record block := { header : Z; transactions : list transaction }.

Record transaction_metainfo := { height : Z; index : Z }.

Record stealth_row := {
  ephemkey : hash_digest;
  address : short_hash;
  transaction_hash : hash_digest
}.

Variable hash : transaction -> hash_digest.
Variable is_coinbase : transaction -> bool.
Variable payment_address_extract : script -> option short_hash.
Variable extract_ephemeral_key : script -> option hash_digest.
Variable to_stealth_prefix : script -> option Z.

(** [block_database::null_height] and [active_heights_.history]. *)
Variable null_height : Z.
Variable active_history : Z.

(** The calls [push] makes on the five tables, in program order. *)
Inductive db_write :=
| SpendsStore (prev : point) (spend : point)
| HistoryAddSpend (a : short_hash) (prev : point) (spend : point) (h : Z)
| HistoryAddOutput (a : short_hash) (outpoint : point) (h : Z) (v : Z)
| StealthStore (prefix : Z) (row : stealth_row)
| TransactionsStore (info : transaction_metainfo) (tx : transaction)
| BlocksStore (b : block)
| SpendsSync
| TransactionsSync
| HistorySync
| StealthSync
| BlocksSync.

Definition next_height (current_height : Z) : Z :=
  if current_height =? null_height then 0 else current_height + 1.

Definition is_special_duplicate (info : transaction_metainfo) : bool :=
  ((height info =? 91842) || (height info =? 91880)) && (index info =? 0).

(** [push_inputs]: the loop over [inputs], [i] the running index. *)
Fixpoint push_inputs_from (i : Z) (tx_hash : hash_digest)
    (block_height : Z) (ins : list input) : list db_write :=
  match ins with
  | [] => []
  | inp :: rest =>
      let spend := {| point_hash := tx_hash; point_index := i |} in
      SpendsStore (previous_output inp) spend
        :: (if block_height <? active_history then []
            else match payment_address_extract (input_script inp) with
                 | None => []
                 | Some a =>
                     [HistoryAddSpend a (previous_output inp) spend
                        block_height]
                 end)
        ++ push_inputs_from (i + 1) tx_hash block_height rest
  end.

Definition push_inputs := push_inputs_from 0.

Fixpoint push_outputs_from (i : Z) (tx_hash : hash_digest)
    (block_height : Z) (outs : list output) : list db_write :=
  match outs with
  | [] => []
  | out :: rest =>
      let outpoint := {| point_hash := tx_hash; point_index := i |} in
      (if block_height <? active_history then []
       else match payment_address_extract (output_script out) with
            | None => []
            | Some a =>
                [HistoryAddOutput a outpoint block_height (value out)]
            end)
        ++ push_outputs_from (i + 1) tx_hash block_height rest
  end.

Definition push_outputs := push_outputs_from 0.

(** [push_stealth_outputs]: every output but the last, paired with the
    one that follows it. *)
Fixpoint push_stealth_outputs (tx_hash : hash_digest)
    (outs : list output) : list db_write :=
  match outs with
  | ephemeral :: ((payment :: _) as rest) =>
      match extract_ephemeral_key (output_script ephemeral),
            to_stealth_prefix (output_script ephemeral),
            payment_address_extract (output_script payment) with
      | Some key, Some prefix, Some a =>
          [StealthStore prefix
             {| ephemkey := key; address := a;
                transaction_hash := tx_hash |}]
      | _, _, _ => []
      end ++ push_stealth_outputs tx_hash rest
  | _ => []
  end.

(** The body of the loop of [push] for a transaction that is not
    skipped. *)
Definition push_transaction (block_height i : Z) (tx : transaction)
  : list db_write :=
  let tx_hash := hash tx in
  (if is_coinbase tx then [] else push_inputs tx_hash block_height (inputs tx))
    ++ push_outputs tx_hash block_height (outputs tx)
    ++ push_stealth_outputs tx_hash (outputs tx)
    ++ [TransactionsStore {| height := block_height; index := i |} tx].

Fixpoint push_transactions_from (i : Z) (block_height : Z)
    (txs : list transaction) : list db_write :=
  match txs with
  | [] => []
  | tx :: rest =>
      (if is_special_duplicate {| height := block_height; index := i |}
       then []
       else push_transaction block_height i tx)
        ++ push_transactions_from (i + 1) block_height rest
  end.

(** [db_interface::push], given what [blocks.last_height()] returns. *)
Definition push (last_height : Z) (b : block) : list db_write :=
  let block_height := next_height last_height in
  push_transactions_from 0 block_height (transactions b)
    ++ [BlocksStore b; SpendsSync; TransactionsSync; HistorySync;
        StealthSync; BlocksSync].

(** The transactions of a block with their indexes, from [i] on. *)
Fixpoint indexed_from (i : Z) (txs : list transaction)
  : list (Z * transaction) :=
  match txs with
  | [] => []
  | tx :: rest => (i, tx) :: indexed_from (i + 1) rest
  end.

Definition all_processed (block_height : Z)
    (itxs : list (Z * transaction)) : list db_write :=
  flat_map (fun it => push_transaction block_height (fst it) (snd it)) itxs.

Lemma push_transactions_from_positive i h txs :
  0 < i ->
  push_transactions_from i h txs = all_processed h (indexed_from i txs).
Proof.
  revert i; induction txs as [|tx rest IH]; intros i Hi; [reflexivity|].
  cbn [push_transactions_from indexed_from all_processed flat_map].
  unfold is_special_duplicate; cbn [height index].
  replace (i =? 0) with false by (symmetry; apply Z.eqb_neq; lia).
  rewrite andb_false_r. f_equal. apply IH; lia.
Qed.

Lemma push_transactions_ordinary_height i h txs :
  h <> 91842 -> h <> 91880 ->
  push_transactions_from i h txs = all_processed h (indexed_from i txs).
Proof.
  intros H1 H2. revert i; induction txs as [|tx rest IH]; intros i;
    [reflexivity|].
  cbn [push_transactions_from indexed_from all_processed flat_map].
  unfold is_special_duplicate; cbn [height index].
  apply Z.eqb_neq in H1, H2. rewrite H1, H2. cbn [orb andb].
  f_equal. apply IH.
Qed.

Lemma indexed_from_index_ge i txs it :
  In it (indexed_from i txs) -> i <= fst it.
Proof.
  revert i; induction txs as [|tx rest IH]; intros i; simpl; [tauto|].
  intros [<- | H]; simpl; [lia|]. apply IH in H. lia.
Qed.

Lemma push_inputs_from_no_tx i th h ins info tx :
  ~ In (TransactionsStore info tx) (push_inputs_from i th h ins).
Proof.
  revert i; induction ins as [|inp rest IH]; intros i; simpl; [tauto|].
  intros [H | H]; [discriminate|].
  apply in_app_or in H as [H | H]; [|now apply IH in H].
  destruct (h <? active_history); [easy|].
  destruct (payment_address_extract _); simpl in H; [|easy].
  destruct H as [H|[]]; discriminate.
Qed.

Lemma push_outputs_from_no_tx i th h outs info tx :
  ~ In (TransactionsStore info tx) (push_outputs_from i th h outs).
Proof.
  revert i; induction outs as [|out rest IH]; intros i; simpl; [tauto|].
  intros H. apply in_app_or in H as [H | H]; [|now apply IH in H].
  destruct (h <? active_history); [easy|].
  destruct (payment_address_extract _); simpl in H; [|easy].
  destruct H as [H|[]]; discriminate.
Qed.

Lemma push_stealth_outputs_no_tx th outs info tx :
  ~ In (TransactionsStore info tx) (push_stealth_outputs th outs).
Proof.
  induction outs as [|o1 rest IH]; simpl; [tauto|].
  destruct rest as [|o2 rest']; [simpl; tauto|].
  intros H. apply in_app_or in H as [H | H]; [|now apply IH in H].
  destruct (extract_ephemeral_key _); [|easy].
  destruct (to_stealth_prefix _); [|easy].
  destruct (payment_address_extract _); [|easy].
  destruct H as [H|[]]; discriminate.
Qed.

Lemma push_transaction_stores h i tx info tx' :
  In (TransactionsStore info tx') (push_transaction h i tx) ->
  info = {| height := h; index := i |} /\ tx' = tx.
Proof.
  unfold push_transaction. intros H.
  apply in_app_or in H as [H | H].
  { destruct (is_coinbase tx); [easy|].
    now apply push_inputs_from_no_tx in H. }
  apply in_app_or in H as [H | H];
    [now apply push_outputs_from_no_tx in H|].
  apply in_app_or in H as [H | H];
    [now apply push_stealth_outputs_no_tx in H|].
  destruct H as [H|[]]. now inversion H.
Qed.

(** C10: when the block being pushed gets height 91842 or 91880, the
    table calls [push] makes are exactly those of the transactions at
    index 1 and above, each processed by the ordinary loop body,
    followed by the block store and the five syncs: nothing is issued
    for the transaction at index 0, and no transaction is stored under
    index 0.  At any other height every transaction, index 0 included,
    is processed. *)
Theorem push_skips_special_duplicates (last_height : Z) (b : block) :
  let h := next_height last_height in
  let tail := [BlocksStore b; SpendsSync; TransactionsSync; HistorySync;
               StealthSync; BlocksSync] in
  (h = 91842 \/ h = 91880 ->
     push last_height b
       = all_processed h (tl (indexed_from 0 (transactions b))) ++ tail
     /\ forall tx, ~ In (TransactionsStore {| height := h; index := 0 |} tx)
                     (push last_height b))
  /\ (h <> 91842 -> h <> 91880 ->
      push last_height b
        = all_processed h (indexed_from 0 (transactions b)) ++ tail).
Proof.
  intros h tail. split.
  - intros Hh.
    assert (Heq : push last_height b
       = all_processed h (tl (indexed_from 0 (transactions b))) ++ tail).
    { unfold push. fold h. fold tail. f_equal.
      destruct (transactions b) as [|tx0 rest]; [reflexivity|].
      cbn [push_transactions_from indexed_from tl].
      unfold is_special_duplicate; cbn [height index].
      replace ((h =? 91842) || (h =? 91880)) with true
        by (symmetry; apply orb_true_iff; destruct Hh as [-> | ->]; auto).
      cbn [andb Z.eqb app].
      apply push_transactions_from_positive. lia. }
    split; [exact Heq|].
    intros tx Hin. rewrite Heq in Hin.
    apply in_app_or in Hin as [Hin | Hin].
    + unfold all_processed in Hin. apply in_flat_map in Hin as [it [Hit Hin]].
      apply push_transaction_stores in Hin as [Hinfo _].
      assert (1 <= fst it).
      { destruct (transactions b) as [|tx0 rest]; [easy|].
        simpl in Hit. now apply indexed_from_index_ge in Hit. }
      inversion Hinfo. lia.
    + unfold tail in Hin. simpl in Hin.
      repeat (destruct Hin as [Hin | Hin]; [discriminate|]). easy.
  - intros H1 H2. unfold push. fold h. fold tail. f_equal.
    now apply push_transactions_ordinary_height.
Qed.

End Push.

Arguments SpendsStore {hash_digest short_hash script}.
Arguments HistoryAddSpend {hash_digest short_hash script}.
Arguments HistoryAddOutput {hash_digest short_hash script}.
Arguments StealthStore {hash_digest short_hash script}.
Arguments TransactionsStore {hash_digest short_hash script}.
Arguments BlocksStore {hash_digest short_hash script}.
Arguments SpendsSync {hash_digest short_hash script}.
Arguments TransactionsSync {hash_digest short_hash script}.
Arguments HistorySync {hash_digest short_hash script}.
Arguments StealthSync {hash_digest short_hash script}.
Arguments BlocksSync {hash_digest short_hash script}.

(** A block of two transactions pushed on top of height 91841; hashes
    are numbers, every script pays to address 5. *)
Definition tx_a : transaction nat unit :=
  {| inputs := []; outputs := [ {| value := 50; output_script := tt |} ] |}.

Definition tx_b : transaction nat unit :=
  {| inputs := [ {| previous_output := {| point_hash := 7%nat;
                                          point_index := 0 |};
                    input_script := tt |} ];
     outputs := [ {| value := 20; output_script := tt |} ] |}.

Definition block_91842 : block nat unit :=
  {| header := 0; transactions := [tx_a; tx_b] |}.

Definition push_example (last_height : Z) : list (db_write nat nat unit) :=
  push (fun tx => length (inputs tx)) (fun _ => false)
       (fun _ => Some 5%nat) (fun _ => None) (fun _ => None)
       (2 ^ 64 - 1) 0 last_height block_91842.

Lemma push_skips_special_duplicates_witness :
  push_example 91841
  = [ SpendsStore {| point_hash := 7%nat; point_index := 0 |}
                  {| point_hash := 1%nat; point_index := 0 |};
      HistoryAddSpend 5%nat {| point_hash := 7%nat; point_index := 0 |}
                      {| point_hash := 1%nat; point_index := 0 |} 91842;
      HistoryAddOutput 5%nat {| point_hash := 1%nat; point_index := 0 |}
                       91842 20;
      TransactionsStore {| height := 91842; index := 1 |} tx_b;
      BlocksStore block_91842;
      SpendsSync; TransactionsSync; HistorySync; StealthSync; BlocksSync ].
Proof.
  destruct (push_skips_special_duplicates
              (fun tx => length (inputs tx)) (fun _ => false)
              (fun _ => Some 5%nat) (fun _ => None) (fun _ => None)
              (2 ^ 64 - 1) 0 91841 block_91842) as [H _].
  destruct (H (or_introl eq_refl)) as [Heq _].
  unfold push_example. rewrite Heq. reflexivity.
Defined.

(** ** pop *)

Section Pop.

Variables hash_digest short_hash script : Type.

Variable hash : transaction hash_digest script -> hash_digest.
Variable is_coinbase : transaction hash_digest script -> bool.
Variable payment_address_extract : script -> option short_hash.
Variable extract_ephemeral_key : script -> option hash_digest.
Variable to_stealth_prefix : script -> option Z.
Variable null_height : Z.
Variable active_history : Z.

(** The calls [pop] makes on the tables, in program order. *)
Inductive db_undo :=
| TransactionsRemove (tx_hash : hash_digest)
| SpendsRemove (prev : point hash_digest)
| HistoryDeleteLastRow (a : short_hash)
| StealthUnlink (h : Z)
| BlocksUnlink (h : Z).

(** What [blocks.get(height)] and [transactions.get(hash)] hand back. *)
Record block_result := {
  result_header : Z;
  transaction_hashes : list hash_digest
}.

Record transaction_result := {
  result_height : Z;
  result_index : Z;
  result_transaction : transaction hash_digest script
}.

(** The elements of a list with their indexes, from [i] on. *)
Fixpoint indexed (A : Type) (i : Z) (l : list A) : list (Z * A) :=
  match l with
  | [] => []
  | x :: rest => (i, x) :: indexed (i + 1) rest
  end.

Definition delete_last_row_of (block_height : Z) (s : script)
  : list db_undo :=
  if block_height <? active_history then []
  else match payment_address_extract s with
       | Some a => [HistoryDeleteLastRow a]
       | None => []
       end.

(** [pop_inputs] and [pop_outputs] loop from the last index down. *)
Definition pop_inputs (block_height : Z)
    (ins : list (input hash_digest script)) : list db_undo :=
  flat_map (fun inp =>
              SpendsRemove (previous_output inp)
                :: delete_last_row_of block_height (input_script inp))
           (rev ins).

Definition pop_outputs (block_height : Z) (outs : list (output script))
  : list db_undo :=
  flat_map (fun out => delete_last_row_of block_height (output_script out))
           (rev outs).

(** The loop of [pop] over the rounds [(i, tx_hash)] in the order given:
    the calls made, and [result.transactions] unless an assertion
    stopped the loop.  [transactions_get i h] is what
    [transactions.get(h)] returns in round [i]. *)
Fixpoint pop_transactions (block_height : Z)
    (transactions_get : Z -> hash_digest -> option transaction_result)
    (rounds : list (Z * hash_digest))
  : list db_undo * option (list (transaction hash_digest script)) :=
  match rounds with
  | [] => ([], Some [])
  | (i, tx_hash) :: rest =>
      match transactions_get i tx_hash with
      | None => ([], None)
      | Some tx_result =>
          if (result_height tx_result =? block_height)
             && (result_index tx_result =? i)
          then
            let tx := result_transaction tx_result in
            let here :=
              TransactionsRemove tx_hash
                :: pop_outputs block_height (outputs tx)
                ++ (if is_coinbase tx then []
                    else pop_inputs block_height (inputs tx)) in
            let (calls, txs) :=
              pop_transactions block_height transactions_get rest in
            (here ++ calls, option_map (cons tx) txs)
          else ([], None)
      end
  end.

(** [db_interface::pop], given what [blocks.last_height()] and
    [blocks.get] return: the calls made and the block returned, [None]
    where an assertion fails. *)
Definition pop (block_height : Z) (blocks_get : option block_result)
    (transactions_get : Z -> hash_digest -> option transaction_result)
  : list db_undo * option (block hash_digest script) :=
  match blocks_get with
  | None => ([], None)
  | Some block_result =>
      let (calls, txs) :=
        pop_transactions block_height transactions_get
          (rev (indexed 0 (transaction_hashes block_result))) in
      match txs with
      | None => (calls, None)
      | Some txs =>
          (calls ++ [StealthUnlink block_height; BlocksUnlink block_height],
           Some {| header := result_header block_result;
                   transactions := rev txs |})
      end
  end.

(** *** pop against push *)


(** The keys [push] stores, table by table. *)
Definition stored_transactions (w : db_write hash_digest short_hash script)
  : list hash_digest :=
  match w with
  | TransactionsStore _ tx => [hash tx]
  | _ => []
  end.

Definition stored_spends (w : db_write hash_digest short_hash script)
  : list (point hash_digest) :=
  match w with
  | SpendsStore prev _ => [prev]
  | _ => []
  end.

Definition added_history (w : db_write hash_digest short_hash script)
  : list short_hash :=
  match w with
  | HistoryAddSpend a _ _ _ => [a]
  | HistoryAddOutput a _ _ _ => [a]
  | _ => []
  end.

(** The keys [pop] removes, table by table. *)
Definition removed_transactions (u : db_undo) : list hash_digest :=
  match u with
  | TransactionsRemove h => [h]
  | _ => []
  end.

Definition removed_spends (u : db_undo) : list (point hash_digest) :=
  match u with
  | SpendsRemove prev => [prev]
  | _ => []
  end.

Definition deleted_history (u : db_undo) : list short_hash :=
  match u with
  | HistoryDeleteLastRow a => [a]
  | _ => []
  end.

(** The tables answer [pop] with what [push] stored for the block [b] at
    [block_height]. *)
Definition block_result_of (b : block hash_digest script) : block_result :=
  {| result_header := header b;
     transaction_hashes := map hash (transactions b) |}.

Definition serves (block_height : Z) (b : block hash_digest script)
    (transactions_get : Z -> hash_digest -> option transaction_result)
  : Prop :=
  forall i tx,
    nth_error (transactions b) i = Some tx ->
    transactions_get (Z.of_nat i) (hash tx)
    = Some {| result_height := block_height;
              result_index := Z.of_nat i;
              result_transaction := tx |}.

Definition history_address (block_height : Z) (s : script)
  : list short_hash :=
  if block_height <? active_history then []
  else match payment_address_extract s with
       | Some a => [a]
       | None => []
       end.

Lemma flat_map_flat_map (A B C : Type) (f : B -> list C) (g : A -> list B)
    (l : list A) :
  flat_map f (flat_map g l) = flat_map (fun x => flat_map f (g x)) l.
Proof.
  induction l as [|x l IH]; [reflexivity|].
  cbn [flat_map]. now rewrite flat_map_app, IH.
Qed.

Lemma rev_flat_map (A B : Type) (f : A -> list B) (l : list A) :
  rev (flat_map f l) = flat_map (fun x => rev (f x)) (rev l).
Proof.
  induction l as [|x l IH]; [reflexivity|].
  cbn [flat_map rev]. rewrite rev_app_distr, IH, flat_map_app.
  cbn [flat_map]. now rewrite app_nil_r.
Qed.

Lemma flat_map_ext_eq (A B : Type) (f g : A -> list B) (l : list A) :
  (forall x, f x = g x) -> flat_map f l = flat_map g l.
Proof.
  intros H. induction l as [|x l IH]; [reflexivity|].
  cbn [flat_map]. now rewrite H, IH.
Qed.

Lemma flat_map_nil (A B : Type) (l : list A) :
  flat_map (fun _ : A => @nil B) l = [].
Proof. induction l; auto. Qed.

Lemma flat_map_singleton (A B : Type) (f : A -> B) (l : list A) :
  flat_map (fun x => [f x]) l = map f l.
Proof. induction l as [|x l IH]; [reflexivity|]. simpl. now rewrite IH. Qed.

Lemma rev_history_address h s :
  rev (history_address h s) = history_address h s.
Proof.
  unfold history_address. destruct (h <? active_history); [reflexivity|].
  now destruct (payment_address_extract s).
Qed.

(** [push_inputs], table by table. *)
Lemma push_inputs_from_spends i th h ins :
  flat_map stored_spends
           (push_inputs_from payment_address_extract active_history
                             i th h ins)
  = map (@previous_output _ _) ins.
Proof.
  revert i; induction ins as [|inp rest IH]; intros i; [reflexivity|].
  cbn [push_inputs_from flat_map stored_spends map app].
  rewrite flat_map_app, IH. f_equal.
  destruct (h <? active_history); [reflexivity|].
  now destruct (payment_address_extract (input_script inp)).
Qed.

Lemma push_inputs_from_history i th h ins :
  flat_map added_history
           (push_inputs_from payment_address_extract active_history
                             i th h ins)
  = flat_map (fun inp => history_address h (input_script inp)) ins.
Proof.
  revert i; induction ins as [|inp rest IH]; intros i; [reflexivity|].
  cbn [push_inputs_from flat_map added_history app].
  rewrite flat_map_app, IH. f_equal.
  unfold history_address. destruct (h <? active_history); [reflexivity|].
  now destruct (payment_address_extract (input_script inp)).
Qed.

Lemma push_inputs_from_transactions i th h ins :
  flat_map stored_transactions
           (push_inputs_from payment_address_extract active_history
                             i th h ins) = [].
Proof.
  revert i; induction ins as [|inp rest IH]; intros i; [reflexivity|].
  cbn [push_inputs_from flat_map stored_transactions app].
  rewrite flat_map_app, IH.
  destruct (h <? active_history); [reflexivity|].
  now destruct (payment_address_extract (input_script inp)).
Qed.

(** [push_outputs], table by table. *)
Lemma push_outputs_from_history i th h outs :
  flat_map added_history
           (push_outputs_from payment_address_extract active_history
                              i th h outs)
  = flat_map (fun out => history_address h (output_script out)) outs.
Proof.
  revert i; induction outs as [|out rest IH]; intros i; [reflexivity|].
  cbn [push_outputs_from flat_map]. rewrite flat_map_app, IH. f_equal.
  unfold history_address. destruct (h <? active_history); [reflexivity|].
  now destruct (payment_address_extract (output_script out)).
Qed.

Lemma push_outputs_from_other i th h outs :
  flat_map stored_spends
           (push_outputs_from payment_address_extract active_history
                              i th h outs) = []
  /\ flat_map stored_transactions
              (push_outputs_from payment_address_extract active_history
                                 i th h outs) = [].
Proof.
  revert i; induction outs as [|out rest IH]; intros i; [now split|].
  cbn [push_outputs_from flat_map]. rewrite !flat_map_app.
  destruct (IH (i + 1)) as [-> ->].
  destruct (h <? active_history); [now split|].
  now destruct (payment_address_extract (output_script out)).
Qed.

Lemma push_stealth_outputs_cons th o1 o2 rest :
  push_stealth_outputs payment_address_extract extract_ephemeral_key
                       to_stealth_prefix th (o1 :: o2 :: rest)
  = match extract_ephemeral_key (output_script o1),
          to_stealth_prefix (output_script o1),
          payment_address_extract (output_script o2) with
    | Some key, Some prefix, Some a =>
        [StealthStore prefix
           {| ephemkey := key; address := a; transaction_hash := th |}]
    | _, _, _ => []
    end
    ++ push_stealth_outputs payment_address_extract extract_ephemeral_key
                            to_stealth_prefix th (o2 :: rest).
Proof. reflexivity. Qed.

Lemma push_stealth_outputs_other th outs :
  flat_map stored_spends
    (push_stealth_outputs payment_address_extract extract_ephemeral_key
                          to_stealth_prefix th outs) = []
  /\ flat_map added_history
       (push_stealth_outputs payment_address_extract extract_ephemeral_key
                             to_stealth_prefix th outs) = []
  /\ flat_map stored_transactions
       (push_stealth_outputs payment_address_extract extract_ephemeral_key
                             to_stealth_prefix th outs) = [].
Proof.
  induction outs as [|o1 rest IH]; [now repeat split|].
  destruct rest as [|o2 rest']; [now repeat split|].
  rewrite push_stealth_outputs_cons, !flat_map_app.
  destruct IH as (-> & -> & ->).
  destruct (extract_ephemeral_key _); [|now repeat split].
  destruct (to_stealth_prefix _); [|now repeat split].
  destruct (payment_address_extract _); now repeat split.
Qed.

(** [pop_inputs] and [pop_outputs], table by table. *)
Lemma pop_inputs_spends h ins :
  flat_map removed_spends (pop_inputs h ins)
  = rev (map (@previous_output _ _) ins).
Proof.
  unfold pop_inputs. rewrite flat_map_flat_map, <- map_rev.
  rewrite <- flat_map_singleton. apply flat_map_ext_eq. intros inp.
  cbn [flat_map removed_spends app]. f_equal.
  unfold delete_last_row_of. destruct (h <? active_history); [reflexivity|].
  now destruct (payment_address_extract (input_script inp)).
Qed.

Lemma delete_last_row_of_history h s :
  flat_map deleted_history (delete_last_row_of h s) = history_address h s.
Proof.
  unfold delete_last_row_of, history_address.
  destruct (h <? active_history); [reflexivity|].
  now destruct (payment_address_extract s).
Qed.

Lemma delete_last_row_of_other h s :
  flat_map removed_spends (delete_last_row_of h s) = []
  /\ flat_map removed_transactions (delete_last_row_of h s) = [].
Proof.
  unfold delete_last_row_of.
  destruct (h <? active_history); [now split|].
  now destruct (payment_address_extract s).
Qed.

Lemma pop_inputs_history h ins :
  flat_map deleted_history (pop_inputs h ins)
  = rev (flat_map (fun inp => history_address h (input_script inp)) ins).
Proof.
  unfold pop_inputs. rewrite flat_map_flat_map, rev_flat_map.
  apply flat_map_ext_eq. intros inp.
  cbn [flat_map deleted_history app].
  now rewrite delete_last_row_of_history, rev_history_address.
Qed.

Lemma pop_inputs_transactions h ins :
  flat_map removed_transactions (pop_inputs h ins) = [].
Proof.
  unfold pop_inputs. rewrite flat_map_flat_map.
  rewrite <- (flat_map_nil hash_digest (rev ins)) at 1.
  apply flat_map_ext_eq. intros inp.
  cbn [flat_map removed_transactions app].
  apply delete_last_row_of_other.
Qed.

Lemma pop_outputs_history h outs :
  flat_map deleted_history (pop_outputs h outs)
  = rev (flat_map (fun out => history_address h (output_script out)) outs).
Proof.
  unfold pop_outputs. rewrite flat_map_flat_map, rev_flat_map.
  apply flat_map_ext_eq. intros out.
  now rewrite delete_last_row_of_history, rev_history_address.
Qed.

Lemma pop_outputs_other h outs :
  flat_map removed_spends (pop_outputs h outs) = []
  /\ flat_map removed_transactions (pop_outputs h outs) = [].
Proof.
  unfold pop_outputs. rewrite !flat_map_flat_map. split.
  - rewrite <- (flat_map_nil (point hash_digest) (rev outs)) at 1.
    apply flat_map_ext_eq. intros out. apply delete_last_row_of_other.
  - rewrite <- (flat_map_nil hash_digest (rev outs)) at 1.
    apply flat_map_ext_eq. intros out. apply delete_last_row_of_other.
Qed.

(** What [pop] does for one transaction. *)
Definition pop_transaction (block_height : Z) (tx_hash : hash_digest)
    (tx : transaction hash_digest script) : list db_undo :=
  TransactionsRemove tx_hash
    :: pop_outputs block_height (outputs tx)
    ++ (if is_coinbase tx then [] else pop_inputs block_height (inputs tx)).

Lemma pop_transaction_mirrors h i tx :
  let pushed :=
    push_transaction hash is_coinbase payment_address_extract
                     extract_ephemeral_key to_stealth_prefix active_history
                     h i tx in
  let popped := pop_transaction h (hash tx) tx in
  flat_map removed_transactions popped
  = rev (flat_map stored_transactions pushed)
  /\ flat_map removed_spends popped = rev (flat_map stored_spends pushed)
  /\ flat_map deleted_history popped = rev (flat_map added_history pushed).
Proof.
  unfold push_transaction, pop_transaction, push_inputs, push_outputs.
  cbn zeta. cbn [flat_map removed_transactions removed_spends deleted_history].
  rewrite !flat_map_app.
  destruct (pop_outputs_other h (outputs tx)) as [-> ->].
  destruct (push_outputs_from_other 0 (hash tx) h (outputs tx)) as [-> ->].
  destruct (push_stealth_outputs_other (hash tx) (outputs tx))
    as (-> & -> & ->).
  rewrite pop_outputs_history, push_outputs_from_history.
  cbn [flat_map stored_transactions stored_spends added_history app].
  rewrite !app_nil_r.
  destruct (is_coinbase tx).
  - cbn [flat_map app rev]. rewrite !app_nil_r. auto.
  - rewrite pop_inputs_spends, pop_inputs_history, pop_inputs_transactions.
    rewrite push_inputs_from_spends, push_inputs_from_history,
      push_inputs_from_transactions.
    cbn [app]. rewrite !rev_app_distr. cbn [rev app]. auto.
Qed.

(** The loop of [pop] when every lookup finds the transaction asked
    for, under the height and index of its round. *)
Lemma pop_transactions_served h transactions_get rounds :
  Forall (fun r => transactions_get (fst r) (hash (snd r))
                   = Some {| result_height := h; result_index := fst r;
                             result_transaction := snd r |}) rounds ->
  pop_transactions h transactions_get
                   (map (fun r => (fst r, hash (snd r))) rounds)
  = (flat_map (fun r => pop_transaction h (hash (snd r)) (snd r)) rounds,
     Some (map snd rounds)).
Proof.
  induction 1 as [|[i tx] rest Hr _ IH]; [reflexivity|].
  cbn [map fst snd pop_transactions flat_map] in *.
  rewrite Hr. cbn [result_height result_index result_transaction].
  rewrite !Z.eqb_refl. cbn [andb]. rewrite IH. reflexivity.
Qed.

Lemma indexed_map (A B : Type) (f : A -> B) i l :
  indexed i (map f l) = map (fun r => (fst r, f (snd r))) (indexed i l).
Proof.
  revert i; induction l as [|x l IH]; intros i; [reflexivity|].
  cbn [map indexed fst snd]. now rewrite IH.
Qed.

Lemma map_snd_indexed (A : Type) i (l : list A) : map snd (indexed i l) = l.
Proof.
  revert i; induction l as [|x l IH]; intros i; [reflexivity|].
  cbn [map indexed snd]. now rewrite IH.
Qed.

Lemma in_indexed (A : Type) i (l : list A) r :
  In r (indexed i l) ->
  exists n, fst r = i + Z.of_nat n /\ nth_error l n = Some (snd r).
Proof.
  revert i; induction l as [|x l IH]; intros i; [intros []|].
  cbn [indexed]. intros [<- | H].
  - exists 0%nat. split; [simpl; lia | reflexivity].
  - apply IH in H as (n & Hn & Hx). exists (S n).
    split; [lia | exact Hx].
Qed.

Lemma indexed_from_indexed i (txs : list (transaction hash_digest script)) :
  indexed_from i txs = indexed i txs.
Proof.
  revert i; induction txs as [|tx rest IH]; intros i; [reflexivity|].
  cbn [indexed_from indexed]. now rewrite IH.
Qed.

Lemma pop_served h b transactions_get :
  serves h b transactions_get ->
  pop h (Some (block_result_of b)) transactions_get
  = (flat_map (fun r => pop_transaction h (hash (snd r)) (snd r))
              (rev (indexed 0 (transactions b)))
       ++ [StealthUnlink h; BlocksUnlink h],
     Some b).
Proof.
  intros Hserves. unfold pop, block_result_of.
  cbn [transaction_hashes result_header].
  rewrite indexed_map, <- map_rev.
  rewrite pop_transactions_served.
  - rewrite map_rev, map_snd_indexed, rev_involutive. now destruct b.
  - apply Forall_forall. intros r Hr. apply in_rev in Hr.
    apply in_indexed in Hr as (n & Hn & Hx).
    rewrite Hn. cbn [Z.add]. now apply Hserves.
Qed.

(** X7: [pop] hands back the block that was pushed.  When [blocks.get]
    returns the header and transaction hashes of [b], and each
    [transactions.get] finds the transaction of its round stored under
    [block_height] and its index, [pop] passes all its assertions and
    returns [b] with its transactions in block order (they are collected
    backwards, then reversed); its last two calls are
    [stealth.unlink(block_height)] and [blocks.unlink(block_height)]. *)
Theorem pop_returns_block (block_height : Z)
    (b : block hash_digest script)
    (transactions_get : Z -> hash_digest -> option transaction_result) :
  serves block_height b transactions_get ->
  snd (pop block_height (Some (block_result_of b)) transactions_get)
  = Some b
  /\ exists calls,
       fst (pop block_height (Some (block_result_of b)) transactions_get)
       = calls ++ [StealthUnlink block_height; BlocksUnlink block_height].
Proof.
  intros H. rewrite (pop_served H). cbn [fst snd].
  split; [reflexivity | eexists; reflexivity].
Qed.

(** X8: [pop] undoes [push] table by table, last call first.  For a
    block pushed at a height other than 91842 and 91880 and then served
    back by the tables, the hashes [pop] removes from the transaction
    table, the outpoints it removes from the spend table and the
    addresses whose last history row it deletes are those [push] stored
    or added rows for, each list in exactly the reverse order. *)
Theorem pop_mirrors_push (last_height : Z) (b : block hash_digest script)
    (transactions_get : Z -> hash_digest -> option transaction_result) :
  let h := next_height null_height last_height in
  let pushed :=
    push hash is_coinbase payment_address_extract extract_ephemeral_key
         to_stealth_prefix null_height active_history last_height b in
  let popped := fst (pop h (Some (block_result_of b)) transactions_get) in
  h <> 91842 -> h <> 91880 ->
  serves h b transactions_get ->
  flat_map removed_transactions popped
  = rev (flat_map stored_transactions pushed)
  /\ flat_map removed_spends popped = rev (flat_map stored_spends pushed)
  /\ flat_map deleted_history popped = rev (flat_map added_history pushed).
Proof.
  intros h pushed popped H1 H2 Hserves. subst pushed popped.
  rewrite (pop_served Hserves). cbn [fst].
  unfold push. fold h.
  rewrite push_transactions_ordinary_height by assumption.
  unfold all_processed. rewrite indexed_from_indexed.
  rewrite !flat_map_app, !flat_map_flat_map.
  cbn [flat_map removed_transactions removed_spends deleted_history
       stored_transactions stored_spends added_history app].
  rewrite !app_nil_r, !rev_flat_map.
  repeat split; apply flat_map_ext_eq; intros r;
    destruct (pop_transaction_mirrors h (fst r) (snd r)) as (E1 & E2 & E3);
    assumption.
Qed.

(** X9: the history threshold gates history rows only.  At a block
    height below [active_heights_.history], [push] makes no call on the
    history table; the spends it stores are, at every height other than
    91842 and 91880, the previous outputs of all inputs of the block's
    transactions that are not coinbase, in block order. *)
Theorem push_below_history_height (last_height : Z)
    (b : block hash_digest script) :
  let h := next_height null_height last_height in
  let pushed :=
    push hash is_coinbase payment_address_extract extract_ephemeral_key
         to_stealth_prefix null_height active_history last_height b in
  (h < active_history -> flat_map added_history pushed = [])
  /\ (h <> 91842 -> h <> 91880 ->
      flat_map stored_spends pushed
      = flat_map (fun tx => if is_coinbase tx then []
                            else map (@previous_output _ _) (inputs tx))
                 (transactions b)).
Proof.
  intros h pushed. subst pushed. unfold push. fold h.
  rewrite !flat_map_app. cbn [flat_map added_history stored_spends app].
  rewrite !app_nil_r. split.
  - intros Hlow. apply Z.ltb_lt in Hlow.
    generalize 0 at 1. induction (transactions b) as [|tx rest IH];
      intros i; [reflexivity|].
    cbn [push_transactions_from]. rewrite flat_map_app, IH, app_nil_r.
    destruct (is_special_duplicate _); [reflexivity|].
    unfold push_transaction, push_inputs, push_outputs.
    rewrite !flat_map_app, push_outputs_from_history.
    destruct (push_stealth_outputs_other (hash tx) (outputs tx))
      as (_ & -> & _).
    cbn [flat_map added_history app]. rewrite !app_nil_r.
    assert (Hnone : forall s, history_address h s = [])
      by (intros s; unfold history_address; now rewrite Hlow).
    rewrite (flat_map_ext_eq _ (fun _ => []) _
               (fun out => Hnone (output_script out))), flat_map_nil.
    destruct (is_coinbase tx); [reflexivity|].
    rewrite push_inputs_from_history.
    rewrite (flat_map_ext_eq _ (fun _ => []) _
               (fun inp => Hnone (input_script inp))), flat_map_nil.
    reflexivity.
  - intros H1 H2.
    rewrite push_transactions_ordinary_height by assumption.
    unfold all_processed. rewrite flat_map_flat_map.
    generalize 0. induction (transactions b) as [|tx rest IH]; intros i;
      [reflexivity|].
    cbn [indexed_from flat_map fst snd]. rewrite IH. f_equal.
    unfold push_transaction, push_inputs, push_outputs.
    rewrite !flat_map_app.
    destruct (push_outputs_from_other 0 (hash tx) h (outputs tx)) as [-> _].
    destruct (push_stealth_outputs_other (hash tx) (outputs tx))
      as (-> & _ & _).
    cbn [flat_map stored_spends app]. rewrite !app_nil_r.
    destruct (is_coinbase tx); [reflexivity|].
    apply push_inputs_from_spends.
Qed.

End Pop.

Arguments TransactionsRemove {hash_digest short_hash}.
Arguments SpendsRemove {hash_digest short_hash}.
Arguments HistoryDeleteLastRow {hash_digest short_hash}.
Arguments StealthUnlink {hash_digest short_hash}.
Arguments BlocksUnlink {hash_digest short_hash}.

(** The two transactions of [block_91842], pushed at height 6 and served
    back by the tables. *)
Definition served_at_6 (i : Z) (tx_hash : nat)
  : option (transaction_result nat unit) :=
  option_map (fun tx => {| result_height := 6; result_index := i;
                           result_transaction := tx |})
             (nth_error (transactions block_91842) (Z.to_nat i)).

Lemma served_at_6_serves :
  serves (fun tx => length (inputs tx)) 6 block_91842 served_at_6.
Proof.
  intros i tx H. unfold served_at_6. now rewrite Nat2Z.id, H.
Qed.

Lemma pop_returns_block_witness :
  snd (pop (short_hash := nat) (fun _ => false) (fun _ => Some 5%nat) 0 6
           (Some (block_result_of (fun tx => length (inputs tx))
                                  block_91842))
           served_at_6)
  = Some block_91842.
Proof.
  exact (proj1 (pop_returns_block (fun _ => false) (fun _ => Some 5%nat) 0
                  served_at_6_serves)).
Defined.

Lemma pop_mirrors_push_witness :
  flat_map (@removed_spends nat nat)
    (fst (pop (fun _ => false) (fun _ => Some 5%nat) 0 6
              (Some (block_result_of (fun tx => length (inputs tx))
                                     block_91842))
              served_at_6))
  = [ {| point_hash := 7%nat; point_index := 0 |} ].
Proof.
  destruct (pop_mirrors_push (hash := fun tx => length (inputs tx))
              (fun _ => false) (fun _ => Some 5%nat)
              (fun _ => None) (fun _ => None) (2 ^ 64 - 1) 0 5
              (b := block_91842) (transactions_get := served_at_6))
    as (_ & H & _).
  - vm_compute; discriminate.
  - vm_compute; discriminate.
  - exact served_at_6_serves.
  - exact H.
Defined.

Lemma push_below_history_height_witness :
  flat_map (@added_history nat nat unit)
    (push (fun tx => length (inputs tx)) (fun _ => false)
          (fun _ => Some 5%nat) (fun _ => None) (fun _ => None)
          (2 ^ 64 - 1) 100 5 block_91842) = [].
Proof.
  apply (push_below_history_height (fun tx => length (inputs tx))
           (fun _ => false) (fun _ => Some 5%nat) (fun _ => None)
           (fun _ => None) (2 ^ 64 - 1) 100 5 block_91842).
  reflexivity.
Defined.

Unset Implicit Arguments.

End DbInterface.

(* ================================================================== *)
(** * Execution of stateful code that can abort *)
(* ================================================================== *)

Module Exec.

(** [assertion_failed]: a [BITCOIN_ASSERT] did not hold (violations
    abort).  [access_violation]: a pointer was used outside the mapping.
    [out_of_fuel]: a [while] loop was cut after the given number of
    rounds. *)
Inductive error := assertion_failed | access_violation | out_of_fuel.

(** An aborted run keeps the state reached when it stopped. *)
Inductive outcome (S A : Type) :=
| Ok (a : A) (s : S)
| Abort (e : error) (s : S).

Arguments Ok {S A}.
Arguments Abort {S A}.

Definition M (S A : Type) := S -> outcome S A.

Definition ret {S A} (a : A) : M S A := fun s => Ok a s.

Definition bind {S A B} (c : M S A) (k : A -> M S B) : M S B :=
  fun s => match c s with
           | Ok a s' => k a s'
           | Abort e s' => Abort e s'
           end.

Definition abort {S A} (e : error) : M S A := fun s => Abort e s.

Definition BITCOIN_ASSERT {S} (b : bool) : M S unit :=
  fun s => if b then Ok tt s else Abort assertion_failed s.

Definition gets {S A} (f : S -> A) : M S A := fun s => Ok (f s) s.

Definition modify {S} (f : S -> S) : M S unit := fun s => Ok tt (f s).

Declare Scope exec_scope.
Delimit Scope exec_scope with exec.

Notation "x <- c1 ;; c2" := (bind c1 (fun x => c2))
  (at level 61, c1 at next level, right associativity) : exec_scope.
Notation "c1 ;; c2" := (bind c1 (fun _ => c2))
  (at level 61, right associativity) : exec_scope.

Lemma bind_Ok {S A B} (c : M S A) (k : A -> M S B) s b s'' :
  bind c k s = Ok b s'' <->
  exists a s', c s = Ok a s' /\ k a s' = Ok b s''.
Proof.
  unfold bind. split.
  - destruct (c s) as [a s'|e s']; [eauto | discriminate].
  - intros (a & s' & -> & H). exact H.
Qed.

Lemma ret_Ok {S A} (a b : A) (s s' : S) :
  ret a s = Ok b s' <-> a = b /\ s = s'.
Proof. unfold ret. split; [intros [= -> ->]; auto | intros [-> ->]; auto]. Qed.

Lemma gets_Ok {S A} (f : S -> A) (s s' : S) a :
  gets f s = Ok a s' <-> f s = a /\ s = s'.
Proof. unfold gets. split; [intros [= -> ->]; auto | intros [-> ->]; auto]. Qed.

Lemma modify_Ok {S} (f : S -> S) (s s' : S) u :
  modify f s = Ok u s' <-> f s = s'.
Proof.
  unfold modify. destruct u. split; [intros [= ->]; auto | intros ->; auto].
Qed.

Lemma assert_Ok {S} b (s s' : S) u :
  BITCOIN_ASSERT b s = Ok u s' <-> b = true /\ s' = s.
Proof.
  unfold BITCOIN_ASSERT. destruct b, u; split.
  - intros [= <-]; auto.
  - intros [_ ->]; auto.
  - discriminate.
  - intros [? _]; discriminate.
Qed.

Lemma bind_eval {S A B} (c : M S A) (k : A -> M S B) s a s' :
  c s = Ok a s' -> bind c k s = k a s'.
Proof. unfold bind. now intros ->. Qed.

Lemma bind_assoc {S A B C} (c : M S A) (k : A -> M S B) (k' : B -> M S C) s :
  bind (bind c k) k' s = bind c (fun a => bind (k a) k') s.
Proof. unfold bind. now destruct (c s). Qed.

(** Splits a successful run into the successful runs of its steps. *)
Ltac exec_inv :=
  repeat match goal with
  | H : bind _ _ _ = Ok _ _ |- _ =>
      apply bind_Ok in H; destruct H as (? & ? & ? & H)
  | H : BITCOIN_ASSERT _ _ = Ok _ _ |- _ =>
      apply assert_Ok in H; destruct H as [? ?]
  | H : ret _ _ = Ok _ _ |- _ =>
      apply ret_Ok in H; destruct H as [? ?]
  | H : gets _ _ = Ok _ _ |- _ =>
      apply gets_Ok in H; destruct H as [? ?]
  | H : modify _ _ = Ok _ _ |- _ =>
      apply modify_Ok in H
  | H : abort _ _ = Ok _ _ |- _ => discriminate H
  end.

End Exec.

(* ================================================================== *)
(** * hdb_shard *)
(* ================================================================== *)

Module Shard.
Import Bytes Exec.
Local Open Scope exec_scope.

(** ** Data *)

(** [address_bitset] is a [boost::dynamic_bitset<uint8_t>]: element [i]
    of the list is bit [i] of the bitset. *)
Definition address_bitset := list bool.

(** [shard_max_entries], a constant of the header of this file, is kept
    with the settings. *)
Record hdb_shard_settings := {
  shard_max_entries : Z;
  total_key_size : Z;
  sharded_bitsize : Z;
  bucket_bitsize : Z;
  row_value_size : Z
}.

Record entry_row := { scan_key : address_bitset; value : list byte }.

(** What reached the file, one event per byte stored. *)
Inductive file_event :=
| Resized (new_size : Z)
| Stored (pos : Z) (b : byte).

(** The shard object, the operating system under its file and the log of
    what it did to the file ([log_], newest event first). *)
Record hdb_shard := {
  os_ : Mmfile.os_calls;
  file_ : Mmfile.mmfile;
  settings_ : hdb_shard_settings;
  entries_end_ : Z;
  rows_ : list entry_row;
  log_ : list file_event
}.

Definition set_file (f : Mmfile.mmfile) (st : hdb_shard) : hdb_shard :=
  {| os_ := os_ st; file_ := f; settings_ := settings_ st;
     entries_end_ := entries_end_ st; rows_ := rows_ st; log_ := log_ st |}.

Definition set_data (d : list byte) (st : hdb_shard) : hdb_shard :=
  set_file {| Mmfile.file_handle_ := Mmfile.file_handle_ (file_ st);
              Mmfile.data_ := Some d;
              Mmfile.size_ := Mmfile.size_ (file_ st) |} st.

Definition set_entries_end (e : Z) (st : hdb_shard) : hdb_shard :=
  {| os_ := os_ st; file_ := file_ st; settings_ := settings_ st;
     entries_end_ := e; rows_ := rows_ st; log_ := log_ st |}.

Definition set_rows (r : list entry_row) (st : hdb_shard) : hdb_shard :=
  {| os_ := os_ st; file_ := file_ st; settings_ := settings_ st;
     entries_end_ := entries_end_ st; rows_ := r; log_ := log_ st |}.

Definition add_log (evs : list file_event) (st : hdb_shard) : hdb_shard :=
  {| os_ := os_ st; file_ := file_ st; settings_ := settings_ st;
     entries_end_ := entries_end_ st; rows_ := rows_ st;
     log_ := rev_append evs (log_ st) |}.

(** The events in the order they happened. *)
Definition events (st : hdb_shard) : list file_event := rev (log_ st).

Fixpoint stores_of (pos : Z) (bs : list byte) : list file_event :=
  match bs with
  | [] => []
  | b :: rest => Stored pos b :: stores_of (pos + 1) rest
  end.

Definition shard_op := M hdb_shard.

(** ** The file under the shard *)

Definition file_size : shard_op Z :=
  gets (fun st => Mmfile.size (file_ st)).

Definition file_resize (new_size : Z) : shard_op bool :=
  fun st =>
    let r := Mmfile.resize (os_ st) new_size (file_ st) in
    if fst r
    then Ok true (add_log [Resized new_size] (set_file (snd r) st))
    else Ok false (set_file (snd r) st).

Definition store_bytes (pos : Z) (bs : list byte) : shard_op unit :=
  fun st =>
    match Mmfile.data (file_ st) with
    | None => Abort access_violation st
    | Some d =>
        match write_bytes pos bs d with
        | None => Abort access_violation st
        | Some d' => Ok tt (add_log (stores_of pos bs) (set_data d' st))
        end
    end.

Definition load_bytes (pos n : Z) : shard_op (list byte) :=
  fun st =>
    match Mmfile.data (file_ st) with
    | None => Abort access_violation st
    | Some d =>
        match read_bytes pos n d with
        | None => Abort access_violation st
        | Some bs => Ok bs st
        end
    end.

(** A serializer is the position of its iterator in the mapping; each
    write returns the advanced iterator. *)
Definition serial_write_2_bytes (serial v : Z) : shard_op Z :=
  store_bytes serial (to_little_endian 2 v) ;; ret (serial + 2).

Definition serial_write_8_bytes (serial v : Z) : shard_op Z :=
  store_bytes serial (to_little_endian 8 v) ;; ret (serial + 8).

Definition serial_write_data (serial : Z) (data : list byte) : shard_op Z :=
  store_bytes serial data ;; ret (serial + Z.of_nat (length data)).

Definition read_2_bytes (pos : Z) : shard_op Z :=
  bs <- load_bytes pos 2 ;; ret (from_little_endian bs).

Definition read_8_bytes (pos : Z) : shard_op Z :=
  bs <- load_bytes pos 8 ;; ret (from_little_endian bs).

(** ** hdb_shard_settings *)

Definition scan_bitsize (s : hdb_shard_settings) : shard_op Z :=
  BITCOIN_ASSERT (sharded_bitsize s <=? wrap64 (total_key_size s * 8)) ;;
  ret (wrap64 (wrap64 (total_key_size s * 8) - sharded_bitsize s)).

Definition scan_size (s : hdb_shard_settings) : shard_op Z :=
  bitsize <- scan_bitsize s ;;
  BITCOIN_ASSERT (negb (bitsize =? 0)) ;;
  ret ((bitsize - 1) / 8 + 1).

(** [1 << bucket_bitsize], an [int] shift: the value below is what C++
    defines for [bucket_bitsize < 31]. *)
Definition number_buckets (s : hdb_shard_settings) : Z :=
  Z.shiftl 1 (bucket_bitsize s).

(** ** initialize_new, start, add *)

Fixpoint write_zero_entries (serial : Z) (count : nat) : shard_op Z :=
  match count with
  | O => ret serial
  | S c =>
      serial' <- serial_write_8_bytes serial 0 ;;
      write_zero_entries serial' c
  end.

Definition initial_entries_end (s : hdb_shard_settings) : Z :=
  wrap64 (8 + 8 * shard_max_entries s).

Definition initialize_new : shard_op unit :=
  s <- gets settings_ ;;
  let total_size := wrap64 (8 + 8 * shard_max_entries s) in
  success <- file_resize total_size ;;
  BITCOIN_ASSERT success ;;
  serial <- serial_write_8_bytes 0 (initial_entries_end s) ;;
  _ <- write_zero_entries serial (Z.to_nat (shard_max_entries s)) ;;
  ret tt.

Definition start : shard_op unit :=
  e <- read_8_bytes 0 ;;
  modify (set_entries_end e) ;;
  s <- gets settings_ ;;
  BITCOIN_ASSERT (initial_entries_end s <=? e).

Definition add (key : address_bitset) (v : list byte) : shard_op unit :=
  s <- gets settings_ ;;
  BITCOIN_ASSERT (Z.of_nat (length v) =? row_value_size s) ;;
  let scan_bits := wrap64 (wrap64 (total_key_size s * 8) - sharded_bitsize s) in
  BITCOIN_ASSERT (Z.of_nat (length key) =? scan_bits) ;;
  modify (fun st => set_rows (rows_ st ++ [ {| scan_key := key; value := v |} ]) st).

(** ** sort_rows *)

(** The lambda [reverse_less_than]: the first index at which the keys
    differ decides; keys without a difference give [true].  Its size
    assertion holds for buffered rows, all checked by [add]. *)
Fixpoint reverse_less_than (bits_a bits_b : address_bitset) : bool :=
  match bits_a, bits_b with
  | a :: rest_a, b :: rest_b =>
      if Bool.eqb a b then reverse_less_than rest_a rest_b
      else negb a && b
  | _, _ => true
  end.

Definition sort_func (entry_a entry_b : entry_row) : bool :=
  reverse_less_than (scan_key entry_a) (scan_key entry_b).

(** [std::sort] is the standard library's; an insertion sort driven by
    the comparator stands for it.  Whatever algorithm is run, rows whose
    keys are pairwise distinct end in the same order, and that is where
    the insertion sort stands for the call: with a key buffered twice
    the comparator (true on equal keys) is no strict weak ordering, and
    what [std::sort] then does, or in which order it leaves such rows,
    is not defined by the library.  Statements on the sorted rows are
    for distinct keys, or do not depend on the order of equal keys. *)
Fixpoint insert_row {A} (comp : A -> A -> bool) (x : A) (l : list A)
  : list A :=
  match l with
  | [] => [x]
  | y :: rest => if comp x y then x :: l else y :: insert_row comp x rest
  end.

Definition std_sort {A} (comp : A -> A -> bool) (l : list A) : list A :=
  fold_right (insert_row comp) [] l.

Definition sort_rows : shard_op unit :=
  modify (fun st => set_rows (std_sort sort_func (rows_ st)) st).

(** ** reserve, link *)

Definition reserve (space_needed : Z) : shard_op unit :=
  e <- gets entries_end_ ;;
  let required_size := wrap64 (e + space_needed) in
  size <- file_size ;;
  if required_size <=? size then ret tt
  else
    let new_size := wrap64 (required_size * 3) / 2 in
    BITCOIN_ASSERT (size <? new_size) ;;
    success <- file_resize new_size ;;
    BITCOIN_ASSERT success.

Definition link (height entry : Z) : shard_op unit :=
  let positions_bucket := wrap64 (8 + 8 * height) in
  _ <- serial_write_8_bytes positions_bucket entry ;;
  e <- gets entries_end_ ;;
  _ <- serial_write_8_bytes 0 e ;;
  ret tt.

(** ** Buckets *)

(** [to_ulong_reverse]: rounds [i = 0 .. n-1] of the loop, on the 32-bit
    [index_type]. *)
Fixpoint to_ulong_reverse_loop (key : address_bitset) (n : nat) : Z :=
  match n with
  | O => 0
  | S i =>
      let bucket := to_ulong_reverse_loop key i in
      if nth (length key - i - 1) key false
      then wrap32 (bucket + Z.shiftl 1 (Z.of_nat i))
      else bucket
  end.

Definition to_ulong_reverse (key : address_bitset) : Z :=
  to_ulong_reverse_loop key (length key).

(** [dynamic_bitset::resize]: the low indexes are kept, new bits are 0. *)
Definition resize_bits (key : address_bitset) (n : Z) : address_bitset :=
  firstn (Z.to_nat n) key ++ repeat false (Z.to_nat n - length key).

Definition which_bucket (key : address_bitset) (bucket_bits : Z)
  : shard_op Z :=
  BITCOIN_ASSERT (bucket_bits <=? 32) ;;
  ret (to_ulong_reverse (resize_bits key bucket_bits)).

(** The helper template [write_2_bytes(serial, value, begin, end)];
    [value] is a [uint16_t] parameter. *)
Fixpoint write_2_bytes_loop (serial value : Z) (rounds : nat) : shard_op Z :=
  match rounds with
  | O => ret serial
  | S r =>
      serial' <- serial_write_2_bytes serial value ;;
      write_2_bytes_loop serial' value r
  end.

Definition write_2_bytes (serial value begin_ end_ : Z) : shard_op Z :=
  write_2_bytes_loop serial (wrap16 value) (Z.to_nat (end_ - begin_)).

(** The [for] loop of [write_buckets]; returns the iterator and
    [begin_bucket]. *)
Fixpoint write_buckets_loop (s : hdb_shard_settings) (serial i begin_bucket : Z)
    (rows : list entry_row) : shard_op (Z * Z) :=
  match rows with
  | [] => ret (serial, begin_bucket)
  | row :: rest =>
      b <- which_bucket (scan_key row) (bucket_bitsize s) ;;
      let end_bucket := wrap32 (b + 1) in
      BITCOIN_ASSERT (begin_bucket <=? end_bucket) ;;
      let value := wrap32 i in
      serial' <- write_2_bytes serial value begin_bucket end_bucket ;;
      write_buckets_loop s serial' (i + 1) end_bucket rest
  end.

Definition write_buckets (serial : Z) (rows : list entry_row)
    (s : hdb_shard_settings) : shard_op Z :=
  sb <- write_buckets_loop s serial 0 0 rows ;;
  let end_bucket := wrap32 (number_buckets s) in
  BITCOIN_ASSERT (snd sb <? end_bucket) ;;
  write_2_bytes (fst sb) (Z.of_nat (length rows)) (snd sb) end_bucket.

(** ** Rows *)

Definition num_blocks (key : address_bitset) : Z :=
  (Z.of_nat (length key) + 7) / 8.

(** The value of one block: bit [i] of the block weighs [2^i]. *)
Fixpoint block_value (bits : list bool) : Z :=
  match bits with
  | [] => 0
  | b :: rest => Z.b2z b + 2 * block_value rest
  end.

(** [boost::to_block_range]: block [j] holds bits [8j .. 8j+7]. *)
Definition to_block_range (key : address_bitset) : list byte :=
  map (fun j => block_value (firstn 8 (skipn (8 * j) key)))
      (seq 0 (Z.to_nat (num_blocks key))).

Fixpoint write_rows_loop (s : hdb_shard_settings) (scan_sz serial : Z)
    (rows : list entry_row) : shard_op Z :=
  match rows with
  | [] => ret serial
  | row :: rest =>
      BITCOIN_ASSERT (scan_sz =? num_blocks (scan_key row)) ;;
      let scan_data := to_block_range (scan_key row) in
      serial1 <- serial_write_data serial scan_data ;;
      BITCOIN_ASSERT (Z.of_nat (length (value row)) =? row_value_size s) ;;
      serial2 <- serial_write_data serial1 (value row) ;;
      write_rows_loop s scan_sz serial2 rest
  end.

Definition write_rows (serial : Z) (rows : list entry_row)
    (s : hdb_shard_settings) : shard_op Z :=
  scan_sz <- scan_size s ;;
  write_rows_loop s scan_sz serial rows.

(** ** sync *)

Definition sync (height : Z) : shard_op unit :=
  sort_rows ;;
  s <- gets settings_ ;;
  rows <- gets rows_ ;;
  scan_sz <- scan_size s ;;
  let row_size := wrap64 (scan_sz + row_value_size s) in
  let entry_header_size := wrap64 (2 + 2 * number_buckets s) in
  let entry_size :=
    wrap64 (entry_header_size + row_size * Z.of_nat (length rows)) in
  reserve entry_size ;;
  entry_position <- gets entries_end_ ;;
  serial <- serial_write_2_bytes entry_position
              (wrap16 (Z.of_nat (length rows))) ;;
  serial <- write_buckets serial rows s ;;
  let rows_sector := wrap64 (entry_position + entry_header_size) in
  BITCOIN_ASSERT (serial =? rows_sector) ;;
  serial <- write_rows serial rows s ;;
  modify (set_rows []) ;;
  modify (fun st => set_entries_end (wrap64 (entries_end_ st + entry_size)) st) ;;
  e <- gets entries_end_ ;;
  BITCOIN_ASSERT (serial =? e) ;;
  link height entry_position.

(** ** entry_position, calc_entry_size, unlink *)

(** [8 + 8 * entry_bucket] is computed on the 32-bit [index_type]. *)
Definition entry_position (height : Z) : shard_op Z :=
  let entry_bucket := wrap32 height in
  let bucket := wrap32 (8 + 8 * entry_bucket) in
  read_8_bytes bucket.

Definition calc_entry_size (entry : Z) : shard_op Z :=
  number_rows <- read_2_bytes entry ;;
  s <- gets settings_ ;;
  scan_sz <- scan_size s ;;
  let row_size := wrap64 (scan_sz + row_value_size s) in
  ret (wrap64 (2 + 2 * number_buckets s + row_size * number_rows)).

Definition unlink (height : Z) : shard_op unit :=
  BITCOIN_ASSERT (0 <? height) ;;
  prev_entry <- entry_position (wrap64 (height - 1)) ;;
  size <- calc_entry_size prev_entry ;;
  modify (set_entries_end (wrap64 (prev_entry + size))) ;;
  e <- gets entries_end_ ;;
  _ <- serial_write_8_bytes 0 e ;;
  ret tt.

(** ** scan *)

Definition read_row_index (bucket_index entry_begin : Z) : shard_op Z :=
  let bucket := wrap32 (2 + 2 * bucket_index) in
  read_2_bytes (entry_begin + bucket).

(** Bit [i] of a stored key: bit [i mod 8] of its byte [i / 8], the
    layout [to_block_range] writes. *)
Definition stored_bit (raw : list byte) (i : nat) : bool :=
  Z.testbit (nth (i / 8) raw 0) (Z.of_nat (i mod 8)).

(** Modelled from the spec: [stealth_match] (libbitcoin's stealth.hpp)
    is not among the sources.  The spec's [scan] advances "while
    row.scan_key shares the full prefix.len()-bit prefix with prefix (per
    the same bit ordering as the sort)": every bit of the prefix is
    compared with the bit of the same index in the stored key. *)
Definition prefix_matches (key : address_bitset) (raw : list byte) : bool :=
  forallb (fun i => Bool.eqb (nth i key false) (stored_bit raw i))
          (seq 0 (length key)).

Definition stealth_match (key : address_bitset) (current_row : Z)
  : shard_op bool :=
  raw <- load_bytes current_row (num_blocks key) ;;
  ret (prefix_matches key raw).

(** The inner [while] of [scan].  [read] copies [row_value_size] bytes
    from the pointer it is given, as the callers' callbacks do; the
    result lists what it was invoked on, in order. *)
Fixpoint scan_rows (fuel : nat) (key : address_bitset)
    (s : hdb_shard_settings) (row_size current_row entry_end : Z)
  : shard_op (list (list byte)) :=
  match fuel with
  | O => abort out_of_fuel
  | S fuel' =>
      if current_row =? entry_end then ret []
      else
        matches <- stealth_match key current_row ;;
        if negb matches then ret []
        else
          scan_sz <- scan_size s ;;
          let row_value := current_row + scan_sz in
          v <- load_bytes row_value (row_value_size s) ;;
          rest <- scan_rows fuel' key s row_size
                    (current_row + row_size) entry_end ;;
          ret (v :: rest)
  end.

(** The outer [while] of [scan]; a loop gets at most [fuel] rounds. *)
Fixpoint scan_entries (fuel inner_fuel : nat) (key : address_bitset)
    (bucket_index entry : Z) : shard_op (list (list byte)) :=
  match fuel with
  | O => abort out_of_fuel
  | S fuel' =>
      e <- gets entries_end_ ;;
      if entry =? e then ret []
      else
        entry_size <- calc_entry_size entry ;;
        let entry_begin := entry in
        let entry_end := entry_begin + entry_size in
        row_index <- read_row_index bucket_index entry_begin ;;
        s <- gets settings_ ;;
        let rows_sector := entry_begin + 2 + 2 * number_buckets s in
        scan_sz <- scan_size s ;;
        let row_size := wrap64 (scan_sz + row_value_size s) in
        let current_row := rows_sector + row_size * row_index in
        here <- scan_rows inner_fuel key s row_size current_row entry_end ;;
        rest <- scan_entries fuel' inner_fuel key bucket_index
                  (wrap64 (entry + entry_size)) ;;
        ret (here ++ rest)
  end.

Definition scan (key : address_bitset) (from_height : Z) (fuel : nat)
  : shard_op (list (list byte)) :=
  s <- gets settings_ ;;
  bits <- scan_bitsize s ;;
  BITCOIN_ASSERT (Z.of_nat (length key) <=? bits) ;;
  entry <- entry_position from_height ;;
  bucket_index <- which_bucket key (bucket_bitsize s) ;;
  scan_entries fuel fuel key bucket_index entry.

(** ** Settings in range *)

(** Sizes that fit the integer types of the code: the index region is
    addressed with 32-bit arithmetic ([entry_position]), the bucket
    count is an [int] shift, and a scan key has at least one bit. *)
Definition settings_ok (s : hdb_shard_settings) : bool :=
  (0 <? shard_max_entries s) && (8 + 8 * shard_max_entries s <? 2 ^ 32)
  && (0 <? total_key_size s) && (total_key_size s <? 2 ^ 32)
  && (0 <=? sharded_bitsize s)
  && (sharded_bitsize s <? total_key_size s * 8)
  && (0 <=? bucket_bitsize s) && (bucket_bitsize s <=? 30)
  && (0 <=? row_value_size s) && (row_value_size s <? 2 ^ 32).

Definition scan_bits (s : hdb_shard_settings) : Z :=
  total_key_size s * 8 - sharded_bitsize s.

Definition scan_bytes (s : hdb_shard_settings) : Z :=
  (scan_bits s - 1) / 8 + 1.

Definition row_size_of (s : hdb_shard_settings) : Z :=
  scan_bytes s + row_value_size s.

Definition header_size_of (s : hdb_shard_settings) : Z :=
  2 + 2 * number_buckets s.

(** ** The bytes an entry is made of *)

Definition mem (st : hdb_shard) : list byte :=
  match Mmfile.data_ (file_ st) with
  | Some d => d
  | None => []
  end.

Definition is_mapped (st : hdb_shard) : Prop :=
  Mmfile.data_ (file_ st) <> None.

(** The state after [bs] was stored at [pos]. *)
Definition put_bytes (pos : Z) (bs : list byte) (st : hdb_shard)
  : hdb_shard :=
  add_log (stores_of pos bs) (set_data (splice pos bs (mem st)) st).

Definition can_store (pos : Z) (bs : list byte) (st : hdb_shard) : Prop :=
  is_mapped st /\ in_bounds pos (Z.of_nat (length bs)) (mem st) = true.

(** [wrote pos bs st st']: from [st], storing the bytes [bs] at [pos]
    was within the mapping and gave [st']. *)
Definition wrote (pos : Z) (bs : list byte) (st st' : hdb_shard) : Prop :=
  can_store pos bs st /\ st' = put_bytes pos bs st.

Definition fields_bytes (vals : list Z) : list byte :=
  flat_map (to_little_endian 2) vals.

Definition bucket_of (s : hdb_shard_settings) (row : entry_row) : Z :=
  to_ulong_reverse (resize_bits (scan_key row) (bucket_bitsize s)).

(** The 16-bit fields [write_buckets_loop] emits, and its final
    [begin_bucket]; [None] where an assertion fails. *)
Fixpoint bucket_fields_loop (s : hdb_shard_settings) (i begin_bucket : Z)
    (rows : list entry_row) : option (list Z * Z) :=
  match rows with
  | [] => Some ([], begin_bucket)
  | row :: rest =>
      let end_bucket := wrap32 (bucket_of s row + 1) in
      if (bucket_bitsize s <=? 32) && (begin_bucket <=? end_bucket)
      then
        match bucket_fields_loop s (i + 1) end_bucket rest with
        | Some (vals, b) =>
            Some (repeat (wrap16 (wrap32 i))
                         (Z.to_nat (end_bucket - begin_bucket)) ++ vals, b)
        | None => None
        end
      else None
  end.

Definition bucket_fields (s : hdb_shard_settings) (rows : list entry_row)
  : option (list Z) :=
  match bucket_fields_loop s 0 0 rows with
  | Some (vals, b) =>
      let end_bucket := wrap32 (number_buckets s) in
      if b <? end_bucket
      then Some (vals ++ repeat (wrap16 (Z.of_nat (length rows)))
                                (Z.to_nat (end_bucket - b)))
      else None
  | None => None
  end.

Definition row_image (row : entry_row) : list byte :=
  to_block_range (scan_key row) ++ value row.

Definition rows_image (rows : list entry_row) : list byte :=
  flat_map row_image rows.

Definition row_ok (s : hdb_shard_settings) (row : entry_row) : bool :=
  (scan_bytes s =? num_blocks (scan_key row))
  && (Z.of_nat (length (value row)) =? row_value_size s).

(** The bytes of the entry [sync] writes for the (sorted) rows. *)
Definition entry_image (s : hdb_shard_settings) (rows : list entry_row)
  : option (list byte) :=
  match bucket_fields s rows with
  | Some vals =>
      if forallb (row_ok s) rows
         && (Z.of_nat (length vals) =? number_buckets s)
      then Some (to_little_endian 2 (Z.of_nat (length rows))
                   ++ fields_bytes vals ++ rows_image rows)
      else None
  | None => None
  end.

(** ** Facts on settings *)

Lemma settings_ok_true s :
  settings_ok s = true <->
  0 < shard_max_entries s /\ 8 + 8 * shard_max_entries s < 2 ^ 32 /\
  0 < total_key_size s /\ total_key_size s < 2 ^ 32 /\
  0 <= sharded_bitsize s /\ sharded_bitsize s < total_key_size s * 8 /\
  0 <= bucket_bitsize s /\ bucket_bitsize s <= 30 /\
  0 <= row_value_size s /\ row_value_size s < 2 ^ 32.
Proof.
  unfold settings_ok.
  rewrite !andb_true_iff, !Z.ltb_lt, !Z.leb_le. tauto.
Qed.

Lemma wrap64_small x : 0 <= x < 2 ^ 64 -> wrap64 x = x.
Proof. intros. unfold wrap64. now apply Z.mod_small. Qed.

Lemma wrap32_small x : 0 <= x < 2 ^ 32 -> wrap32 x = x.
Proof. intros. unfold wrap32. now apply Z.mod_small. Qed.

Lemma wrap16_small x : 0 <= x < 2 ^ 16 -> wrap16 x = x.
Proof. intros. unfold wrap16. now apply Z.mod_small. Qed.

Lemma scan_bytes_bounds s :
  settings_ok s = true -> 1 <= scan_bytes s <= total_key_size s.
Proof.
  intros H. apply settings_ok_true in H. unfold scan_bytes, scan_bits.
  assert (0 <= (total_key_size s * 8 - sharded_bitsize s - 1) / 8
          < total_key_size s).
  { split.
    - apply Z.div_pos; lia.
    - apply Z.div_lt_upper_bound; lia. }
  lia.
Qed.

Lemma number_buckets_bounds s :
  settings_ok s = true -> 1 <= number_buckets s <= 2 ^ 30.
Proof.
  intros H. apply settings_ok_true in H. unfold number_buckets.
  rewrite Z.shiftl_1_l. split.
  - assert (0 < 2 ^ bucket_bitsize s) by (apply Z.pow_pos_nonneg; lia). lia.
  - apply Z.pow_le_mono_r; lia.
Qed.

Lemma scan_bitsize_ok s st :
  settings_ok s = true -> scan_bitsize s st = Ok (scan_bits s) st.
Proof.
  intros H. apply settings_ok_true in H. unfold scan_bitsize, scan_bits.
  rewrite (wrap64_small (total_key_size s * 8)) by lia.
  rewrite wrap64_small by lia.
  unfold bind, BITCOIN_ASSERT, ret.
  now replace (sharded_bitsize s <=? total_key_size s * 8) with true
    by (symmetry; apply Z.leb_le; lia).
Qed.

Lemma scan_size_ok s st :
  settings_ok s = true -> scan_size s st = Ok (scan_bytes s) st.
Proof.
  intros H. unfold scan_size, bind. rewrite scan_bitsize_ok by assumption.
  apply settings_ok_true in H. unfold BITCOIN_ASSERT, ret, scan_bytes.
  replace (scan_bits s =? 0) with false; [reflexivity|].
  symmetry. apply Z.eqb_neq. unfold scan_bits. lia.
Qed.

(** ** Stores *)

Lemma mem_mapped st : is_mapped st -> Mmfile.data_ (file_ st) = Some (mem st).
Proof.
  unfold is_mapped, mem. destruct (Mmfile.data_ (file_ st)); congruence.
Qed.

Lemma stores_of_app pos b1 b2 :
  stores_of pos (b1 ++ b2)
  = stores_of pos b1 ++ stores_of (pos + Z.of_nat (length b1)) b2.
Proof.
  revert pos; induction b1 as [|x b1 IH]; intros pos.
  - simpl. now rewrite Z.add_0_r.
  - cbn [app stores_of length]. rewrite IH. do 3 f_equal. lia.
Qed.

Lemma put_bytes_nil pos st : is_mapped st -> put_bytes pos [] st = st.
Proof.
  intros H. apply mem_mapped in H. unfold put_bytes.
  rewrite splice_nil. destruct st as [o f s e r l], f as [h d z].
  unfold add_log, set_data, set_file. simpl in *. now rewrite H.
Qed.

Lemma put_bytes_mapped pos bs st : is_mapped (put_bytes pos bs st).
Proof. unfold is_mapped. simpl. discriminate. Qed.

Lemma mem_put_bytes pos bs st :
  mem (put_bytes pos bs st) = splice pos bs (mem st).
Proof. reflexivity. Qed.

Lemma events_put_bytes pos bs st :
  events (put_bytes pos bs st) = events st ++ stores_of pos bs.
Proof.
  unfold events, put_bytes, add_log. simpl.
  now rewrite rev_append_rev, rev_app_distr, rev_involutive.
Qed.

Lemma store_bytes_Ok pos bs st u st' :
  store_bytes pos bs st = Ok u st' <-> wrote pos bs st st'.
Proof.
  unfold store_bytes, wrote, can_store, is_mapped, put_bytes, mem,
    write_bytes, Mmfile.data.
  destruct (Mmfile.data_ (file_ st)) as [d|].
  - destruct (in_bounds pos (Z.of_nat (length bs)) d); split.
    + intros [= <-]. repeat split; congruence.
    + intros [_ ->]. now destruct u.
    + discriminate.
    + intros [[_ ?] _]. discriminate.
  - split; [discriminate|]. intros [[? _] _]. congruence.
Qed.

Lemma wrote_nil pos st : is_mapped st -> wrote pos [] st st.
Proof.
  intros H. split; [split; [exact H | reflexivity]|].
  symmetry. now apply put_bytes_nil.
Qed.

Lemma wrote_mapped pos bs st st' : wrote pos bs st st' -> is_mapped st'.
Proof. intros [_ ->]. apply put_bytes_mapped. Qed.

Lemma wrote_app pos b1 b2 st st1 st2 :
  wrote pos b1 st st1 ->
  wrote (pos + Z.of_nat (length b1)) b2 st1 st2 ->
  wrote pos (b1 ++ b2) st st2.
Proof.
  intros [[Hm H1] ->] [[_ H2] ->].
  rewrite mem_put_bytes in H2.
  assert (H2' : in_bounds (pos + Z.of_nat (length b1))
                  (Z.of_nat (length b2)) (mem st) = true).
  { apply in_bounds_true. apply in_bounds_true in H2.
    now rewrite length_splice in H2 by assumption. }
  destruct (splice_splice pos b1 b2 (mem st) H1 H2') as [Hs Hb].
  split; [split; assumption|].
  unfold put_bytes at 1 3. rewrite mem_put_bytes, Hs.
  unfold add_log, set_data, set_file, put_bytes. simpl.
  f_equal. rewrite stores_of_app, !rev_append_rev, rev_app_distr.
  now rewrite app_assoc.
Qed.

Lemma serial_write_2_bytes_Ok serial v st serial' st' :
  serial_write_2_bytes serial v st = Ok serial' st' ->
  wrote serial (to_little_endian 2 v) st st' /\ serial' = serial + 2.
Proof.
  unfold serial_write_2_bytes. intros H. exec_inv.
  apply store_bytes_Ok in H0. subst. auto.
Qed.

Lemma serial_write_8_bytes_Ok serial v st serial' st' :
  serial_write_8_bytes serial v st = Ok serial' st' ->
  wrote serial (to_little_endian 8 v) st st' /\ serial' = serial + 8.
Proof.
  unfold serial_write_8_bytes. intros H. exec_inv.
  apply store_bytes_Ok in H0. subst. auto.
Qed.

Lemma serial_write_data_Ok serial data st serial' st' :
  serial_write_data serial data st = Ok serial' st' ->
  wrote serial data st st' /\ serial' = serial + Z.of_nat (length data).
Proof.
  unfold serial_write_data. intros H. exec_inv.
  apply store_bytes_Ok in H0. subst. auto.
Qed.

Lemma length_fields_bytes vals :
  Z.of_nat (length (fields_bytes vals)) = 2 * Z.of_nat (length vals).
Proof.
  unfold fields_bytes. induction vals as [|v vals IH]; [reflexivity|].
  cbn [flat_map]. rewrite length_app, length_to_little_endian.
  cbn [length]. lia.
Qed.

Lemma fields_bytes_app v1 v2 :
  fields_bytes (v1 ++ v2) = fields_bytes v1 ++ fields_bytes v2.
Proof. apply flat_map_app. Qed.

Lemma write_2_bytes_loop_Ok rounds serial v st serial' st' :
  is_mapped st ->
  write_2_bytes_loop serial v rounds st = Ok serial' st' ->
  wrote serial (fields_bytes (repeat v rounds)) st st'
  /\ serial' = serial + 2 * Z.of_nat rounds.
Proof.
  revert serial st; induction rounds as [|r IH]; intros serial st Hm H.
  - simpl in H. exec_inv. subst. split; [now apply wrote_nil | lia].
  - cbn [write_2_bytes_loop] in H. exec_inv.
    apply serial_write_2_bytes_Ok in H0 as [Hw ->].
    apply IH in H as [Hw' ->]; [|eapply wrote_mapped; eassumption].
    split; [|lia].
    cbn [repeat]. change (fields_bytes (v :: repeat v r))
      with (to_little_endian 2 v ++ fields_bytes (repeat v r)).
    eapply wrote_app; [eassumption|].
    now rewrite length_to_little_endian.
Qed.

Lemma write_buckets_loop_Ok s rows serial i b st serial' b' st' :
  is_mapped st ->
  write_buckets_loop s serial i b rows st = Ok (serial', b') st' ->
  exists vals,
    bucket_fields_loop s i b rows = Some (vals, b')
    /\ wrote serial (fields_bytes vals) st st'
    /\ serial' = serial + 2 * Z.of_nat (length vals).
Proof.
  revert serial i b st; induction rows as [|row rest IH];
    intros serial i b st Hm H.
  - simpl in H. exec_inv. injection H as <- <-. subst.
    exists []. split; [reflexivity|].
    split; [now apply wrote_nil | simpl; lia].
  - cbn [write_buckets_loop] in H. unfold which_bucket, write_2_bytes in H.
    exec_inv. subst.
    match goal with
    | H2 : write_2_bytes_loop _ _ _ _ = Ok _ _ |- _ =>
        apply write_2_bytes_loop_Ok in H2 as [Hw ->]; [|assumption]
    end.
    apply IH in H as (vals & Hf & Hw' & ->);
      [|eapply wrote_mapped; eassumption].
    cbn [bucket_fields_loop]. fold (bucket_of s row) in *.
    repeat match goal with
    | E : (_ <=? _) = true |- _ => rewrite E; clear E
    end.
    cbn [andb]. rewrite Hf.
    eexists. split; [reflexivity|]. split.
    + rewrite fields_bytes_app. eapply wrote_app; [eassumption|].
      now rewrite length_fields_bytes, repeat_length.
    + rewrite length_app, repeat_length. lia.
Qed.

Lemma write_buckets_Ok s rows serial st serial' st' :
  is_mapped st ->
  write_buckets serial rows s st = Ok serial' st' ->
  exists vals,
    bucket_fields s rows = Some vals
    /\ wrote serial (fields_bytes vals) st st'
    /\ serial' = serial + 2 * Z.of_nat (length vals).
Proof.
  intros Hm H. unfold write_buckets, write_2_bytes in H. exec_inv.
  match goal with
  | x : (Z * Z)%type |- _ => destruct x as [serial1 b1]
  end.
  cbn [fst snd] in *. subst.
  match goal with
  | H0 : write_buckets_loop _ _ _ _ _ _ = Ok _ _ |- _ =>
      apply write_buckets_loop_Ok in H0 as (vals & Hf & Hw & ->);
        [|assumption]
  end.
  apply write_2_bytes_loop_Ok in H as [Hw' ->];
    [|eapply wrote_mapped; eassumption].
  unfold bucket_fields. rewrite Hf.
  match goal with
  | E : (_ <? _) = true |- _ => rewrite E
  end.
  eexists. split; [reflexivity|]. split.
  - rewrite fields_bytes_app. eapply wrote_app; [eassumption|].
    now rewrite length_fields_bytes.
  - rewrite length_app, repeat_length. lia.
Qed.

Lemma write_rows_loop_Ok s rows scan_sz serial st serial' st' :
  is_mapped st ->
  write_rows_loop s scan_sz serial rows st = Ok serial' st' ->
  forallb (fun row => (scan_sz =? num_blocks (scan_key row))
                      && (Z.of_nat (length (value row)) =? row_value_size s))
          rows = true
  /\ wrote serial (rows_image rows) st st'
  /\ serial' = serial + Z.of_nat (length (rows_image rows)).
Proof.
  revert serial st; induction rows as [|row rest IH]; intros serial st Hm H.
  - simpl in H. exec_inv. subst.
    split; [reflexivity|]. split; [now apply wrote_nil | simpl; lia].
  - cbn [write_rows_loop] in H. exec_inv. subst.
    repeat match goal with
    | H1 : serial_write_data _ _ _ = Ok _ _ |- _ =>
        apply serial_write_data_Ok in H1 as [? ->]
    end.
    match goal with
    | Ha : wrote serial _ _ ?s1, Hb : wrote _ _ ?s1 ?s2 |- _ =>
        rename Ha into Hw1; rename Hb into Hw2
    end.
    pose proof (wrote_mapped _ _ _ _ Hw2) as Hm2.
    apply IH in H as (Hok & Hw3 & ->); [|assumption].
    cbn [forallb rows_image flat_map].
    split.
    { apply andb_true_iff. split; [|exact Hok].
      apply andb_true_iff. split; assumption. }
    fold (rows_image rest). unfold row_image. split.
    + rewrite <- app_assoc. eapply wrote_app; [exact Hw1|].
      eapply wrote_app; [exact Hw2|]. exact Hw3.
    + rewrite !length_app. lia.
Qed.

(** ** The file of a running shard *)

(** The mapping is there, [size_] is its length and fits an [off_t]. *)
Definition file_ok (st : hdb_shard) : Prop :=
  is_mapped st
  /\ Mmfile.size_ (file_ st) = Z.of_nat (length (mem st))
  /\ Z.of_nat (length (mem st)) < 2 ^ 63.

(** [reserve] left the file alone or made it longer, zeros appended. *)
Definition grown (st st1 : hdb_shard) : Prop :=
  st1 = st
  \/ exists n,
       Z.of_nat (length (mem st)) < n < 2 ^ 63
       /\ st1 = add_log [Resized n]
                  (set_file
                     {| Mmfile.file_handle_ := Mmfile.file_handle_ (file_ st);
                        Mmfile.data_ :=
                          Some (mem st ++ repeat 0 (Z.to_nat n - length (mem st)));
                        Mmfile.size_ := n |} st).

Ltac simpl_state :=
  cbn [put_bytes add_log set_data set_file set_rows set_entries_end
       entries_end_ rows_ settings_ os_ log_ file_
       Mmfile.data_ Mmfile.size_ Mmfile.file_handle_] in *.

Lemma file_resize_Ok n st st' :
  file_ok st ->
  file_resize n st = Ok true st' ->
  n < 2 ^ 63
  /\ st' = add_log [Resized n]
             (set_file
                {| Mmfile.file_handle_ := Mmfile.file_handle_ (file_ st);
                   Mmfile.data_ := Some (Mmfile.remapped n (mem st));
                   Mmfile.size_ := n |} st).
Proof.
  intros (Hm & Hs & Hl) H. unfold file_resize in H.
  destruct (Mmfile.resize (os_ st) n (file_ st)) as [ok f'] eqn:E.
  cbn [fst snd] in H. destruct ok; [|discriminate].
  injection H as <-.
  pose proof E as E'. apply Mmfile.resize_true in E' as (Hn & Hsz & Hd).
  split; [assumption|]. f_equal. f_equal.
  rewrite (mem_mapped _ Hm) in Hd. simpl in Hd.
  unfold Mmfile.resize in E.
  destruct (negb (Mmfile.ftruncate (os_ st) n)); [discriminate|].
  destruct (negb (Mmfile.mremap_ok (os_ st) n)); [discriminate|].
  injection E as <-. f_equal.
  now rewrite (mem_mapped _ Hm).
Qed.

Lemma reserve_Ok space st u st' :
  file_ok st ->
  reserve space st = Ok u st' ->
  grown st st'.
Proof.
  intros Hf H. unfold reserve, file_size in H. exec_inv. subst.
  destruct (wrap64 (entries_end_ _ + space) <=? Mmfile.size _) eqn:E.
  - exec_inv. subst. now left.
  - exec_inv. subst.
    match goal with
    | Hr : file_resize _ _ = Ok _ _ |- _ =>
        apply file_resize_Ok in Hr as [Hn ->]; [|assumption]
    end.
    right. eexists. split; [|f_equal; f_equal; f_equal].
    + destruct Hf as (_ & Hs & _). unfold Mmfile.size in *.
      match goal with
      | Hlt : (_ <? _) = true |- _ => apply Z.ltb_lt in Hlt
      end. lia.
    + f_equal. apply Mmfile.remapped_grow.
      destruct Hf as (_ & Hs & _). unfold Mmfile.size in *.
      match goal with
      | Hlt : (_ <? _) = true |- _ => apply Z.ltb_lt in Hlt
      end. lia.
Qed.

Lemma grown_file_ok st st1 : file_ok st -> grown st st1 -> file_ok st1.
Proof.
  intros Hf [-> | (n & Hn & ->)]; [assumption|].
  set (m := mem st) in *.
  unfold file_ok, is_mapped, mem. simpl_state.
  rewrite length_app, repeat_length. repeat split; [discriminate|lia|lia].
Qed.

Lemma grown_fields st st1 :
  grown st st1 ->
  entries_end_ st1 = entries_end_ st /\ rows_ st1 = rows_ st
  /\ settings_ st1 = settings_ st /\ os_ st1 = os_ st
  /\ exists ext, mem st1 = mem st ++ ext.
Proof.
  intros [-> | (n & Hn & ->)].
  - repeat split. exists []. now rewrite app_nil_r.
  - repeat split. eexists. reflexivity.
Qed.

Lemma put_bytes_file_ok pos bs st :
  file_ok st -> can_store pos bs st -> file_ok (put_bytes pos bs st).
Proof.
  intros (Hm & Hs & Hl) [_ Hb]. unfold file_ok.
  rewrite mem_put_bytes, length_splice by assumption.
  repeat split; [apply put_bytes_mapped | exact Hs | exact Hl].
Qed.

Lemma wrote_file_ok pos bs st st' :
  file_ok st -> wrote pos bs st st' -> file_ok st'.
Proof. intros Hf [Hc ->]. now apply put_bytes_file_ok. Qed.

Lemma wrote_fields pos bs st st' :
  wrote pos bs st st' ->
  entries_end_ st' = entries_end_ st /\ rows_ st' = rows_ st
  /\ settings_ st' = settings_ st /\ os_ st' = os_ st
  /\ mem st' = splice pos bs (mem st)
  /\ events st' = events st ++ stores_of pos bs.
Proof.
  intros [_ ->]. repeat split. apply events_put_bytes.
Qed.

Lemma length_to_block_range key :
  Z.of_nat (length (to_block_range key)) = num_blocks key.
Proof.
  unfold to_block_range. rewrite length_map, length_seq.
  apply Z2Nat.id. unfold num_blocks. apply Z.div_pos; lia.
Qed.

Lemma length_rows_image s rows :
  forallb (row_ok s) rows = true ->
  Z.of_nat (length (rows_image rows))
  = row_size_of s * Z.of_nat (length rows).
Proof.
  induction rows as [|row rest IH]; intros H; [simpl; lia|].
  cbn [forallb] in H. apply andb_true_iff in H as [Hr Hrest].
  unfold row_ok in Hr. apply andb_true_iff in Hr as [Hk Hv].
  apply Z.eqb_eq in Hk, Hv.
  cbn [rows_image flat_map]. fold (rows_image rest).
  unfold row_image. rewrite !length_app, !Nat2Z.inj_add.
  rewrite IH by assumption. rewrite length_to_block_range.
  cbn [length]. unfold row_size_of. lia.
Qed.

Lemma length_insert_row {A} (comp : A -> A -> bool) x l :
  length (insert_row comp x l) = S (length l).
Proof.
  induction l as [|y l IH]; [reflexivity|].
  simpl. destruct (comp x y); simpl; [reflexivity|]. now rewrite IH.
Qed.

Lemma length_std_sort {A} (comp : A -> A -> bool) l :
  length (std_sort comp l) = length l.
Proof.
  induction l as [|x l IH]; [reflexivity|].
  simpl. now rewrite length_insert_row, IH.
Qed.

Lemma sync_Ok h st u st' :
  settings_ok (settings_ st) = true ->
  file_ok st ->
  sync h st = Ok u st' ->
  exists st1 st2 st3 img,
    grown (set_rows (std_sort sort_func (rows_ st)) st) st1
    /\ entry_image (settings_ st) (std_sort sort_func (rows_ st)) = Some img
    /\ Z.of_nat (length img)
       = header_size_of (settings_ st)
         + row_size_of (settings_ st) * Z.of_nat (length (rows_ st))
    /\ wrote (entries_end_ st) img st1 st2
    /\ wrote (wrap64 (8 + 8 * h)) (to_little_endian 8 (entries_end_ st))
         (set_entries_end (entries_end_ st + Z.of_nat (length img))
            (set_rows [] st2)) st3
    /\ wrote 0 (to_little_endian 8 (entries_end_ st + Z.of_nat (length img)))
         st3 st'.
Proof.
  intros Hs Hf H. unfold sync, sort_rows, link, write_rows in H. exec_inv.
  subst. simpl_state.
  repeat match goal with
  | E : scan_size _ _ = Ok _ _ |- _ =>
      rewrite scan_size_ok in E by (simpl_state; assumption);
      injection E as <- <-
  end.
  match goal with
  | E : reserve _ _ = Ok _ _ |- _ =>
      apply reserve_Ok in E; [|exact Hf]; rename E into Hg
  end.
  pose proof (grown_file_ok (set_rows _ st) _ Hf Hg) as Hf1.
  pose proof (grown_fields _ _ Hg) as (He1 & Hr1 & Hs1 & Ho1 & _).
  simpl_state.
  match goal with
  | E : serial_write_2_bytes _ _ _ = Ok _ _ |- _ =>
      apply serial_write_2_bytes_Ok in E as [Hw1 ->]
  end.
  pose proof (wrote_file_ok _ _ _ _ Hf1 Hw1) as Hf2.
  match goal with
  | E : write_buckets _ _ _ _ = Ok _ _ |- _ =>
      apply write_buckets_Ok in E as (vals & Hvals & Hw2 & ->);
        [|apply Hf2]
  end.
  pose proof (wrote_file_ok _ _ _ _ Hf2 Hw2) as Hf3.
  match goal with
  | E : write_rows_loop _ _ _ _ _ = Ok _ _ |- _ =>
      apply write_rows_loop_Ok in E as (Hrows & Hw3 & ->);
        [|apply Hf3]
  end.
  rewrite He1 in *.
  set (rows := std_sort sort_func (rows_ st)) in *.
  set (s := settings_ st) in *.
  set (pos := entries_end_ st) in *.
  change (forallb (row_ok s) rows = true) in Hrows.
  assert (Hw : wrote pos
                 (to_little_endian 2 (Z.of_nat (length rows))
                    ++ fields_bytes vals ++ rows_image rows) x10 x18).
  { eapply wrote_app.
    - rewrite <- (to_little_endian_mod 2). exact Hw1.
    - rewrite length_to_little_endian. change (Z.of_nat 2) with 2.
      eapply wrote_app; [exact Hw2|].
      rewrite length_fields_bytes. exact Hw3. }
  pose proof (length_rows_image s rows Hrows) as Hlr.
  pose proof (length_fields_bytes vals) as Hlf.
  pose proof (scan_bytes_bounds s Hs) as Hsb.
  pose proof (number_buckets_bounds s Hs) as Hnb.
  pose proof Hs as Hs'. apply settings_ok_true in Hs'.
  assert (Hlen : Z.of_nat (length (to_little_endian 2 (Z.of_nat (length rows))
                    ++ fields_bytes vals ++ rows_image rows))
                 = 2 + 2 * Z.of_nat (length vals)
                   + row_size_of s * Z.of_nat (length rows)).
  { rewrite !length_app, length_to_little_endian, !Nat2Z.inj_add. lia. }
  assert (Hb : 0 <= pos /\
               pos + 2 + 2 * Z.of_nat (length vals)
                 + row_size_of s * Z.of_nat (length rows) < 2 ^ 63).
  { destruct Hw as [[_ Hb] _]. apply in_bounds_true in Hb.
    destruct Hf1 as (_ & _ & Hl). lia. }
  pose proof (wrote_fields _ _ _ _ Hw) as (He18 & _).
  rewrite He18, He1 in *. fold pos in He1, He18.
  assert (Hprod : 0 <= row_size_of s * Z.of_nat (length rows))
    by (apply Z.mul_nonneg_nonneg; unfold row_size_of; lia).
  unfold row_size_of in Hprod, Hb, Hlen, Hlr.
  rewrite (wrap64_small (2 + 2 * number_buckets s)) in * by lia.
  rewrite (wrap64_small (scan_bytes s + row_value_size s)) in * by lia.
  match goal with
  | E : (_ =? wrap64 (pos + (2 + 2 * number_buckets s))) = true |- _ =>
      apply Z.eqb_eq in E; rewrite wrap64_small in E by lia;
      assert (Hnv : Z.of_nat (length vals) = number_buckets s) by lia;
      clear E
  end.
  rewrite (wrap64_small (2 + 2 * number_buckets s + _)) in * by lia.
  rewrite (wrap64_small (pos + _)) in * by lia.
  repeat match goal with
  | E : serial_write_8_bytes _ _ _ = Ok _ _ |- _ =>
      apply serial_write_8_bytes_Ok in E as [? _]
  end.
  match goal with
  | HA : wrote _ _ _ ?sa, HB : wrote 0 _ ?sa _ |- _ =>
      pose proof (wrote_fields _ _ _ _ HA) as (HeA & _);
      simpl_state; rewrite HeA in HB;
      rename HA into HwA; rename HB into HwB
  end.
  exists x10, x18.
  match type of HwB with wrote _ _ ?sa _ => exists sa end.
  eexists.
  split; [exact Hg|].
  split.
  { unfold entry_image. rewrite Hvals, Hrows.
    replace (Z.of_nat (length vals) =? number_buckets s) with true
      by (symmetry; apply Z.eqb_eq; exact Hnv).
    reflexivity. }
  split.
  { rewrite Hlen. unfold rows. rewrite length_std_sort.
    unfold header_size_of, row_size_of. lia. }
  split; [exact Hw|].
  rewrite Hlen.
  replace (pos + (2 + 2 * Z.of_nat (length vals)
                  + (scan_bytes s + row_value_size s)
                    * Z.of_nat (length rows)))
    with (pos + (2 + 2 * number_buckets s
                 + (scan_bytes s + row_value_size s)
                   * Z.of_nat (length rows))) by lia.
  split; [exact HwA | exact HwB].
Qed.

(** ** What a crash leaves in the file *)














Lemma Forall_firstn {A} (P : A -> Prop) k l :
  Forall P l -> Forall P (firstn k l).
Proof.
  intros H. revert k; induction H as [|x l Hx _ IH]; intros k.
  - now rewrite firstn_nil.
  - destruct k; [constructor|]. cbn [firstn]. constructor; auto.
Qed.

Lemma initial_entries_end_ok s :
  settings_ok s = true ->
  initial_entries_end s = 8 + 8 * shard_max_entries s.
Proof.
  intros H. apply settings_ok_true in H. unfold initial_entries_end.
  apply wrap64_small. lia.
Qed.


(** ** A shard to run *)

Definition example_settings : hdb_shard_settings :=
  {| shard_max_entries := 4; total_key_size := 4; sharded_bitsize := 0;
     bucket_bitsize := 2; row_value_size := 1 |}.

(** A shard over a file just touched: the single byte "H". *)
Definition blank (s : hdb_shard_settings) : hdb_shard :=
  {| os_ := Mmfile.os_always_ok;
     file_ := {| Mmfile.file_handle_ := 3;
                 Mmfile.data_ := Some [72];
                 Mmfile.size_ := 1 |};
     settings_ := s; entries_end_ := 0; rows_ := []; log_ := [] |}.

(** The key whose first bits, in index order, are [l], filled with zero
    bits up to [n] bits. *)
Definition key_bits (l : list Z) (n : nat) : address_bitset :=
  map (fun z => negb (z =? 0)) l ++ repeat false (n - length l).

Definition state_of {A} (o : outcome hdb_shard A) : hdb_shard :=
  match o with
  | Ok _ s => s
  | Abort _ s => s
  end.

Definition buffered_shard : hdb_shard :=
  state_of ((initialize_new ;; start ;;
             add (key_bits [0;1;1;1] 32) [99] ;;
             add (key_bits [0;0;0;1] 32) [97] ;;
             add (key_bits [0;1;0;1] 32) [98])
            (blank example_settings)).


(** ** unlink(0) *)

(** C8: [unlink(0)] stops at the assertion [height > 0]; the shard, its
    file included, is as it was. *)
Theorem unlink_zero_rejected (st : hdb_shard) :
  unlink 0 st = Abort assertion_failed st.
Proof. reflexivity. Qed.

(** ** The order of sort_rows *)

(** [bits_less a b]: at the first index where the keys differ, [a] has
    bit 0 and [b] has bit 1.  Index 0 is the least significant bit of
    byte 0 of the stored key ([to_block_range]). *)
Definition bits_less (a b : address_bitset) : Prop :=
  exists p x y, a = p ++ false :: x /\ b = p ++ true :: y.

(** Unsigned bytes compared from byte 0 on: big-endian lexicographic
    order over raw key bytes. *)
Fixpoint bytes_less (a b : list byte) : bool :=
  match a, b with
  | x :: a', y :: b' => if x =? y then bytes_less a' b' else x <? y
  | _, _ => false
  end.

Lemma reverse_less_than_total a b :
  reverse_less_than a b = true \/ reverse_less_than b a = true.
Proof.
  revert b; induction a as [|x a IH]; intros [|y b]; simpl; auto.
  destruct x, y; simpl; auto.
Qed.

Lemma reverse_less_than_bits_less a b :
  length a = length b -> a <> b ->
  reverse_less_than a b = true -> bits_less a b.
Proof.
  revert b; induction a as [|x a IH]; intros [|y b] Hl Hne H;
    try discriminate; [congruence|].
  simpl in H. injection Hl as Hl.
  destruct x, y; simpl in H; try discriminate.
  - destruct (IH b Hl) as (p & u & v & -> & ->); [congruence|exact H|].
    now exists (true :: p), u, v.
  - now exists [], a, b.
  - destruct (IH b Hl) as (p & u & v & -> & ->); [congruence|exact H|].
    now exists (false :: p), u, v.
Qed.

Lemma bits_less_reverse_less_than a b :
  bits_less a b ->
  reverse_less_than a b = true /\ reverse_less_than b a = false.
Proof.
  intros (p & x & y & -> & ->). induction p as [|c p IH]; simpl; [auto|].
  now rewrite Bool.eqb_reflx.
Qed.

Section InsertionSort.

Context {A : Type} (comp : A -> A -> bool).
Hypothesis comp_total : forall a b, comp a b = true \/ comp b a = true.

Lemma insert_row_perm x l : Permutation (insert_row comp x l) (x :: l).
Proof.
  induction l as [|y l IH]; simpl; [apply Permutation_refl|].
  destruct (comp x y); [apply Permutation_refl|].
  eapply Permutation_trans; [apply perm_skip, IH | apply perm_swap].
Qed.

Lemma std_sort_perm l : Permutation (std_sort comp l) l.
Proof.
  induction l as [|x l IH]; simpl; [constructor|].
  eapply Permutation_trans; [apply insert_row_perm|]. now apply perm_skip.
Qed.

Lemma insert_row_sorted x l :
  Sorted (fun a b => comp a b = true) l ->
  Sorted (fun a b => comp a b = true) (insert_row comp x l).
Proof.
  induction 1 as [|y l Hs IH Hd]; simpl; [repeat constructor|].
  destruct (comp x y) eqn:E.
  - constructor; [now constructor | now constructor].
  - constructor; [exact IH|].
    destruct (comp_total x y) as [Hc | Hc]; [congruence|].
    destruct l as [|z l]; simpl; [now constructor|].
    destruct (comp x z); constructor; [exact Hc|].
    now inversion Hd.
Qed.

Lemma std_sort_sorted l : Sorted (fun a b => comp a b = true) (std_sort comp l).
Proof.
  induction l as [|x l IH]; simpl; [constructor|].
  now apply insert_row_sorted.
Qed.

End InsertionSort.

Lemma sorted_distinct_keys n rows :
  Forall (fun r => length (scan_key r) = n) rows ->
  NoDup (map scan_key rows) ->
  Sorted (fun a b => sort_func a b = true) rows ->
  Sorted (fun a b => bits_less (scan_key a) (scan_key b)) rows.
Proof.
  intros Hlen Hnd Hs. induction Hs as [|r rows Hs IH Hd]; [constructor|].
  inversion Hlen as [|? ? Hr Hrest]; subst.
  inversion Hnd as [|? ? Hnotin Hnd']; subst.
  constructor; [now apply IH|].
  destruct Hd as [|r' rows' Hc]; constructor.
  inversion Hrest; subst.
  apply reverse_less_than_bits_less; [congruence | | exact Hc].
  intros Heq. apply Hnotin. simpl. now left.
Qed.

(** C3, as the code has it: [sort_rows] rearranges the buffered rows
    and, when their scan keys have one length and are pairwise distinct,
    leaves them strictly increasing in the order that compares the keys
    bit by bit in index order: bit 0 first, that is byte 0 of the stored
    key first and, within a byte, its least significant bit first.  On
    two different keys of one length the comparator is that order. *)
Theorem sort_rows_orders_by_bits (n : nat) (st st' : hdb_shard) :
  Forall (fun r => length (scan_key r) = n) (rows_ st) ->
  NoDup (map scan_key (rows_ st)) ->
  sort_rows st = Ok tt st' ->
  Permutation (rows_ st') (rows_ st)
  /\ Sorted (fun a b => bits_less (scan_key a) (scan_key b)) (rows_ st')
  /\ (forall a b, length a = length b -> a <> b ->
        (reverse_less_than a b = true <-> bits_less a b)).
Proof.
  intros Hlen Hnd H. unfold sort_rows in H. exec_inv. subst st'.
  simpl_state.
  pose proof (std_sort_perm sort_func (rows_ st)) as Hp.
  split; [exact Hp|]. split.
  - apply sorted_distinct_keys with (n := n).
    + eapply Permutation_Forall; [apply Permutation_sym, Hp | exact Hlen].
    + eapply Permutation_NoDup;
        [apply Permutation_map, Permutation_sym, Hp | exact Hnd].
    + apply std_sort_sorted. intros a b. apply reverse_less_than_total.
  - intros a b Hl Hne. split.
    + now apply reverse_less_than_bits_less.
    + intros Hb. now apply bits_less_reverse_less_than.
Qed.

Lemma sort_rows_orders_by_bits_witness :
  Permutation (rows_ (state_of (sort_rows buffered_shard)))
              (rows_ buffered_shard)
  /\ Sorted (fun a b => bits_less (scan_key a) (scan_key b))
            (rows_ (state_of (sort_rows buffered_shard)))
  /\ (forall a b, length a = length b -> a <> b ->
        (reverse_less_than a b = true <-> bits_less a b)).
Proof.
  apply (sort_rows_orders_by_bits 32 buffered_shard
           (state_of (sort_rows buffered_shard))).
  - vm_compute. repeat constructor.
  - vm_compute. repeat constructor; simpl; intuition discriminate.
  - reflexivity.
Defined.

(** C3 as stated fails twice: the comparator answers [true] on equal
    keys, so it is no strict weak ordering; and it puts the key stored
    as byte 2 before the key stored as byte 1, against the order of the
    raw key bytes. *)
Lemma sort_rows_comparator_counterexample :
  reverse_less_than (key_bits [1; 0] 8) (key_bits [1; 0] 8) = true
  /\ to_block_range (key_bits [1] 8) = [1]
  /\ to_block_range (key_bits [0; 1] 8) = [2]
  /\ bytes_less [1] [2] = true
  /\ reverse_less_than (key_bits [1] 8) (key_bits [0; 1] 8) = false
  /\ reverse_less_than (key_bits [0; 1] 8) (key_bits [1] 8) = true.
Proof. repeat split. Qed.

(** ** scan on the spec's scenario *)

Definition result_of {A} (o : outcome hdb_shard A) : A + error :=
  match o with
  | Ok a _ => inl a
  | Abort e _ => inr e
  end.

(** The spec's words for what [scan] is to deliver: the values of the
    rows whose scan keys share the [|p|]-bit prefix [p], in sorted row
    order. *)
Definition shares_prefix (p key : address_bitset) : bool :=
  forallb (fun i => Bool.eqb (nth i p false) (nth i key false))
          (seq 0 (length p)).

Definition expected_scan (p : address_bitset) (rows : list entry_row)
  : list (list byte) :=
  map value (filter (fun r => shares_prefix p (scan_key r))
                    (std_sort sort_func rows)).

Fixpoint add_rows (rows : list entry_row) : shard_op unit :=
  match rows with
  | [] => ret tt
  | r :: rest => add (scan_key r) (value r) ;; add_rows rest
  end.

(** Scenario S3: keys are written with the bit of index 0 first. *)
Definition rows_S3 : list entry_row :=
  [ {| scan_key := key_bits [0;0;0;1;0;0;0;0] 32; value := [97] |};
    {| scan_key := key_bits [0;1;0;1;0;0;0;0] 32; value := [98] |};
    {| scan_key := key_bits [0;1;1;1;0;0;0;0] 32; value := [99] |};
    {| scan_key := key_bits [1;1;0;0;0;0;0;0] 32; value := [100] |} ].

Definition scenario_S3 : shard_op (list (list byte)) :=
  initialize_new ;; start ;; add_rows rows_S3 ;; sync 0 ;;
  scan (key_bits [0;1] 2) 0 16.

(** Two rows of bucket 01, scanned with the 3-bit prefix 011. *)
Definition rows_one_bucket : list entry_row :=
  [ {| scan_key := key_bits [0;1;0;0] 32; value := [97] |};
    {| scan_key := key_bits [0;1;1;0] 32; value := [98] |} ].

Definition scenario_long_prefix : shard_op (list (list byte)) :=
  initialize_new ;; start ;; add_rows rows_one_bucket ;; sync 0 ;;
  scan (key_bits [0;1;1] 3) 0 16.

(** C2 fails on the code.  On scenario S3 itself [sync(0)] stops at the
    assertion [begin_bucket < end_bucket] of [write_buckets], because the
    last row falls in the last bucket; and a prefix longer than
    [bucket_bitsize] bits finds nothing when a row of the same bucket
    sorts before the matching ones, since [scan] stops at the first row
    that does not match. *)
Theorem scan_misses_matching_rows :
  result_of (scenario_S3 (blank example_settings)) = inr assertion_failed
  /\ expected_scan (key_bits [0;1] 2) rows_S3 = [[98]; [99]]
  /\ result_of (scenario_long_prefix (blank example_settings)) = inl []
  /\ expected_scan (key_bits [0;1;1] 3) rows_one_bucket = [[98]].
Proof. repeat split; vm_compute; reflexivity. Qed.

(** With the fourth row moved out of the last bucket, S3 and S4 run as
    the spec tells them. *)
Definition rows_S3_inner : list entry_row :=
  [ {| scan_key := key_bits [0;0;0;1;0;0;0;0] 32; value := [97] |};
    {| scan_key := key_bits [0;1;0;1;0;0;0;0] 32; value := [98] |};
    {| scan_key := key_bits [0;1;1;1;0;0;0;0] 32; value := [99] |};
    {| scan_key := key_bits [1;0;0;0;0;0;0;0] 32; value := [100] |} ].

Example scan_S3_inner :
  result_of ((initialize_new ;; start ;; add_rows rows_S3_inner ;; sync 0 ;;
              scan (key_bits [0;1] 2) 0 16) (blank example_settings))
  = inl [[98]; [99]].
Proof. vm_compute. reflexivity. Qed.

Example scan_S4_inner :
  result_of ((initialize_new ;; start ;; add_rows rows_S3_inner ;; sync 0 ;;
              add (key_bits [0;1;1;0;0;0;0;0] 32) [120] ;; sync 1 ;;
              before <- scan (key_bits [0;1] 2) 0 16 ;;
              unlink 1 ;;
              after <- scan (key_bits [0;1] 2) 0 16 ;;
              ret (before, after)) (blank example_settings))
  = inl ([[98]; [99]; [120]], [[98]; [99]]).
Proof. vm_compute. reflexivity. Qed.

(** ** What the bucket fields hold *)

(** The number of rows whose bucket is below [b]: for rows in bucket
    order, the index of the first row whose bucket is [b] or more. *)
Definition rows_before (s : hdb_shard_settings) (b : Z)
    (rows : list entry_row) : Z :=
  Z.of_nat (length (filter (fun r => bucket_of s r <? b) rows)).

Lemma to_ulong_reverse_loop_bounds key n :
  0 <= to_ulong_reverse_loop key n < 2 ^ Z.of_nat n.
Proof.
  induction n as [|n IH]; [simpl; lia|].
  cbn [to_ulong_reverse_loop].
  rewrite Nat2Z.inj_succ, Z.pow_succ_r by lia.
  destruct (nth (length key - n - 1) key false); [|lia].
  rewrite Z.shiftl_1_l. unfold wrap32.
  assert (0 <= to_ulong_reverse_loop key n + 2 ^ Z.of_nat n) by lia.
  pose proof (Z.mod_le (to_ulong_reverse_loop key n + 2 ^ Z.of_nat n)
                (2 ^ 32) H ltac:(lia)).
  pose proof (Z.mod_pos_bound (to_ulong_reverse_loop key n + 2 ^ Z.of_nat n)
                (2 ^ 32) ltac:(lia)).
  lia.
Qed.

Lemma length_resize_bits key n :
  0 <= n -> Z.of_nat (length (resize_bits key n)) = n.
Proof.
  intros Hn. unfold resize_bits.
  rewrite length_app, length_firstn, repeat_length. lia.
Qed.

Lemma bucket_of_bounds s row :
  settings_ok s = true -> 0 <= bucket_of s row < number_buckets s.
Proof.
  intros Hs. apply settings_ok_true in Hs.
  unfold bucket_of, to_ulong_reverse, number_buckets.
  rewrite Z.shiftl_1_l.
  pose proof (to_ulong_reverse_loop_bounds
                (resize_bits (scan_key row) (bucket_bitsize s))
                (length (resize_bits (scan_key row) (bucket_bitsize s)))) as H.
  now rewrite length_resize_bits in H by lia.
Qed.

Lemma wrap16_wrap32 x : wrap16 (wrap32 x) = wrap16 x.
Proof.
  unfold wrap16, wrap32. apply Z.mod_mod_divide.
  exists (2 ^ 16). reflexivity.
Qed.

Lemma rows_before_cons s b row rest :
  rows_before s b (row :: rest)
  = (if bucket_of s row <? b then 1 else 0) + rows_before s b rest.
Proof.
  unfold rows_before. cbn [filter].
  destruct (bucket_of s row <? b); cbn [length]; lia.
Qed.

Lemma rows_before_none s b rows :
  Forall (fun r => b <= bucket_of s r) rows -> rows_before s b rows = 0.
Proof.
  induction 1 as [|r rows Hr _ IH]; [reflexivity|].
  rewrite rows_before_cons, IH.
  now replace (bucket_of s r <? b) with false
    by (symmetry; apply Z.ltb_ge; lia).
Qed.

Lemma rows_before_all s b rows :
  Forall (fun r => bucket_of s r < b) rows ->
  rows_before s b rows = Z.of_nat (length rows).
Proof.
  induction 1 as [|r rows Hr _ IH]; [reflexivity|].
  rewrite rows_before_cons, IH.
  replace (bucket_of s r <? b) with true
    by (symmetry; apply Z.ltb_lt; lia).
  cbn [length]. lia.
Qed.

Lemma bucket_fields_loop_spec s rows i b vals b' :
  settings_ok s = true -> 0 <= b ->
  bucket_fields_loop s i b rows = Some (vals, b') ->
  b <= b'
  /\ Forall (fun r => b <= bucket_of s r + 1 <= b') rows
  /\ Z.of_nat (length vals) = b' - b
  /\ forall c, b <= c < b' ->
       nth (Z.to_nat (c - b)) vals 0 = wrap16 (i + rows_before s c rows).
Proof.
  intros Hs. revert i b vals b'.
  induction rows as [|row rest IH]; intros i b vals b' Hb H.
  - simpl in H. injection H as <- <-.
    repeat split; [lia | constructor | simpl; lia | intros; lia].
  - cbn [bucket_fields_loop] in H.
    pose proof (bucket_of_bounds s row Hs) as Hk.
    pose proof (number_buckets_bounds s Hs) as Hnb.
    rewrite (wrap32_small (bucket_of s row + 1)) in H by lia.
    destruct ((bucket_bitsize s <=? 32) && (b <=? bucket_of s row + 1))
      eqn:E; [|discriminate].
    apply andb_true_iff in E as [_ E]. apply Z.leb_le in E.
    destruct (bucket_fields_loop s (i + 1) (bucket_of s row + 1) rest)
      as [[vals' b1]|] eqn:Hrec; [|discriminate].
    injection H as <- <-.
    apply IH in Hrec as (Hle & Hall & Hlen & Hnth); [|lia].
    split; [lia|]. split.
    { constructor; [lia|].
      eapply Forall_impl; [|exact Hall]. simpl. intros; lia. }
    split.
    { rewrite length_app, repeat_length. lia. }
    intros c Hc. rewrite rows_before_cons.
    destruct (Z.lt_ge_cases c (bucket_of s row + 1)) as [Hlt | Hge].
    + rewrite app_nth1 by (rewrite repeat_length; lia).
      rewrite nth_repeat_lt by lia.
      rewrite wrap16_wrap32.
      replace (bucket_of s row <? c) with false
        by (symmetry; apply Z.ltb_ge; lia).
      rewrite rows_before_none; [f_equal; lia|].
      eapply Forall_impl; [|exact Hall]. simpl. intros; lia.
    + rewrite app_nth2 by (rewrite repeat_length; lia).
      rewrite repeat_length.
      replace (Z.to_nat (c - b) - Z.to_nat (bucket_of s row + 1 - b))%nat
        with (Z.to_nat (c - (bucket_of s row + 1))) by lia.
      rewrite Hnth by lia.
      replace (bucket_of s row <? c) with true
        by (symmetry; apply Z.ltb_lt; lia).
      f_equal. lia.
Qed.

Lemma bucket_fields_spec s rows vals :
  settings_ok s = true ->
  bucket_fields s rows = Some vals ->
  Z.of_nat (length vals) = number_buckets s
  /\ forall c, 0 <= c < number_buckets s ->
       nth (Z.to_nat c) vals 0 = wrap16 (rows_before s c rows).
Proof.
  intros Hs H. unfold bucket_fields in H.
  pose proof (number_buckets_bounds s Hs) as Hnb.
  rewrite (wrap32_small (number_buckets s)) in H by lia.
  destruct (bucket_fields_loop s 0 0 rows) as [[vals0 b1]|] eqn:Hloop;
    [|discriminate].
  destruct (b1 <? number_buckets s) eqn:E; [|discriminate].
  apply Z.ltb_lt in E. injection H as <-.
  apply bucket_fields_loop_spec in Hloop as (Hle & Hall & Hlen & Hnth);
    [|assumption|lia].
  split.
  { rewrite length_app, repeat_length. lia. }
  intros c Hc.
  destruct (Z.lt_ge_cases c b1) as [Hlt | Hge].
  - rewrite app_nth1 by lia.
    replace (Z.to_nat c) with (Z.to_nat (c - 0)) by (f_equal; lia).
    rewrite Hnth by lia. reflexivity.
  - rewrite app_nth2 by lia.
    rewrite nth_repeat_lt by lia.
    rewrite rows_before_all; [reflexivity|].
    eapply Forall_impl; [|exact Hall]. simpl. intros; lia.
Qed.

(** ** The file after sync *)

Lemma sync_reads h st st' :
  settings_ok (settings_ st) = true ->
  file_ok st ->
  initial_entries_end (settings_ st) <= entries_end_ st ->
  0 <= h < shard_max_entries (settings_ st) ->
  sync h st = Ok tt st' ->
  exists img,
    entry_image (settings_ st) (std_sort sort_func (rows_ st)) = Some img
    /\ Z.of_nat (length img)
       = header_size_of (settings_ st)
         + row_size_of (settings_ st) * Z.of_nat (length (rows_ st))
    /\ entries_end_ st' = entries_end_ st + Z.of_nat (length img)
    /\ rows_ st' = [] /\ settings_ st' = settings_ st /\ os_ st' = os_ st
    /\ file_ok st'
    /\ entries_end_ st' <= Z.of_nat (length (mem st'))
    /\ read_bytes (entries_end_ st) (Z.of_nat (length img)) (mem st')
       = Some img
    /\ read_bytes 0 8 (mem st')
       = Some (to_little_endian 8 (entries_end_ st'))
    /\ read_bytes (8 + 8 * h) 8 (mem st')
       = Some (to_little_endian 8 (entries_end_ st))
    /\ (forall p n,
          8 <= p -> p + n <= entries_end_ st ->
          p + n <= 8 + 8 * h \/ 16 + 8 * h <= p ->
          in_bounds p n (mem st) = true ->
          read_bytes p n (mem st') = read_bytes p n (mem st)).
Proof.
  intros Hs Hf He Hh H.
  rewrite initial_entries_end_ok in He by assumption.
  apply sync_Ok in H as (st1 & st2 & st3 & img & Hg & Himg & Hlen
                           & Hw1 & Hw2 & Hw3); try assumption.
  pose proof Hs as Hs'. apply settings_ok_true in Hs'.
  pose proof (scan_bytes_bounds _ Hs) as Hsb.
  pose proof (number_buckets_bounds _ Hs) as Hnb.
  rewrite (wrap64_small (8 + 8 * h)) in Hw2 by lia.
  pose proof (grown_file_ok (set_rows _ st) _ Hf Hg) as Hf1.
  pose proof (grown_fields _ _ Hg) as (Eg & Rg & Sg & Og & ext & Mg).
  pose proof (wrote_file_ok _ _ _ _ Hf1 Hw1) as Hf2.
  pose proof (wrote_fields _ _ _ _ Hw1) as (E1 & R1 & S1 & O1 & M1 & _).
  pose proof (wrote_fields _ _ _ _ Hw2) as (E2 & R2 & S2 & O2 & M2 & _).
  pose proof (wrote_fields _ _ _ _ Hw3) as (E3 & R3 & S3 & O3 & M3 & _).
  assert (Hf2' : file_ok (set_entries_end
                            (entries_end_ st + Z.of_nat (length img))
                            (set_rows [] st2))) by exact Hf2.
  pose proof (wrote_file_ok _ _ _ _ Hf2' Hw2) as Hf3.
  pose proof (wrote_file_ok _ _ _ _ Hf3 Hw3) as Hf4.
  destruct Hw1 as [[_ B1] _], Hw2 as [[_ B2] _], Hw3 as [[_ B3] _].
  simpl_state.
  change (mem (set_entries_end _ (set_rows [] st2))) with (mem st2) in *.
  change (mem (set_rows _ st)) with (mem st) in *.
  rewrite length_to_little_endian in B2, B3.
  change (Z.of_nat 8) with 8 in *.
  assert (Himg_pos : 0 < Z.of_nat (length img)).
  { rewrite Hlen. unfold header_size_of.
    assert (0 <= row_size_of (settings_ st) * Z.of_nat (length (rows_ st)))
      by (apply Z.mul_nonneg_nonneg; unfold row_size_of; lia).
    lia. }
  pose proof B1 as B1'. apply in_bounds_true in B1'.
  destruct B1' as [B1' | B1']; [lia|].
  assert (L2 : length (mem st2) = length (mem st1))
    by (rewrite M1; now apply length_splice).
  assert (L3 : length (mem st3) = length (mem st2)).
  { rewrite M2. apply length_splice.
    now rewrite length_to_little_endian. }
  assert (L4 : length (mem st') = length (mem st3)).
  { rewrite M3. apply length_splice.
    now rewrite length_to_little_endian. }
  assert (W2 : in_bounds (8 + 8 * h)
                 (Z.of_nat (length (to_little_endian 8 (entries_end_ st))))
                 (mem st2) = true)
    by now rewrite length_to_little_endian.
  assert (W3 : in_bounds 0
                 (Z.of_nat (length (to_little_endian 8
                    (entries_end_ st + Z.of_nat (length img)))))
                 (mem st3) = true)
    by now rewrite length_to_little_endian.
  exists img.
  split; [exact Himg|]. split; [exact Hlen|].
  split; [congruence|]. split; [congruence|].
  split; [congruence|]. split; [congruence|].
  split; [exact Hf4|].
  split; [rewrite E3, E2, L4, L3, L2; lia|].
  split.
  { rewrite M3, read_splice_other by (try assumption; rewrite length_to_little_endian; lia).
    rewrite M2, read_splice_other by (try assumption; rewrite length_to_little_endian; lia).
    rewrite M1. now apply read_splice_same. }
  split.
  { rewrite M3, E3, E2.
    pose proof (read_splice_same 0 _ _ W3) as R.
    now rewrite length_to_little_endian in R. }
  split.
  { rewrite M3, read_splice_other by (try assumption; rewrite length_to_little_endian; lia).
    rewrite M2.
    pose proof (read_splice_same (8 + 8 * h) _ _ W2) as R.
    now rewrite length_to_little_endian in R. }
  intros p n Hp Hpn Hslot Hin.
  rewrite M3, read_splice_other by (try assumption; rewrite length_to_little_endian; lia).
  rewrite M2, read_splice_other by (try assumption; rewrite length_to_little_endian; lia).
  rewrite M1, read_splice_other by (try assumption; lia).
  rewrite Mg. now apply read_bytes_prefix.
Qed.

(** ** Reading what is in the file *)

Lemma load_bytes_Ok pos n st bs :
  is_mapped st ->
  read_bytes pos n (mem st) = Some bs ->
  load_bytes pos n st = Ok bs st.
Proof.
  intros Hm H. unfold load_bytes, Mmfile.data.
  rewrite (mem_mapped _ Hm). now rewrite H.
Qed.

(** A load inside a range whose bytes [img] are known. *)
Lemma load_window base img o m st :
  is_mapped st ->
  read_bytes base (Z.of_nat (length img)) (mem st) = Some img ->
  0 <= o -> 0 <= m -> o + m <= Z.of_nat (length img) ->
  load_bytes (base + o) m st
  = Ok (firstn (Z.to_nat m) (skipn (Z.to_nat o) img)) st.
Proof.
  intros Hm H Ho Hmm Hom. apply load_bytes_Ok; [assumption|].
  now apply read_bytes_sub with (n := Z.of_nat (length img)).
Qed.

Lemma fields_bytes_field vals rest b :
  (b < length vals)%nat ->
  firstn 2 (skipn (2 * b) (fields_bytes vals ++ rest))
  = to_little_endian 2 (nth b vals 0).
Proof.
  revert b; induction vals as [|v vals IH]; intros b Hb; [simpl in Hb; lia|].
  destruct b as [|b].
  - reflexivity.
  - replace (2 * S b)%nat with (S (S (2 * b))) by lia.
    cbn [fields_bytes flat_map to_little_endian app skipn nth].
    apply IH. simpl in Hb. lia.
Qed.

Lemma from_little_endian_2 v :
  from_little_endian (to_little_endian 2 v) = v mod 2 ^ 16.
Proof. apply (from_to_little_endian 2). Qed.

(** C9: after a successful [sync], the row count the code reads back
    from the entry is the number of buffered rows modulo [2^16], and the
    start index it reads for a bucket is the index of the first row of
    that bucket or a later one, modulo [2^16]: the count read back is the
    true one exactly for buffers of at most 65535 rows. *)
Theorem sync_stores_16_bit_fields (h : Z) (st st' : hdb_shard) :
  settings_ok (settings_ st) = true ->
  file_ok st ->
  initial_entries_end (settings_ st) <= entries_end_ st ->
  0 <= h < shard_max_entries (settings_ st) ->
  sync h st = Ok tt st' ->
  read_2_bytes (entries_end_ st) st'
  = Ok (Z.of_nat (length (rows_ st)) mod 2 ^ 16) st'
  /\ (forall b, 0 <= b < number_buckets (settings_ st) ->
        read_row_index b (entries_end_ st) st'
        = Ok (rows_before (settings_ st) b (std_sort sort_func (rows_ st))
                mod 2 ^ 16) st')
  /\ (Z.of_nat (length (rows_ st)) mod 2 ^ 16 = Z.of_nat (length (rows_ st))
      <-> Z.of_nat (length (rows_ st)) <= 65535).
Proof.
  intros Hs Hf He Hh H.
  apply sync_reads in H
    as (img & Himg & Hlen & _ & _ & _ & _ & Hf' & _ & Hwin & _);
    try assumption.
  pose proof (number_buckets_bounds _ Hs) as Hnb.
  unfold entry_image in Himg.
  destruct (bucket_fields (settings_ st) (std_sort sort_func (rows_ st)))
    as [vals|] eqn:Hvals; [|discriminate].
  destruct (forallb _ _ && _); [|discriminate].
  apply bucket_fields_spec in Hvals as [Hnv Hnth]; [|assumption].
  set (n := Z.of_nat (length (rows_ st))) in *.
  assert (Eimg : img = to_little_endian 2 n ++ fields_bytes vals
                         ++ rows_image (std_sort sort_func (rows_ st))).
  { unfold n. rewrite <- (length_std_sort sort_func (rows_ st)). congruence. }
  clear Himg.
  set (rest := rows_image _) in *.
  assert (Hl : Z.of_nat (length img)
               = 2 + 2 * number_buckets (settings_ st)
                 + Z.of_nat (length rest)).
  { rewrite Eimg, !length_app, length_to_little_endian, !Nat2Z.inj_add,
      length_fields_bytes. lia. }
  split; [|split].
  - unfold read_2_bytes, bind.
    replace (entries_end_ st) with (entries_end_ st + 0) at 1 by lia.
    rewrite (load_window _ _ 0 2 _ (proj1 Hf') Hwin) by lia.
    unfold ret. f_equal. rewrite Eimg.
    change (Z.to_nat 0) with 0%nat. change (Z.to_nat 2) with 2%nat.
    cbn [skipn].
    rewrite firstn_app, length_to_little_endian, Nat.sub_diag, firstn_O,
      app_nil_r, firstn_all2 by (rewrite length_to_little_endian; lia).
    apply from_little_endian_2.
  - intros b Hb. unfold read_row_index, read_2_bytes, bind.
    rewrite (wrap32_small (2 + 2 * b)) by lia.
    rewrite (load_window _ _ (2 + 2 * b) 2 _ (proj1 Hf') Hwin) by lia.
    unfold ret. f_equal. rewrite Eimg.
    replace (Z.to_nat (2 + 2 * b)) with (2 * Z.to_nat b + 2)%nat by lia.
    change (Z.to_nat 2) with 2%nat.
    rewrite <- skipn_skipn.
    replace (skipn 2 (to_little_endian 2 n ++ fields_bytes vals ++ rest))
      with (fields_bytes vals ++ rest) by reflexivity.
    rewrite fields_bytes_field by lia.
    rewrite from_little_endian_2, Hnth by lia.
    unfold wrap16. apply Z.mod_mod. lia.
  - split.
    + intros Hmod. pose proof (Z.mod_pos_bound n (2 ^ 16) ltac:(lia)). lia.
    + intros Hle. apply Z.mod_small. lia.
Qed.

Lemma sync_stores_16_bit_fields_witness :
  read_2_bytes (entries_end_ buffered_shard) (state_of (sync 0 buffered_shard))
  = Ok (Z.of_nat (length (rows_ buffered_shard)) mod 2 ^ 16)
       (state_of (sync 0 buffered_shard))
  /\ (forall b, 0 <= b < number_buckets (settings_ buffered_shard) ->
        read_row_index b (entries_end_ buffered_shard)
          (state_of (sync 0 buffered_shard))
        = Ok (rows_before (settings_ buffered_shard) b
                (std_sort sort_func (rows_ buffered_shard)) mod 2 ^ 16)
             (state_of (sync 0 buffered_shard)))
  /\ (Z.of_nat (length (rows_ buffered_shard)) mod 2 ^ 16
      = Z.of_nat (length (rows_ buffered_shard))
      <-> Z.of_nat (length (rows_ buffered_shard)) <= 65535).
Proof.
  apply (sync_stores_16_bit_fields 0 buffered_shard
           (state_of (sync 0 buffered_shard))).
  - reflexivity.
  - unfold file_ok, is_mapped. repeat split; vm_compute; congruence.
  - vm_compute. congruence.
  - split; vm_compute; congruence.
  - vm_compute. reflexivity.
Defined.

(** ** Entries as they lie in the file *)

Lemma skipn_length_app {A} (l1 l2 : list A) : skipn (length l1) (l1 ++ l2) = l2.
Proof.
  rewrite skipn_app, skipn_all, Nat.sub_diag. reflexivity.
Qed.

Lemma firstn_length_app {A} (l1 l2 : list A) : firstn (length l1) (l1 ++ l2) = l1.
Proof.
  rewrite firstn_app, firstn_all, Nat.sub_diag, firstn_O. apply app_nil_r.
Qed.

Lemma read_bytes_app pos n1 n2 d b1 b2 :
  read_bytes pos n1 d = Some b1 ->
  read_bytes (pos + n1) n2 d = Some b2 ->
  read_bytes pos (n1 + n2) d = Some (b1 ++ b2).
Proof.
  intros H1 H2.
  pose proof (read_bytes_Some _ _ _ _ H1) as (B1 & N1 & L1).
  pose proof (read_bytes_Some _ _ _ _ H2) as (B2 & N2 & L2).
  destruct (Z.eq_dec n1 0) as [-> | Hn1].
  { destruct b1; [|simpl in L1; lia]. simpl.
    now rewrite Z.add_0_r in H2. }
  destruct (Z.eq_dec n2 0) as [-> | Hn2].
  { destruct b2; [|simpl in L2; lia]. now rewrite app_nil_r, Z.add_0_r. }
  apply in_bounds_true in B1, B2.
  destruct B1 as [B1|B1]; [lia|]. destruct B2 as [B2|B2]; [lia|].
  apply read_bytes_eq. split; [|split].
  - apply in_bounds_true. right. lia.
  - rewrite length_app. lia.
  - intros j Hj. rewrite length_app in Hj.
    destruct (Nat.lt_ge_cases j (length b1)) as [Hlt | Hge].
    + rewrite app_nth1 by lia. now apply nth_read_bytes with (n := n1).
    + rewrite app_nth2 by lia.
      rewrite (nth_read_bytes _ _ _ _ _ H2) by lia. f_equal. lia.
Qed.

(** The bytes of one entry inside the bytes of all entries. *)
Lemma entry_window base d (pre : list (list byte)) img post :
  read_bytes base (Z.of_nat (length (concat (pre ++ img :: post)))) d
  = Some (concat (pre ++ img :: post)) ->
  read_bytes (base + Z.of_nat (length (concat pre)))
             (Z.of_nat (length img)) d
  = Some img.
Proof.
  intros H.
  rewrite (read_bytes_sub _ _ _ _ (Z.of_nat (length (concat pre)))
             (Z.of_nat (length img)) H).
  - f_equal. rewrite concat_app. cbn [concat].
    rewrite !Nat2Z.id, skipn_length_app. apply firstn_length_app.
  - lia.
  - lia.
  - rewrite concat_app. cbn [concat]. rewrite !length_app. lia.
Qed.

(** An entry whose 16-bit fields say what it holds: row count [n],
    one start index per bucket, none beyond [n], and [n] rows. *)
Definition image_ok (s : hdb_shard_settings) (img : list byte) : Prop :=
  exists n vals rest,
    img = to_little_endian 2 n ++ fields_bytes vals ++ rest
    /\ 0 <= n <= 65535
    /\ Z.of_nat (length vals) = number_buckets s
    /\ (forall c, 0 <= c < number_buckets s ->
          0 <= nth (Z.to_nat c) vals 0 <= n)
    /\ Z.of_nat (length rest) = row_size_of s * n.

(** The started shard holds the entries [imgs], one per height from 0,
    back to back after the index region, each height pointing at its
    entry. *)
Definition shard_inv (st : hdb_shard) (imgs : list (list byte)) : Prop :=
  settings_ok (settings_ st) = true
  /\ file_ok st
  /\ Z.of_nat (length imgs) <= shard_max_entries (settings_ st)
  /\ entries_end_ st
     = initial_entries_end (settings_ st)
       + Z.of_nat (length (concat imgs))
  /\ entries_end_ st <= Z.of_nat (length (mem st))
  /\ read_bytes (initial_entries_end (settings_ st))
                (Z.of_nat (length (concat imgs))) (mem st)
     = Some (concat imgs)
  /\ (forall i, (i < length imgs)%nat ->
        read_bytes (8 + 8 * Z.of_nat i) 8 (mem st)
        = Some (to_little_endian 8
                  (initial_entries_end (settings_ st)
                   + Z.of_nat (length (concat (firstn i imgs))))))
  /\ Forall (image_ok (settings_ st)) imgs.

Lemma length_image_ok s img :
  image_ok s img ->
  exists n, 0 <= n <= 65535
            /\ Z.of_nat (length img) = header_size_of s + row_size_of s * n
            /\ from_little_endian (firstn 2 img) = n.
Proof.
  intros (n & vals & rest & -> & Hn & Hv & _ & Hr).
  exists n. split; [exact Hn|]. split.
  - rewrite !length_app, length_to_little_endian, !Nat2Z.inj_add,
      length_fields_bytes. unfold header_size_of. lia.
  - rewrite <- (length_to_little_endian 2 n) at 1.
    rewrite firstn_length_app, from_little_endian_2.
    apply Z.mod_small. lia.
Qed.

Lemma entry_image_ok s rows img :
  settings_ok s = true ->
  Z.of_nat (length rows) <= 65535 ->
  entry_image s rows = Some img ->
  image_ok s img.
Proof.
  intros Hs Hn H. unfold entry_image in H.
  destruct (bucket_fields s rows) as [vals|] eqn:Hvals; [|discriminate].
  destruct (forallb (row_ok s) rows) eqn:Hrows; [|discriminate].
  cbn [andb] in H.
  destruct (Z.of_nat (length vals) =? number_buckets s); [|discriminate].
  apply bucket_fields_spec in Hvals as [Hnv Hnth]; [|assumption].
  exists (Z.of_nat (length rows)), vals, (rows_image rows).
  split; [congruence|]. split; [lia|]. split; [exact Hnv|]. split.
  - intros c Hc. rewrite Hnth by assumption.
    assert (0 <= rows_before s c rows <= Z.of_nat (length rows)).
    { unfold rows_before. split; [lia|].
      apply inj_le. apply filter_length_le. }
    rewrite wrap16_small by lia. lia.
  - now apply length_rows_image.
Qed.

Lemma shard_inv_sync st imgs st' :
  shard_inv st imgs ->
  Z.of_nat (length (rows_ st)) <= 65535 ->
  Z.of_nat (length imgs) < shard_max_entries (settings_ st) ->
  sync (Z.of_nat (length imgs)) st = Ok tt st' ->
  exists img, shard_inv st' (imgs ++ [img]) /\ rows_ st' = []
              /\ settings_ st' = settings_ st.
Proof.
  intros (Hs & Hf & Hcount & Hend & Hfit & Hwin & Hheights & Hok) Hn Hh H.
  pose proof Hs as Hs'. apply settings_ok_true in Hs'.
  pose proof (initial_entries_end_ok _ Hs) as Hinit.
  apply sync_reads in H
    as (img & Himg & Hlen & Hend' & Hrows' & Hset & _ & Hf' & Hfit'
          & Hwin' & _ & Hslot & Hkeep);
    try assumption; try lia.
  exists img. split; [|split; [exact Hrows' | exact Hset]].
  unfold shard_inv. rewrite Hset.
  assert (Hcat : concat (imgs ++ [img]) = concat imgs ++ img).
  { rewrite concat_app. cbn [concat]. now rewrite app_nil_r. }
  split; [exact Hs|]. split; [exact Hf'|].
  split; [rewrite length_app; cbn [length]; lia|].
  split; [rewrite Hcat, length_app; lia|].
  split; [exact Hfit'|].
  split.
  { rewrite Hcat, length_app, Nat2Z.inj_add.
    apply read_bytes_app.
    - rewrite Hkeep; [exact Hwin| lia | lia | lia |].
      apply read_bytes_Some in Hwin. apply Hwin.
    - rewrite <- Hend. exact Hwin'. }
  split.
  { intros i Hi. rewrite length_app in Hi. cbn [length] in Hi.
    destruct (Nat.eq_dec i (length imgs)) as [-> | Hne].
    - rewrite Hslot. rewrite firstn_app, firstn_all, Nat.sub_diag, firstn_O,
        app_nil_r. now rewrite Hend.
    - rewrite Hkeep; [| lia | lia | lia |].
      + rewrite Hheights by lia.
        rewrite firstn_app.
        replace (i - length imgs)%nat with 0%nat by lia.
        now rewrite firstn_O, app_nil_r.
      + assert (Hi' : (i < length imgs)%nat) by lia.
        apply Hheights in Hi'. apply read_bytes_Some in Hi'. apply Hi'. }
  apply Forall_app. split; [exact Hok|]. constructor; [|constructor].
  apply entry_image_ok with (rows := std_sort sort_func (rows_ st));
    [assumption | now rewrite length_std_sort | exact Himg].
Qed.

Lemma load_bytes_inv pos n st bs st' :
  load_bytes pos n st = Ok bs st' ->
  st' = st /\ is_mapped st /\ read_bytes pos n (mem st) = Some bs.
Proof.
  unfold load_bytes, Mmfile.data, is_mapped, mem.
  destruct (Mmfile.data_ (file_ st)) as [d|]; [|discriminate].
  destruct (read_bytes pos n d); [|discriminate].
  intros [= <- <-]. repeat split. discriminate.
Qed.

Lemma write_zero_entries_Ok count serial st serial' st' :
  is_mapped st ->
  write_zero_entries serial count st = Ok serial' st' ->
  exists zeros,
    wrote serial zeros st st'
    /\ Z.of_nat (length zeros) = 8 * Z.of_nat count.
Proof.
  revert serial st; induction count as [|c IH]; intros serial st Hm H.
  - simpl in H. exec_inv. subst. exists [].
    split; [now apply wrote_nil | reflexivity].
  - cbn [write_zero_entries] in H. exec_inv.
    match goal with
    | E : serial_write_8_bytes _ _ _ = Ok _ _ |- _ =>
        apply serial_write_8_bytes_Ok in E as [Hw ->]
    end.
    apply IH in H as (zeros & Hw' & Hl); [|eapply wrote_mapped; eassumption].
    exists (to_little_endian 8 0 ++ zeros). split.
    + eapply wrote_app; [exact Hw|].
      now rewrite length_to_little_endian.
    + rewrite length_app, length_to_little_endian. lia.
Qed.

Lemma initialize_start_inv st0 st :
  settings_ok (settings_ st0) = true ->
  file_ok st0 ->
  (initialize_new ;; start) st0 = Ok tt st ->
  shard_inv st [] /\ rows_ st = rows_ st0 /\ settings_ st = settings_ st0.
Proof.
  intros Hs Hf H. unfold initialize_new, start, read_8_bytes in H.
  exec_inv. subst.
  match goal with
  | Hf' : file_ok ?s |- _ => rename s into s0
  end.
  pose proof Hs as Hs'. apply settings_ok_true in Hs'.
  pose proof (initial_entries_end_ok _ Hs) as Hinit.
  match goal with
  | E : file_resize _ _ = Ok true _ |- _ =>
      apply file_resize_Ok in E as [Hn ->]; [|assumption]
  end.
  fold (initial_entries_end (settings_ s0)) in *.
  rewrite Hinit in *.
  set (total := 8 + 8 * shard_max_entries (settings_ s0)) in *.
  set (st1 := add_log [Resized total] _) in *.
  assert (Hl1 : Z.of_nat (length (mem st1)) = total).
  { unfold st1, mem. simpl_state. apply Mmfile.length_remapped.
    unfold total. lia. }
  assert (Hf1 : file_ok st1).
  { unfold file_ok. rewrite Hl1. repeat split; [|lia].
    unfold is_mapped, st1. simpl_state. discriminate. }
  match goal with
  | E : serial_write_8_bytes 0 _ st1 = Ok _ ?s |- _ =>
      apply serial_write_8_bytes_Ok in E as [Hw1 ->]; rename s into st2
  end.
  pose proof (wrote_file_ok _ _ _ _ Hf1 Hw1) as Hf2.
  match goal with
  | E : write_zero_entries _ _ _ = Ok _ ?s |- _ =>
      apply write_zero_entries_Ok in E as (zeros & Hw2 & Hlz);
        [|apply Hf2]; rename s into st3
  end.
  pose proof (wrote_file_ok _ _ _ _ Hf2 Hw2) as Hf3.
  pose proof (wrote_fields _ _ _ _ Hw1) as (E1 & R1 & S1 & O1 & M1 & _).
  pose proof (wrote_fields _ _ _ _ Hw2) as (E2 & R2 & S2 & O2 & M2 & _).
  destruct Hw1 as [[_ B1] _], Hw2 as [[_ B2] _].
  match goal with
  | E : load_bytes 0 8 _ = Ok _ _ |- _ =>
      apply load_bytes_inv in E as (-> & _ & Hread)
  end.
  assert (L2 : length (mem st2) = length (mem st1))
    by (rewrite M1; now apply length_splice).
  assert (L3 : length (mem st3) = length (mem st2))
    by (rewrite M2; now apply length_splice).
  rewrite M2, read_splice_other in Hread by (try assumption; lia).
  rewrite M1 in Hread.
  pose proof (read_splice_same 0 _ _ B1) as Hsame.
  rewrite length_to_little_endian in Hsame. change (Z.of_nat 8) with 8 in *.
  rewrite Hsame in Hread.
  match type of Hread with
  | Some ?a = Some ?b => assert (Hb : b = a) by congruence; subst b
  end.
  rewrite (from_to_little_endian_small 8) in *
    by (change (256 ^ Z.of_nat 8) with (2 ^ 64); unfold total; lia).
  simpl_state.
  assert (Hset : settings_ st3 = settings_ s0) by (rewrite S2, S1; reflexivity).
  split.
  - unfold shard_inv. simpl_state. rewrite Hset, Hinit. fold total.
    split; [exact Hs|]. split; [exact Hf3|].
    split; [simpl; lia|]. split; [simpl; lia|].
    split; [change (mem (set_entries_end total st3)) with (mem st3);
            rewrite L3, L2; lia|].
    split; [reflexivity|].
    split; [intros i Hi; simpl in Hi; lia | constructor].
  - split; [rewrite R2, R1; reflexivity | exact Hset].
Qed.

(** ** Reading a shard that holds entries *)

Lemma split_at {A} i (l : list A) :
  (i < length l)%nat -> exists x post, l = firstn i l ++ x :: post.
Proof.
  intros Hi. destruct (skipn i l) as [|x post] eqn:E.
  - pose proof (length_skipn i l) as Hl. rewrite E in Hl. simpl in Hl. lia.
  - exists x, post. rewrite <- E. symmetry. apply firstn_skipn.
Qed.

Lemma entry_position_inv st imgs i :
  shard_inv st imgs -> (i < length imgs)%nat ->
  entry_position (Z.of_nat i) st
  = Ok (initial_entries_end (settings_ st)
        + Z.of_nat (length (concat (firstn i imgs)))) st.
Proof.
  intros (Hs & Hf & Hcount & Hend & Hfit & Hwin & Hheights & Hok) Hi.
  pose proof Hs as Hs'. apply settings_ok_true in Hs'.
  pose proof (initial_entries_end_ok _ Hs) as Hinit.
  unfold entry_position, read_8_bytes.
  rewrite (wrap32_small (Z.of_nat i)) by lia.
  rewrite (wrap32_small (8 + 8 * Z.of_nat i)) by lia.
  erewrite bind_eval
    by (apply load_bytes_Ok; [apply Hf | now apply Hheights]).
  unfold ret. f_equal.
  apply (from_to_little_endian_small 8).
  change (256 ^ Z.of_nat 8) with (2 ^ 64).
  destruct Hf as (_ & _ & Hl).
  assert (length (concat (firstn i imgs)) <= length (concat imgs))%nat.
  { rewrite <- (firstn_skipn i imgs) at 2. rewrite concat_app, length_app.
    lia. }
  lia.
Qed.

Lemma calc_entry_size_inv st pre img post :
  shard_inv st (pre ++ img :: post) ->
  calc_entry_size (initial_entries_end (settings_ st)
                   + Z.of_nat (length (concat pre))) st
  = Ok (Z.of_nat (length img)) st.
Proof.
  intros (Hs & Hf & Hcount & Hend & Hfit & Hwin & Hheights & Hok).
  pose proof Hs as Hs'. apply settings_ok_true in Hs'.
  pose proof (scan_bytes_bounds _ Hs) as Hsb.
  pose proof (number_buckets_bounds _ Hs) as Hnb.
  apply entry_window in Hwin.
  apply Forall_app in Hok as [_ Hok]. inversion Hok as [|? ? Himg _]; subst.
  destruct (length_image_ok _ _ Himg) as (n & Hn & Hlen & Hcount_field).
  unfold calc_entry_size, read_2_bytes.
  rewrite bind_assoc.
  replace (initial_entries_end (settings_ st) + Z.of_nat (length (concat pre)))
    with (initial_entries_end (settings_ st)
          + Z.of_nat (length (concat pre)) + 0) at 1 by lia.
  assert (Hlen2 : 2 <= Z.of_nat (length img)).
  { rewrite Hlen. unfold header_size_of, row_size_of.
    assert (0 <= (scan_bytes (settings_ st) + row_value_size (settings_ st)) * n)
      by (apply Z.mul_nonneg_nonneg; lia).
    lia. }
  erewrite bind_eval
    by (apply (load_window _ img 0 2); [apply Hf | exact Hwin | lia..]).
  change (Z.to_nat 0) with 0%nat. change (Z.to_nat 2) with 2%nat.
  cbn [skipn].
  erewrite bind_eval by reflexivity.
  erewrite bind_eval by reflexivity.
  erewrite bind_eval by (now apply scan_size_ok).
  unfold ret. f_equal. rewrite Hcount_field, Hlen.
  unfold header_size_of, row_size_of.
  assert (0 <= (scan_bytes (settings_ st) + row_value_size (settings_ st)) * n
          <= (2 ^ 32 + 2 ^ 32) * 65535).
  { split; [apply Z.mul_nonneg_nonneg; lia|].
    apply Z.mul_le_mono_nonneg; lia. }
  rewrite (wrap64_small (scan_bytes (settings_ st)
                         + row_value_size (settings_ st))) by lia.
  apply wrap64_small. lia.
Qed.

Lemma serial_write_8_bytes_eval pos v st :
  can_store pos (to_little_endian 8 v) st ->
  serial_write_8_bytes pos v st
  = Ok (pos + 8) (put_bytes pos (to_little_endian 8 v) st).
Proof.
  intros Hc. unfold serial_write_8_bytes.
  assert (H : store_bytes pos (to_little_endian 8 v) st
              = Ok tt (put_bytes pos (to_little_endian 8 v) st))
    by (apply store_bytes_Ok; split; [exact Hc | reflexivity]).
  now rewrite (bind_eval _ _ _ _ _ H).
Qed.

Lemma concat_firstn_le {A} i (l : list (list A)) :
  (length (concat (firstn i l)) <= length (concat l))%nat.
Proof.
  rewrite <- (firstn_skipn i l) at 2. rewrite concat_app, length_app. lia.
Qed.

Lemma shard_inv_unlink st imgs h :
  shard_inv st imgs ->
  0 < h <= Z.of_nat (length imgs) ->
  exists st',
    unlink h st = Ok tt st'
    /\ shard_inv st' (firstn (Z.to_nat h) imgs)
    /\ rows_ st' = rows_ st
    /\ settings_ st' = settings_ st.
Proof.
  intros Hinv Hh.
  pose proof Hinv as (Hs & Hf & Hcount & Hend & Hfit & Hwin & Hheights & Hok).
  pose proof Hs as Hs'. apply settings_ok_true in Hs'.
  pose proof (initial_entries_end_ok _ Hs) as Hinit.
  destruct (split_at (Z.to_nat (h - 1)) imgs) as (img & post & Hsplit);
    [lia|].
  set (pre := firstn (Z.to_nat (h - 1)) imgs) in *.
  assert (Hpre : length pre = Z.to_nat (h - 1))
    by (unfold pre; rewrite length_firstn; lia).
  assert (Hfirst : firstn (Z.to_nat h) imgs = pre ++ [img]).
  { rewrite Hsplit. replace (Z.to_nat h) with (length pre + 1)%nat by lia.
    rewrite firstn_app_2. reflexivity. }
  assert (Hcat : concat (pre ++ [img]) = concat pre ++ img).
  { rewrite concat_app. cbn [concat]. now rewrite app_nil_r. }
  pose proof (concat_firstn_le (Z.to_nat h) imgs) as Hle.
  rewrite Hfirst, Hcat, length_app in Hle.
  destruct Hf as (Hm & Hsz & Hl).
  set (e' := initial_entries_end (settings_ st)
             + Z.of_nat (length (concat pre)) + Z.of_nat (length img)).
  assert (Hstore : can_store 0 (to_little_endian 8 e')
                     (set_entries_end e' st)).
  { split; [exact Hm|]. apply in_bounds_true. right.
    rewrite length_to_little_endian.
    change (mem (set_entries_end e' st)) with (mem st). lia. }
  exists (put_bytes 0 (to_little_endian 8 e') (set_entries_end e' st)).
  split; [|split].
  - unfold unlink.
    erewrite bind_eval
      by (unfold BITCOIN_ASSERT;
          replace (0 <? h) with true by (symmetry; apply Z.ltb_lt; lia);
          reflexivity).
    rewrite (wrap64_small (h - 1)) by lia.
    replace (h - 1) with (Z.of_nat (Z.to_nat (h - 1))) by lia.
    erewrite bind_eval by (apply entry_position_inv; [exact Hinv | lia]).
    fold pre.
    erewrite bind_eval
      by (apply calc_entry_size_inv with (post := post);
          rewrite <- Hsplit; exact Hinv).
    rewrite wrap64_small by lia.
    erewrite bind_eval by reflexivity.
    erewrite bind_eval by reflexivity.
    fold e'. cbn [entries_end_ set_entries_end].
    erewrite bind_eval
      by (apply serial_write_8_bytes_eval; exact Hstore).
    reflexivity.
  - rewrite Hfirst. unfold shard_inv.
    change (settings_ (put_bytes _ _ _)) with (settings_ st).
    change (entries_end_ (put_bytes _ _ _)) with e'.
    rewrite mem_put_bytes.
    change (mem (set_entries_end e' st)) with (mem st).
    destruct Hstore as [_ Hb].
    change (mem (set_entries_end e' st)) with (mem st) in Hb.
    split; [exact Hs|]. split.
    { apply put_bytes_file_ok; [|split; assumption].
      repeat split; assumption. }
    split; [rewrite length_app; cbn [length]; lia|].
    split; [rewrite Hcat, length_app; unfold e'; lia|].
    split; [rewrite length_splice by assumption; unfold e'; lia|].
    split.
    { rewrite read_splice_other
        by (try assumption; rewrite length_to_little_endian; lia).
      replace (initial_entries_end (settings_ st))
        with (initial_entries_end (settings_ st) + 0) at 1 by lia.
      rewrite Hcat.
      rewrite (read_bytes_sub _ _ _ _ 0 _ Hwin)
        by (rewrite ?length_app; lia).
      f_equal. change (Z.to_nat 0) with 0%nat. cbn [skipn].
      rewrite Nat2Z.id.
      replace (concat imgs) with ((concat pre ++ img) ++ concat post).
      - apply firstn_length_app.
      - rewrite Hsplit, concat_app. cbn [concat].
        now rewrite <- app_assoc. }
    split.
    { intros i Hi. rewrite length_app in Hi. cbn [length] in Hi.
      rewrite read_splice_other
        by (try assumption; rewrite length_to_little_endian; lia).
      rewrite Hheights by lia.
      rewrite <- Hfirst, firstn_firstn.
      now replace (Nat.min i (Z.to_nat h)) with i by lia. }
    rewrite <- Hfirst. now apply Forall_firstn.
  - split; reflexivity.
Qed.

(** ** What scan finds in an entry *)

(** The values [scan] delivers from the rows that start at the bytes
    [rows_bytes], [count] rows before the end of the entry. *)
Fixpoint scan_image_rows (s : hdb_shard_settings) (key : address_bitset)
    (rows_bytes : list byte) (count : nat) : list (list byte) :=
  match count with
  | O => []
  | S c =>
      if prefix_matches key (firstn (Z.to_nat (num_blocks key)) rows_bytes)
      then firstn (Z.to_nat (row_value_size s))
                  (skipn (Z.to_nat (scan_bytes s)) rows_bytes)
             :: scan_image_rows s key
                  (skipn (Z.to_nat (row_size_of s)) rows_bytes) c
      else []
  end.

(** The values [scan] delivers from the entry whose bytes are [img]. *)
Definition scan_image (s : hdb_shard_settings) (key : address_bitset)
    (bucket_index : Z) (img : list byte) : list (list byte) :=
  let n := from_little_endian (firstn 2 img) in
  let row_index :=
    from_little_endian
      (firstn 2 (skipn (Z.to_nat (2 + 2 * bucket_index)) img)) in
  scan_image_rows s key
    (skipn (Z.to_nat (header_size_of s + row_size_of s * row_index)) img)
    (Z.to_nat (n - row_index)).

Lemma num_blocks_le_scan_bytes s key :
  settings_ok s = true ->
  Z.of_nat (length key) <= scan_bits s ->
  0 <= num_blocks key <= scan_bytes s.
Proof.
  intros Hs Hk. unfold num_blocks, scan_bytes. split.
  - apply Z.div_pos; lia.
  - replace (scan_bits s - 1) with (scan_bits s + 7 + (-1) * 8) by lia.
    rewrite Z.div_add by lia.
    assert ((Z.of_nat (length key) + 7) / 8 <= (scan_bits s + 7) / 8)
      by (apply Z.div_le_mono; lia).
    lia.
Qed.

Lemma scan_rows_inv s key img e st n count :
  settings_ok s = true ->
  is_mapped st ->
  Z.of_nat (length key) <= scan_bits s ->
  read_bytes e (Z.of_nat (length img)) (mem st) = Some img ->
  Z.of_nat (length img) = header_size_of s + row_size_of s * n ->
  forall fuel i,
    0 <= i -> Z.of_nat count = n - i -> (count < fuel)%nat ->
    scan_rows fuel key s (row_size_of s)
      (e + header_size_of s + row_size_of s * i)
      (e + Z.of_nat (length img)) st
    = Ok (scan_image_rows s key
            (skipn (Z.to_nat (header_size_of s + row_size_of s * i)) img)
            count) st.
Proof.
  intros Hs Hm Hk Hwin Hlen.
  pose proof Hs as Hs'. apply settings_ok_true in Hs'.
  pose proof (scan_bytes_bounds _ Hs) as Hsb.
  pose proof (number_buckets_bounds _ Hs) as Hnb.
  pose proof (num_blocks_le_scan_bytes _ _ Hs Hk) as Hkb.
  assert (Hrs : 1 <= row_size_of s) by (unfold row_size_of; lia).
  assert (Hhdr : 4 <= header_size_of s) by (unfold header_size_of; lia).
  induction count as [|c IH]; intros fuel i Hi Hcount Hfuel.
  - destruct fuel as [|fuel]; [lia|]. cbn [scan_rows scan_image_rows].
    replace (e + header_size_of s + row_size_of s * i =?
             e + Z.of_nat (length img)) with true; [reflexivity|].
    symmetry. apply Z.eqb_eq. rewrite Hlen.
    replace i with n by lia. lia.
  - destruct fuel as [|fuel]; [lia|]. cbn [scan_rows scan_image_rows].
    assert (Hin : row_size_of s * i + row_size_of s <= row_size_of s * n).
    { replace (row_size_of s * i + row_size_of s)
        with (row_size_of s * (i + 1)) by lia.
      apply Z.mul_le_mono_nonneg_l; lia. }
    assert (Hi0 : 0 <= row_size_of s * i)
      by (apply Z.mul_nonneg_nonneg; lia).
    replace (e + header_size_of s + row_size_of s * i =?
             e + Z.of_nat (length img)) with false
      by (symmetry; apply Z.eqb_neq; lia).
    unfold stealth_match. rewrite bind_assoc.
    replace (e + header_size_of s + row_size_of s * i)
      with (e + (header_size_of s + row_size_of s * i)) by lia.
    erewrite bind_eval
      by (apply (load_window e img); [exact Hm | exact Hwin
            | lia | lia | unfold row_size_of in *; lia]).
    erewrite bind_eval by reflexivity.
    destruct (prefix_matches key _); cbn [negb]; [|reflexivity].
    erewrite bind_eval by (now apply scan_size_ok).
    replace (e + (header_size_of s + row_size_of s * i) + scan_bytes s)
      with (e + (header_size_of s + row_size_of s * i + scan_bytes s))
      by lia.
    erewrite bind_eval
      by (apply (load_window e img); [exact Hm | exact Hwin
            | lia | lia | unfold row_size_of in *; lia]).
    replace (e + (header_size_of s + row_size_of s * i) + row_size_of s)
      with (e + header_size_of s + row_size_of s * (i + 1)) by lia.
    erewrite bind_eval by (apply IH; lia).
    unfold ret. f_equal. f_equal.
    + f_equal. rewrite skipn_skipn. f_equal. lia.
    + f_equal. rewrite skipn_skipn. f_equal. lia.
Qed.

Lemma which_bucket_eval s key st :
  settings_ok s = true ->
  exists b, which_bucket key (bucket_bitsize s) st = Ok b st
            /\ 0 <= b < number_buckets s.
Proof.
  intros Hs. pose proof Hs as Hs'. apply settings_ok_true in Hs'.
  exists (bucket_of s {| scan_key := key; value := [] |}). split.
  - unfold which_bucket.
    erewrite bind_eval
      by (unfold BITCOIN_ASSERT;
          replace (bucket_bitsize s <=? 32) with true
            by (symmetry; apply Z.leb_le; lia);
          reflexivity).
    reflexivity.
  - now apply bucket_of_bounds.
Qed.

Lemma image_row_index s img b :
  image_ok s img -> 0 <= b < number_buckets s ->
  0 <= from_little_endian
         (firstn 2 (skipn (Z.to_nat (2 + 2 * b)) img))
    <= from_little_endian (firstn 2 img)
  /\ 0 <= from_little_endian (firstn 2 img) <= 65535.
Proof.
  intros Himg Hb.
  destruct Himg as (n & vals & rest & -> & Hn & Hv & Hnth & Hr).
  assert (Hcount : from_little_endian
                     (firstn 2 (to_little_endian 2 n
                                  ++ fields_bytes vals ++ rest)) = n).
  { rewrite <- (length_to_little_endian 2 n) at 1.
    rewrite firstn_length_app, from_little_endian_2.
    apply Z.mod_small. lia. }
  rewrite Hcount. split; [|exact Hn].
  replace (Z.to_nat (2 + 2 * b)) with (2 * Z.to_nat b + 2)%nat by lia.
  rewrite <- skipn_skipn.
  replace (skipn 2 (to_little_endian 2 n ++ fields_bytes vals ++ rest))
    with (fields_bytes vals ++ rest) by reflexivity.
  rewrite fields_bytes_field by lia.
  rewrite from_little_endian_2.
  specialize (Hnth b Hb). rewrite Z.mod_small by lia. exact Hnth.
Qed.

Lemma scan_entries_inv key bucket_index st rest :
  forall pre fuel inner,
    shard_inv st (pre ++ rest) ->
    Z.of_nat (length key) <= scan_bits (settings_ st) ->
    0 <= bucket_index < number_buckets (settings_ st) ->
    (length rest < fuel)%nat -> 65535 < Z.of_nat inner ->
    scan_entries fuel inner key bucket_index
      (initial_entries_end (settings_ st)
       + Z.of_nat (length (concat pre))) st
    = Ok (flat_map (scan_image (settings_ st) key bucket_index) rest) st.
Proof.
  induction rest as [|img rest IH]; intros pre fuel inner Hinv Hk Hb Hfuel Hinner.
  - destruct fuel as [|fuel]; [simpl in Hfuel; lia|].
    cbn [scan_entries flat_map].
    erewrite bind_eval by reflexivity.
    destruct Hinv as (_ & _ & _ & Hend & _).
    rewrite app_nil_r in Hend. rewrite Hend, Z.eqb_refl. reflexivity.
  - destruct fuel as [|fuel]; [simpl in Hfuel; lia|].
    cbn [scan_entries flat_map].
    pose proof Hinv
      as (Hs & Hf & Hcount & Hend & Hfit & Hwin & Hheights & Hok).
    pose proof Hs as Hs'. apply settings_ok_true in Hs'.
    pose proof (scan_bytes_bounds _ Hs) as Hsb.
    pose proof (number_buckets_bounds _ Hs) as Hnb.
    pose proof (initial_entries_end_ok _ Hs) as Hinit.
    assert (Himg : image_ok (settings_ st) img).
    { apply Forall_app in Hok as [_ Hok]. now inversion Hok. }
    destruct (length_image_ok _ _ Himg) as (n & Hn & Hlen & Hcnt).
    destruct (image_row_index _ _ _ Himg Hb) as [Hidx _].
    rewrite Hcnt in Hidx.
    assert (Hprod : 0 <= row_size_of (settings_ st) * n)
      by (apply Z.mul_nonneg_nonneg; unfold row_size_of; lia).
    assert (Hcat : Z.of_nat (length (concat (pre ++ img :: rest)))
                   = Z.of_nat (length (concat pre))
                     + Z.of_nat (length img)
                     + Z.of_nat (length (concat rest))).
    { rewrite concat_app. cbn [concat]. rewrite !length_app. lia. }
    pose proof (entry_window _ _ _ _ _ Hwin) as Hwimg.
    erewrite bind_eval by reflexivity.
    replace (_ =? entries_end_ st) with false.
    2:{ symmetry. apply Z.eqb_neq. rewrite Hend, Hcat.
        unfold header_size_of in Hlen. lia. }
    erewrite bind_eval by (apply (calc_entry_size_inv st pre img rest Hinv)).
    unfold read_row_index, read_2_bytes.
    rewrite (wrap32_small (2 + 2 * bucket_index)) by lia.
    rewrite bind_assoc.
    erewrite bind_eval
      by (apply (load_window _ img); [apply Hf | exact Hwimg | lia | lia
            | unfold header_size_of in Hlen; lia]).
    erewrite bind_eval by reflexivity.
    erewrite bind_eval by reflexivity.
    erewrite bind_eval by (now apply scan_size_ok).
    rewrite (wrap64_small (scan_bytes (settings_ st)
                           + row_value_size (settings_ st))) by lia.
    fold (row_size_of (settings_ st)).
    change (Z.to_nat 2) with 2%nat.
    set (idx := from_little_endian
                  (firstn 2 (skipn (Z.to_nat (2 + 2 * bucket_index)) img)))
      in *.
    replace (initial_entries_end (settings_ st)
             + Z.of_nat (length (concat pre)) + 2
             + 2 * number_buckets (settings_ st)
             + row_size_of (settings_ st) * idx)
      with (initial_entries_end (settings_ st)
            + Z.of_nat (length (concat pre))
            + header_size_of (settings_ st)
            + row_size_of (settings_ st) * idx)
      by (unfold header_size_of; lia).
    erewrite bind_eval
      by (apply scan_rows_inv with (n := n) (count := Z.to_nat (n - idx));
          [exact Hs | apply Hf | exact Hk | exact Hwimg | exact Hlen
          | lia | lia | lia]).
    destruct Hf as (Hm & Hsz & Hl).
    rewrite Hend, Hcat in Hfit.
    rewrite wrap64_small by lia.
    replace (initial_entries_end (settings_ st)
             + Z.of_nat (length (concat pre)) + Z.of_nat (length img))
      with (initial_entries_end (settings_ st)
            + Z.of_nat (length (concat (pre ++ [img])))).
    2:{ rewrite concat_app. cbn [concat].
        rewrite app_nil_r, length_app. lia. }
    erewrite bind_eval.
    2:{ apply IH; try assumption; [|simpl in Hfuel; lia].
        now rewrite <- app_assoc. }
    unfold ret. f_equal. f_equal.
    unfold scan_image. fold idx. now rewrite Hcnt.
Qed.

Lemma scan_inv key st imgs fuel :
  shard_inv st imgs -> imgs <> [] ->
  Z.of_nat (length key) <= scan_bits (settings_ st) ->
  65536 + Z.of_nat (length imgs) <= Z.of_nat fuel ->
  exists b,
    which_bucket key (bucket_bitsize (settings_ st)) st = Ok b st
    /\ scan key 0 fuel st
       = Ok (flat_map (scan_image (settings_ st) key b) imgs) st.
Proof.
  intros Hinv Hne Hk Hfuel.
  pose proof Hinv as (Hs & _).
  destruct (which_bucket_eval _ key st Hs) as (b & Hwb & Hb).
  exists b. split; [exact Hwb|].
  unfold scan.
  erewrite bind_eval by reflexivity.
  erewrite bind_eval by (now apply scan_bitsize_ok).
  erewrite bind_eval
    by (unfold BITCOIN_ASSERT;
        replace (_ <=? _) with true by (symmetry; apply Z.leb_le; lia);
        reflexivity).
  change 0 with (Z.of_nat 0) at 1.
  erewrite bind_eval
    by (apply entry_position_inv with (imgs := imgs);
        [exact Hinv | destruct imgs; [congruence | simpl; lia]]).
  erewrite bind_eval by exact Hwb.
  cbn [firstn].
  apply (scan_entries_inv key b st imgs []); try assumption; lia.
Qed.

(** ** Heights synced one after the other *)

(** [add] each row of the batch for height [h], [sync(h)], and so on
    for the batches of the heights that follow. *)
Fixpoint sync_heights (h : Z) (batches : list (list entry_row))
  : shard_op unit :=
  match batches with
  | [] => ret tt
  | rows :: rest =>
      add_rows rows ;; sync h ;; sync_heights (h + 1) rest
  end.

Lemma add_rows_Ok rows st st' :
  add_rows rows st = Ok tt st' ->
  st' = set_rows (rows_ st ++ rows) st.
Proof.
  revert st; induction rows as [|r rows IH]; intros st H.
  - simpl in H. exec_inv. subst. rewrite app_nil_r.
    now destruct st'.
  - cbn [add_rows] in H. unfold add in H. exec_inv. subst.
    apply IH in H. subst st'. simpl_state.
    unfold set_rows. simpl_state. rewrite <- app_assoc.
    destruct r. reflexivity.
Qed.

Lemma shard_inv_set_rows r st imgs :
  shard_inv st imgs -> shard_inv (set_rows r st) imgs.
Proof. intros H. exact H. Qed.

Lemma sync_heights_app b1 b2 h st :
  sync_heights h (b1 ++ b2) st
  = (sync_heights h b1 ;; sync_heights (h + Z.of_nat (length b1)) b2) st.
Proof.
  revert h st; induction b1 as [|rows b1 IH]; intros h st.
  - simpl. unfold bind, ret. now rewrite Z.add_0_r.
  - cbn [app sync_heights]. unfold bind.
    destruct (add_rows rows st) as [[] s1|e s1]; [|reflexivity].
    destruct (sync h s1) as [[] s2|e s2]; [|reflexivity].
    rewrite IH. unfold bind. cbn [length].
    replace (h + 1 + Z.of_nat (length b1))
      with (h + Z.of_nat (S (length b1))) by lia.
    reflexivity.
Qed.

Lemma sync_heights_inv batches :
  forall st imgs st',
    shard_inv st imgs -> rows_ st = [] ->
    Forall (fun rows => Z.of_nat (length rows) <= 65535) batches ->
    Z.of_nat (length imgs) + Z.of_nat (length batches)
      <= shard_max_entries (settings_ st) ->
    sync_heights (Z.of_nat (length imgs)) batches st = Ok tt st' ->
    exists imgs',
      length imgs' = length batches
      /\ shard_inv st' (imgs ++ imgs')
      /\ rows_ st' = []
      /\ settings_ st' = settings_ st.
Proof.
  induction batches as [|rows rest IH]; intros st imgs st' Hinv Hr Hall Hmax H.
  - simpl in H. exec_inv. subst. exists [].
    rewrite app_nil_r. auto.
  - cbn [sync_heights] in H. exec_inv.
    repeat match goal with u : unit |- _ => destruct u end.
    match goal with
    | E : add_rows _ _ = Ok tt _ |- _ => apply add_rows_Ok in E; subst
    end.
    rewrite Hr in *. cbn [app length] in *.
    inversion Hall as [|? ? Hrows Hrest]; subst.
    match goal with
    | E : sync _ _ = Ok tt ?s |- _ =>
        apply shard_inv_sync in E as (img & Hinv' & Hr' & Hs');
          [| apply shard_inv_set_rows; exact Hinv
           | simpl_state; exact Hrows
           | simpl_state; lia ];
        rename s into st1
    end.
    simpl_state.
    replace (Z.of_nat (length imgs) + 1)
      with (Z.of_nat (length (imgs ++ [img]))) in H
      by (rewrite length_app; cbn [length]; lia).
    apply IH in H as (imgs' & Hl & Hinv'' & Hr'' & Hs''); try assumption.
    + exists (img :: imgs'). split; [simpl; lia|].
      split; [now rewrite <- app_assoc in Hinv''|].
      split; [assumption | congruence].
    + rewrite Hs', length_app. cbn [length]. lia.
Qed.

Lemma which_bucket_value key bits st b st' :
  which_bucket key bits st = Ok b st' ->
  b = to_ulong_reverse (resize_bits key bits).
Proof. unfold which_bucket. intros H. exec_inv. congruence. Qed.

(** X1 (what holds of C6, within the limit the entry format sets): on
    a shard initialized
    and started, whose heights [0 .. n] were synced one after the other
    within [shard_max_entries], each with at most 65535 rows, [unlink(h)]
    for [0 < h <= n + 1] succeeds, sets [entries_end] to what it was
    after the sync of height [h - 1], and a [scan] from height 0 then
    delivers exactly what it delivers on the shard on which only the
    heights below [h] were ever added and synced. *)
Theorem unlink_truncates_scan (st0 stA : hdb_shard)
    (batches : list (list entry_row)) (h : Z) (key : address_bitset)
    (fuel : nat) :
  settings_ok (settings_ st0) = true ->
  file_ok st0 ->
  rows_ st0 = [] ->
  Z.of_nat (length batches) <= shard_max_entries (settings_ st0) ->
  Forall (fun rows => Z.of_nat (length rows) <= 65535) batches ->
  0 < h <= Z.of_nat (length batches) ->
  Z.of_nat (length key) <= scan_bits (settings_ st0) ->
  65536 + Z.of_nat (length batches) <= Z.of_nat fuel ->
  (initialize_new ;; start ;; sync_heights 0 batches) st0 = Ok tt stA ->
  exists stB stA' out,
    (initialize_new ;; start ;;
     sync_heights 0 (firstn (Z.to_nat h) batches)) st0 = Ok tt stB
    /\ unlink h stA = Ok tt stA'
    /\ entries_end_ stA' = entries_end_ stB
    /\ scan key 0 fuel stA' = Ok out stA'
    /\ scan key 0 fuel stB = Ok out stB.
Proof.
  intros Hs Hf Hr Hmax Hall Hh Hk Hfuel H.
  apply bind_Ok in H as ([] & s1 & Hinit & H).
  apply bind_Ok in H as ([] & s2 & Hstart & H).
  assert (Hboot : (initialize_new ;; start) st0 = Ok tt s2)
    by (apply bind_Ok; exists tt, s1; auto).
  apply initialize_start_inv in Hboot as (Hinv0 & Hr0 & Hs0);
    try assumption.
  rewrite <- (firstn_skipn (Z.to_nat h) batches) in H.
  rewrite sync_heights_app in H.
  apply bind_Ok in H as ([] & stB & HB & H).
  set (b1 := firstn (Z.to_nat h) batches) in *.
  set (b2 := skipn (Z.to_nat h) batches) in *.
  assert (Hl1 : Z.of_nat (length b1) = h)
    by (unfold b1; rewrite length_firstn; lia).
  assert (Hl2 : Z.of_nat (length b1) + Z.of_nat (length b2)
                = Z.of_nat (length batches)).
  { unfold b1, b2. rewrite <- Nat2Z.inj_add, <- length_app.
    now rewrite firstn_skipn. }
  assert (Hall1 : Forall (fun rows => Z.of_nat (length rows) <= 65535) b1)
    by (apply Forall_firstn; exact Hall).
  assert (Hall2 : Forall (fun rows => Z.of_nat (length rows) <= 65535) b2).
  { rewrite <- (firstn_skipn (Z.to_nat h) batches) in Hall.
    now apply Forall_app in Hall as [_ Hall]. }
  pose proof HB as HB'.
  apply (sync_heights_inv b1 s2 [] stB) in HB'
    as (imgs1 & Hlen1 & HinvB & HrB & HsB);
    [| exact Hinv0 | congruence | exact Hall1
     | rewrite Hs0; simpl; lia ].
  cbn [app] in HinvB.
  replace (0 + Z.of_nat (length b1)) with (Z.of_nat (length imgs1)) in H
    by lia.
  apply (sync_heights_inv b2 stB imgs1 stA) in H
    as (imgs2 & Hlen2 & HinvA & HrA & HsA);
    [| exact HinvB | exact HrB | exact Hall2
     | rewrite HsB, Hs0; lia ].
  destruct (shard_inv_unlink stA (imgs1 ++ imgs2) h HinvA)
    as (stA' & Hunlink & HinvA' & _ & HsA');
    [rewrite length_app; lia|].
  replace (firstn (Z.to_nat h) (imgs1 ++ imgs2)) with imgs1 in HinvA'.
  2:{ replace (Z.to_nat h) with (length imgs1) by lia.
      now rewrite firstn_length_app. }
  assert (Hne : imgs1 <> []) by (destruct imgs1; [simpl in *; lia | congruence]).
  assert (HsetA : settings_ stA' = settings_ st0) by congruence.
  assert (HsetB : settings_ stB = settings_ st0) by congruence.
  destruct (scan_inv key stA' imgs1 fuel HinvA' Hne) as (bA & HwA & HscanA);
    [rewrite HsetA; exact Hk | lia |].
  destruct (scan_inv key stB imgs1 fuel HinvB Hne) as (bB & HwB & HscanB);
    [rewrite HsetB; exact Hk | lia |].
  apply which_bucket_value in HwA, HwB.
  rewrite HsetA in HwA, HscanA. rewrite HsetB in HwB, HscanB.
  exists stB, stA'. eexists.
  split.
  { apply bind_Ok. exists tt, s1. split; [exact Hinit|].
    apply bind_Ok. exists tt, s2. split; [exact Hstart | exact HB]. }
  split; [exact Hunlink|].
  split.
  { destruct HinvA' as (_ & _ & _ & EA & _).
    destruct HinvB as (_ & _ & _ & EB & _). congruence. }
  split; [exact HscanA|].
  rewrite HscanB. now rewrite HwA, HwB.
Qed.

(** ** sync succeeds when the entry fits *)

Lemma wrote_split pos b1 b2 st :
  can_store pos (b1 ++ b2) st ->
  can_store pos b1 st
  /\ can_store (pos + Z.of_nat (length b1)) b2 (put_bytes pos b1 st)
  /\ put_bytes (pos + Z.of_nat (length b1)) b2 (put_bytes pos b1 st)
     = put_bytes pos (b1 ++ b2) st.
Proof.
  intros [Hm Hb].
  assert (H1 : can_store pos b1 st).
  { split; [exact Hm|]. apply in_bounds_true. apply in_bounds_true in Hb.
    rewrite length_app in Hb. lia. }
  assert (H2 : can_store (pos + Z.of_nat (length b1)) b2
                 (put_bytes pos b1 st)).
  { split; [apply put_bytes_mapped|].
    rewrite mem_put_bytes. apply in_bounds_true.
    rewrite length_splice by apply H1.
    apply in_bounds_true in Hb. rewrite length_app in Hb.
    destruct b1; [|cbn [length] in *; lia].
    destruct b2; cbn [length] in *; [left; lia | lia]. }
  split; [exact H1|]. split; [exact H2|].
  assert (Hw : wrote pos (b1 ++ b2) st
                 (put_bytes (pos + Z.of_nat (length b1)) b2
                    (put_bytes pos b1 st))).
  { eapply wrote_app; split; try reflexivity; assumption. }
  apply Hw.
Qed.

Lemma store_bytes_eval pos bs st :
  can_store pos bs st -> store_bytes pos bs st = Ok tt (put_bytes pos bs st).
Proof. intros H. apply store_bytes_Ok. split; [exact H | reflexivity]. Qed.

Lemma serial_write_2_bytes_eval pos v st :
  can_store pos (to_little_endian 2 v) st ->
  serial_write_2_bytes pos v st
  = Ok (pos + 2) (put_bytes pos (to_little_endian 2 v) st).
Proof.
  intros Hc. unfold serial_write_2_bytes.
  now rewrite (bind_eval _ _ _ _ _ (store_bytes_eval _ _ _ Hc)).
Qed.

Lemma serial_write_data_eval pos data st :
  can_store pos data st ->
  serial_write_data pos data st
  = Ok (pos + Z.of_nat (length data)) (put_bytes pos data st).
Proof.
  intros Hc. unfold serial_write_data.
  now rewrite (bind_eval _ _ _ _ _ (store_bytes_eval _ _ _ Hc)).
Qed.

Lemma fields_bytes_cons v vals :
  fields_bytes (v :: vals) = to_little_endian 2 v ++ fields_bytes vals.
Proof. reflexivity. Qed.

Lemma write_2_bytes_loop_eval rounds serial v st :
  can_store serial (fields_bytes (repeat v rounds)) st ->
  write_2_bytes_loop serial v rounds st
  = Ok (serial + 2 * Z.of_nat rounds)
       (put_bytes serial (fields_bytes (repeat v rounds)) st).
Proof.
  revert serial st; induction rounds as [|r IH]; intros serial st Hc.
  - simpl. unfold ret. rewrite put_bytes_nil by apply Hc.
    f_equal. lia.
  - cbn [write_2_bytes_loop repeat] in *.
    rewrite fields_bytes_cons in *.
    apply wrote_split in Hc as (H1 & H2 & Heq).
    rewrite length_to_little_endian in H2, Heq.
    change (Z.of_nat 2) with 2 in *.
    rewrite (bind_eval _ _ _ _ _ (serial_write_2_bytes_eval _ _ _ H1)).
    rewrite IH by exact H2. rewrite Heq. f_equal. lia.
Qed.

Lemma write_buckets_loop_eval s rows :
  forall serial i b st vals b',
    bucket_fields_loop s i b rows = Some (vals, b') ->
    can_store serial (fields_bytes vals) st ->
    write_buckets_loop s serial i b rows st
    = Ok (serial + 2 * Z.of_nat (length vals), b')
         (put_bytes serial (fields_bytes vals) st).
Proof.
  induction rows as [|row rest IH]; intros serial i b st vals b' Hf Hc.
  - simpl in Hf. injection Hf as <- <-. simpl. unfold ret.
    rewrite put_bytes_nil by apply Hc. f_equal. f_equal. lia.
  - cbn [bucket_fields_loop] in Hf.
    destruct ((bucket_bitsize s <=? 32)
              && (b <=? wrap32 (bucket_of s row + 1))) eqn:E;
      [|discriminate].
    apply andb_true_iff in E as [E1 E2].
    destruct (bucket_fields_loop s (i + 1) (wrap32 (bucket_of s row + 1)) rest)
      as [[vals' b1]|] eqn:Hrec; [|discriminate].
    injection Hf as <- <-.
    rewrite fields_bytes_app in Hc.
    apply wrote_split in Hc as (H1 & H2 & Heq).
    rewrite length_fields_bytes, repeat_length in H2, Heq.
    cbn [write_buckets_loop]. unfold which_bucket.
    rewrite bind_assoc.
    erewrite bind_eval by (unfold BITCOIN_ASSERT; rewrite E1; reflexivity).
    erewrite bind_eval by reflexivity.
    fold (bucket_of s row).
    erewrite bind_eval by (unfold BITCOIN_ASSERT; rewrite E2; reflexivity).
    unfold write_2_bytes.
    erewrite bind_eval by (apply write_2_bytes_loop_eval; exact H1).
    rewrite (IH _ _ _ _ _ _ Hrec H2).
    rewrite fields_bytes_app, Heq. f_equal. f_equal.
    rewrite length_app, repeat_length. lia.
Qed.

Lemma write_buckets_eval s rows serial st vals :
  bucket_fields s rows = Some vals ->
  can_store serial (fields_bytes vals) st ->
  write_buckets serial rows s st
  = Ok (serial + 2 * Z.of_nat (length vals))
       (put_bytes serial (fields_bytes vals) st).
Proof.
  intros Hf Hc. unfold bucket_fields in Hf.
  destruct (bucket_fields_loop s 0 0 rows) as [[vals0 b1]|] eqn:Hloop;
    [|discriminate].
  destruct (b1 <? wrap32 (number_buckets s)) eqn:E; [|discriminate].
  injection Hf as <-.
  rewrite fields_bytes_app in Hc.
  apply wrote_split in Hc as (H1 & H2 & Heq).
  rewrite length_fields_bytes in H2, Heq.
  unfold write_buckets.
  erewrite bind_eval by (apply write_buckets_loop_eval; eassumption).
  cbn [fst snd].
  erewrite bind_eval by (unfold BITCOIN_ASSERT; rewrite E; reflexivity).
  unfold write_2_bytes.
  rewrite write_2_bytes_loop_eval by exact H2.
  rewrite fields_bytes_app, Heq. f_equal.
  rewrite length_app, repeat_length. lia.
Qed.

Lemma write_rows_loop_eval s rows :
  forall serial st,
    forallb (row_ok s) rows = true ->
    can_store serial (rows_image rows) st ->
    write_rows_loop s (scan_bytes s) serial rows st
    = Ok (serial + Z.of_nat (length (rows_image rows)))
         (put_bytes serial (rows_image rows) st).
Proof.
  induction rows as [|row rest IH]; intros serial st Hok Hc.
  - simpl. unfold ret. rewrite put_bytes_nil by apply Hc. f_equal. lia.
  - cbn [forallb] in Hok. apply andb_true_iff in Hok as [Hrow Hrest].
    unfold row_ok in Hrow. apply andb_true_iff in Hrow as [Hk Hv].
    cbn [rows_image flat_map] in *. fold (rows_image rest) in *.
    unfold row_image in *. rewrite <- app_assoc in Hc.
    apply wrote_split in Hc as (H1 & H2 & Heq1).
    apply wrote_split in H2 as (H2 & H3 & Heq2).
    cbn [write_rows_loop].
    erewrite bind_eval by (unfold BITCOIN_ASSERT; rewrite Hk; reflexivity).
    erewrite bind_eval by (apply serial_write_data_eval; exact H1).
    erewrite bind_eval by (unfold BITCOIN_ASSERT; rewrite Hv; reflexivity).
    erewrite bind_eval by (apply serial_write_data_eval; exact H2).
    rewrite (IH _ _ Hrest H3).
    rewrite Heq2, Heq1, <- app_assoc. f_equal.
    rewrite !length_app. lia.
Qed.

Lemma assert_eval {S} (b : bool) (s : S) :
  b = true -> BITCOIN_ASSERT b s = Ok tt s.
Proof. intros ->. reflexivity. Qed.

Lemma sync_eval h st st1 img :
  settings_ok (settings_ st) = true ->
  file_ok st ->
  entry_image (settings_ st) (std_sort sort_func (rows_ st)) = Some img ->
  reserve (Z.of_nat (length img))
          (set_rows (std_sort sort_func (rows_ st)) st) = Ok tt st1 ->
  can_store (entries_end_ st) img st1 ->
  0 <= h -> 16 + 8 * h <= Z.of_nat (length (mem st1)) ->
  sync h st
  = Ok tt
      (put_bytes 0
         (to_little_endian 8 (entries_end_ st + Z.of_nat (length img)))
         (put_bytes (8 + 8 * h) (to_little_endian 8 (entries_end_ st))
            (set_entries_end (entries_end_ st + Z.of_nat (length img))
               (set_rows [] (put_bytes (entries_end_ st) img st1))))).
Proof.
  intros Hs Hf Himg Hres Hc Hh Hslot.
  pose proof Hs as Hs'. apply settings_ok_true in Hs'.
  pose proof (scan_bytes_bounds _ Hs) as Hsb.
  pose proof (number_buckets_bounds _ Hs) as Hnb.
  set (rows := std_sort sort_func (rows_ st)) in *.
  set (s := settings_ st) in *.
  set (pos := entries_end_ st) in *.
  pose proof Hres as Hg. apply reserve_Ok in Hg; [|exact Hf].
  pose proof (grown_file_ok (set_rows rows st) _ Hf Hg) as Hf1.
  pose proof (grown_fields _ _ Hg) as (Eg & Rg & Sg & Og & _).
  simpl_state. fold s in Sg. fold pos in Eg.
  unfold entry_image in Himg.
  destruct (bucket_fields s rows) as [vals|] eqn:Hvals; [|discriminate].
  destruct (forallb (row_ok s) rows) eqn:Hrows; [|discriminate].
  cbn [andb] in Himg.
  destruct (Z.of_nat (length vals) =? number_buckets s) eqn:Hnv;
    [|discriminate].
  apply Z.eqb_eq in Hnv.
  assert (Eimg : img = to_little_endian 2 (Z.of_nat (length rows))
                         ++ fields_bytes vals ++ rows_image rows)
    by congruence.
  clear Himg.
  pose proof (length_rows_image s rows Hrows) as Hlr.
  pose proof (length_fields_bytes vals) as Hlf.
  assert (Hprod : 0 <= row_size_of s * Z.of_nat (length rows))
    by (apply Z.mul_nonneg_nonneg; unfold row_size_of; lia).
  assert (Hlen : Z.of_nat (length img)
                 = 2 + 2 * number_buckets s
                   + row_size_of s * Z.of_nat (length rows)).
  { rewrite Eimg, !length_app, length_to_little_endian, !Nat2Z.inj_add.
    lia. }
  assert (Hb : 0 <= pos /\ pos + Z.of_nat (length img) < 2 ^ 63).
  { destruct Hc as [_ Hb]. apply in_bounds_true in Hb.
    destruct Hf1 as (_ & _ & Hl). lia. }
  pose proof Hc as Hc0. rewrite Eimg in Hc.
  apply wrote_split in Hc as (C1 & C2 & Q1).
  apply wrote_split in C2 as (C2 & C3 & Q2).
  rewrite length_to_little_endian in *. change (Z.of_nat 2) with 2 in *.
  rewrite Hlf in *.
  unfold row_size_of in Hlen, Hprod, Hlr.
  unfold sync, sort_rows, link, write_rows.
  erewrite bind_eval by reflexivity.
  erewrite bind_eval by reflexivity.
  erewrite bind_eval by reflexivity.
  erewrite bind_eval by (now apply scan_size_ok).
  simpl_state. fold rows s.
  rewrite (wrap64_small (2 + 2 * number_buckets s)) by lia.
  rewrite (wrap64_small (scan_bytes s + row_value_size s)) by lia.
  rewrite (wrap64_small (2 + 2 * number_buckets s + _)) by lia.
  rewrite <- Hlen.
  erewrite bind_eval by exact Hres.
  erewrite bind_eval by reflexivity.
  rewrite Eg.
  assert (Ew : to_little_endian 2 (Z.of_nat (length rows))
               = to_little_endian 2 (wrap16 (Z.of_nat (length rows))))
    by (symmetry; apply (to_little_endian_mod 2)).
  rewrite Ew in C1, C2, C3, Q1, Q2.
  erewrite bind_eval by (apply serial_write_2_bytes_eval; exact C1).
  erewrite bind_eval by (apply write_buckets_eval; [exact Hvals | exact C2]).
  erewrite bind_eval
    by (apply assert_eval; apply Z.eqb_eq;
        rewrite wrap64_small by lia; lia).
  rewrite bind_assoc.
  erewrite bind_eval by (now apply scan_size_ok).
  erewrite bind_eval by (apply write_rows_loop_eval; [exact Hrows | exact C3]).
  rewrite Q2, Q1, <- Ew, <- Eimg.
  erewrite bind_eval by reflexivity.
  erewrite bind_eval by reflexivity.
  erewrite bind_eval by reflexivity.
  simpl_state. rewrite Eg.
  rewrite (wrap64_small (pos + _)) by lia.
  erewrite bind_eval
    by (apply assert_eval; apply Z.eqb_eq; rewrite Hlr; lia).
  rewrite (wrap64_small (8 + 8 * h)).
  2:{ destruct Hf1 as (_ & _ & Hl). lia. }
  assert (Hmem : mem (put_bytes pos img st1) = splice pos img (mem st1))
    by reflexivity.
  assert (Hl2 : length (splice pos img (mem st1)) = length (mem st1))
    by (apply length_splice; apply Hc0).
  erewrite bind_eval.
  2:{ apply serial_write_8_bytes_eval.
      split; [unfold is_mapped; simpl; discriminate|].
      apply in_bounds_true. right. rewrite length_to_little_endian.
      change (mem (set_entries_end _ (set_rows [] (put_bytes pos img st1))))
        with (splice pos img (mem st1)).
      rewrite Hl2. lia. }
  erewrite bind_eval by reflexivity.
  change (entries_end_ (put_bytes (8 + 8 * h) (to_little_endian 8 pos)
           (set_entries_end (pos + Z.of_nat (length img))
              (set_rows [] (put_bytes pos img st1)))))
    with (pos + Z.of_nat (length img)).
  erewrite bind_eval.
  2:{ apply serial_write_8_bytes_eval.
      split; [unfold is_mapped; simpl; discriminate|].
      apply in_bounds_true. right. rewrite length_to_little_endian.
      rewrite mem_put_bytes, length_splice.
      - change (mem (set_entries_end _ (set_rows [] (put_bytes pos img st1))))
          with (splice pos img (mem st1)).
        rewrite Hl2. lia.
      - apply in_bounds_true. right. rewrite length_to_little_endian.
        change (mem (set_entries_end _ (set_rows [] (put_bytes pos img st1))))
          with (splice pos img (mem st1)).
        rewrite Hl2. lia. }
  reflexivity.
Qed.

(** ** unlink, on two synced heights *)

Definition two_batches : list (list entry_row) :=
  [ rows_S3_inner;
    [ {| scan_key := key_bits [0;1;1;0] 32; value := [120] |} ] ].

Definition synced_twice : hdb_shard :=
  state_of ((initialize_new ;; start ;; sync_heights 0 two_batches)
              (blank example_settings)).

Lemma unlink_truncates_scan_witness :
  exists stB stA' out,
    (initialize_new ;; start ;; sync_heights 0 (firstn 1 two_batches))
      (blank example_settings) = Ok tt stB
    /\ unlink 1 synced_twice = Ok tt stA'
    /\ entries_end_ stA' = entries_end_ stB
    /\ scan (key_bits [0;1] 2) 0 (Z.to_nat 65540) stA' = Ok out stA'
    /\ scan (key_bits [0;1] 2) 0 (Z.to_nat 65540) stB = Ok out stB.
Proof.
  apply (unlink_truncates_scan (blank example_settings) synced_twice
           two_batches 1 (key_bits [0;1] 2) (Z.to_nat 65540)).
  - reflexivity.
  - repeat split; vm_compute; try reflexivity; discriminate.
  - reflexivity.
  - vm_compute; discriminate.
  - repeat constructor; vm_compute; discriminate.
  - split; vm_compute; [reflexivity | discriminate].
  - vm_compute; discriminate.
  - vm_compute; discriminate.
  - vm_compute; reflexivity.
Defined.

(** ** start after sync *)

Lemma set_entries_end_same st : set_entries_end (entries_end_ st) st = st.
Proof. now destruct st. Qed.

(** X2: what [sync] publishes is what [start] loads.  After a successful
    [sync(height)] on a started shard, [start] (as run when the file is
    opened again) succeeds and leaves the shard as it is: the
    [entries_end] it reads from the first 8 bytes of the file is the one
    the shard holds in memory. *)
Theorem start_after_sync (h : Z) (st st' : hdb_shard) :
  settings_ok (settings_ st) = true ->
  file_ok st ->
  initial_entries_end (settings_ st) <= entries_end_ st ->
  0 <= h < shard_max_entries (settings_ st) ->
  sync h st = Ok tt st' ->
  start st' = Ok tt st'.
Proof.
  intros Hs Hf He Hh H.
  pose proof (initial_entries_end_ok _ Hs) as Hinit.
  apply settings_ok_true in Hs as Hs'.
  apply sync_reads in H
    as (img & _ & _ & Hend & _ & Hset & _ & Hf' & Hfit & _ & Hhead & _);
    try assumption.
  destruct Hf' as (Hm & Hsz & Hl).
  unfold start, read_8_bytes.
  rewrite bind_assoc.
  erewrite bind_eval by (apply load_bytes_Ok; [exact Hm | exact Hhead]).
  erewrite bind_eval by reflexivity.
  rewrite from_to_little_endian_small
    by (change (256 ^ Z.of_nat 8) with (2 ^ 64); lia).
  erewrite bind_eval by reflexivity.
  erewrite bind_eval by reflexivity.
  simpl_state. rewrite Hset, set_entries_end_same.
  apply assert_eval. apply Z.leb_le. lia.
Qed.

Lemma start_after_sync_witness :
  start (state_of (sync 0 buffered_shard))
  = Ok tt (state_of (sync 0 buffered_shard)).
Proof.
  apply (start_after_sync 0 buffered_shard).
  - reflexivity.
  - repeat split; vm_compute; try reflexivity; discriminate.
  - vm_compute; discriminate.
  - split; vm_compute; [discriminate | reflexivity].
  - vm_compute; reflexivity.
Defined.

(** ** The last bucket *)

(** X3: [sync] never stores a row of the last bucket.  Whenever
    [sync(height)] returns, every buffered row had a bucket index
    ([which_bucket] of its key) below [number_buckets - 1]: a row of the
    last bucket stops [write_buckets] at its final
    [BITCOIN_ASSERT(begin_bucket < end_bucket)]. *)
Theorem sync_rejects_last_bucket (h : Z) (st st' : hdb_shard) :
  settings_ok (settings_ st) = true ->
  file_ok st ->
  sync h st = Ok tt st' ->
  Forall (fun r => bucket_of (settings_ st) r
                   < number_buckets (settings_ st) - 1) (rows_ st).
Proof.
  intros Hs Hf H.
  pose proof (number_buckets_bounds _ Hs) as Hnb.
  apply sync_Ok in H as (_ & _ & _ & img & _ & Himg & _); try assumption.
  unfold entry_image in Himg.
  destruct (bucket_fields (settings_ st) (std_sort sort_func (rows_ st)))
    as [vals|] eqn:Hvals; [|discriminate].
  unfold bucket_fields in Hvals.
  destruct (bucket_fields_loop (settings_ st) 0 0
              (std_sort sort_func (rows_ st))) as [[vals0 b]|] eqn:Hloop;
    [|discriminate].
  rewrite (wrap32_small (number_buckets (settings_ st))) in Hvals by lia.
  destruct (b <? number_buckets (settings_ st)) eqn:Hb; [|discriminate].
  apply Z.ltb_lt in Hb.
  apply bucket_fields_loop_spec in Hloop as (_ & Hall & _); [|assumption|lia].
  eapply Permutation_Forall.
  - apply std_sort_perm.
  - eapply Forall_impl; [|exact Hall]. simpl. intros r Hr. lia.
Qed.

Lemma sync_rejects_last_bucket_witness :
  Forall (fun r => bucket_of example_settings r
                   < number_buckets example_settings - 1)
         (rows_ buffered_shard).
Proof.
  apply (sync_rejects_last_bucket 0 buffered_shard
           (state_of (sync 0 buffered_shard))).
  - reflexivity.
  - repeat split; vm_compute; try reflexivity; discriminate.
  - vm_compute; reflexivity.
Defined.

(** ** reserve *)

Lemma reserve_room space st st' :
  file_ok st ->
  0 <= entries_end_ st -> 0 <= space ->
  3 * (entries_end_ st + space) < 2 ^ 64 ->
  reserve space st = Ok tt st' ->
  entries_end_ st + space <= Mmfile.size (file_ st').
Proof.
  intros Hf He Hsp Hfit H.
  pose proof Hf as (Hm & Hsz & Hl).
  unfold reserve, file_size in H. exec_inv. subst.
  rewrite (wrap64_small (entries_end_ _ + space)) in * by lia.
  match goal with
  | H : (if ?c then _ else _) _ = _ |- _ => destruct c eqn:E
  end.
  - exec_inv. subst. apply Z.leb_le in E. exact E.
  - exec_inv. subst.
    match goal with
    | Hr : file_resize _ _ = Ok _ _ |- _ =>
        apply file_resize_Ok in Hr as [_ ->]; [|assumption]
    end.
    unfold Mmfile.size. simpl_state. cbn [Mmfile.size_].
    rewrite wrap64_small by lia.
    apply Z.div_le_lower_bound; lia.
Qed.

(** X4: [reserve] makes room and keeps what is there.  When
    [reserve(space_needed)] returns (and three times the required size
    fits 64 bits, so that [required_size * 3 / 2] does not wrap), the
    file has at least [entries_end + space_needed] bytes, is not shorter
    than before, holds its former bytes at their former offsets, and the
    shard's [entries_end], buffered rows and settings are untouched. *)
Theorem reserve_makes_room (space : Z) (st st' : hdb_shard) :
  file_ok st ->
  0 <= entries_end_ st -> 0 <= space ->
  3 * (entries_end_ st + space) < 2 ^ 64 ->
  reserve space st = Ok tt st' ->
  entries_end_ st + space <= Mmfile.size (file_ st')
  /\ Mmfile.size (file_ st) <= Mmfile.size (file_ st')
  /\ Mmfile.size (file_ st') = Z.of_nat (length (mem st'))
  /\ firstn (length (mem st)) (mem st') = mem st
  /\ entries_end_ st' = entries_end_ st
  /\ rows_ st' = rows_ st
  /\ settings_ st' = settings_ st.
Proof.
  intros Hf He Hsp Hfit H.
  pose proof Hf as (Hm & Hsz & Hl).
  pose proof H as Hg. apply reserve_Ok in Hg; [|exact Hf].
  pose proof (grown_file_ok _ _ Hf Hg) as (_ & Hsz' & _).
  pose proof (grown_fields _ _ Hg) as (E1 & E2 & E3 & _ & ext & Hext).
  pose proof (reserve_room _ _ _ Hf He Hsp Hfit H) as Hroom.
  split; [exact Hroom|].
  split.
  { unfold Mmfile.size. rewrite Hsz, Hsz', Hext, length_app. lia. }
  split; [exact Hsz'|].
  split.
  { rewrite Hext, firstn_app, Nat.sub_diag, firstn_all. cbn [firstn].
    now rewrite app_nil_r. }
  auto.
Qed.

Lemma reserve_makes_room_witness :
  entries_end_ buffered_shard + 100
    <= Mmfile.size (file_ (state_of (reserve 100 buffered_shard)))
  /\ firstn (length (mem buffered_shard))
            (mem (state_of (reserve 100 buffered_shard)))
     = mem buffered_shard.
Proof.
  destruct (reserve_makes_room 100 buffered_shard
              (state_of (reserve 100 buffered_shard)))
    as (H1 & _ & _ & H2 & _).
  - repeat split; vm_compute; try reflexivity; discriminate.
  - vm_compute; discriminate.
  - vm_compute; discriminate.
  - vm_compute; reflexivity.
  - vm_compute; reflexivity.
  - split; [exact H1 | exact H2].
Defined.

(** ** Buffered rows and scan *)

(** The outcome with the buffered rows of its state replaced. *)
Definition with_rows {A} (r : list entry_row) (o : outcome hdb_shard A)
  : outcome hdb_shard A :=
  match o with
  | Ok a s => Ok a (set_rows r s)
  | Abort e s => Abort e (set_rows r s)
  end.

(** An operation that neither reads nor writes the buffered rows. *)
Definition ignores_rows {A} (c : shard_op A) : Prop :=
  forall r st, c (set_rows r st) = with_rows r (c st).

Lemma ignores_rows_bind {A B} (c : shard_op A) (k : A -> shard_op B) :
  ignores_rows c -> (forall a, ignores_rows (k a)) ->
  ignores_rows (bind c k).
Proof.
  intros Hc Hk r st. unfold bind. rewrite Hc.
  destruct (c st) as [a s|e s]; simpl; [apply Hk | reflexivity].
Qed.

Lemma ignores_rows_ret {A} (a : A) : ignores_rows (ret a).
Proof. now intros r st. Qed.

Lemma ignores_rows_abort {A} e : ignores_rows (@abort hdb_shard A e).
Proof. now intros r st. Qed.

Lemma ignores_rows_assert b : ignores_rows (BITCOIN_ASSERT b).
Proof. intros r st. now destruct b. Qed.

Lemma ignores_rows_settings : ignores_rows (gets settings_).
Proof. now intros r st. Qed.

Lemma ignores_rows_entries_end : ignores_rows (gets entries_end_).
Proof. now intros r st. Qed.

Lemma ignores_rows_load pos n : ignores_rows (load_bytes pos n).
Proof.
  intros r st. unfold load_bytes. simpl_state.
  destruct (Mmfile.data (file_ st)) as [d|]; [|reflexivity].
  now destruct (read_bytes pos n d).
Qed.

Create HintDb frame.

#[local] Hint Resolve ignores_rows_ret ignores_rows_abort
  ignores_rows_assert ignores_rows_settings ignores_rows_entries_end
  ignores_rows_load : frame.

Ltac frame :=
  repeat first
    [ apply ignores_rows_bind; [|intros ?]
    | solve [auto with frame]
    | match goal with
      | |- ignores_rows (if ?b then _ else _) => destruct b
      end ].

Lemma ignores_rows_scan_bitsize s : ignores_rows (scan_bitsize s).
Proof. unfold scan_bitsize. frame. Qed.

#[local] Hint Resolve ignores_rows_scan_bitsize : frame.

Lemma ignores_rows_scan_size s : ignores_rows (scan_size s).
Proof. unfold scan_size. frame. Qed.

#[local] Hint Resolve ignores_rows_scan_size : frame.

Lemma ignores_rows_read_2_bytes pos : ignores_rows (read_2_bytes pos).
Proof. unfold read_2_bytes. frame. Qed.

Lemma ignores_rows_read_8_bytes pos : ignores_rows (read_8_bytes pos).
Proof. unfold read_8_bytes. frame. Qed.

#[local] Hint Resolve ignores_rows_read_2_bytes ignores_rows_read_8_bytes
  : frame.

Lemma ignores_rows_entry_position h : ignores_rows (entry_position h).
Proof. unfold entry_position. frame. Qed.

Lemma ignores_rows_calc_entry_size e : ignores_rows (calc_entry_size e).
Proof. unfold calc_entry_size. frame. Qed.

Lemma ignores_rows_which_bucket key b : ignores_rows (which_bucket key b).
Proof. unfold which_bucket. frame. Qed.

Lemma ignores_rows_read_row_index b e : ignores_rows (read_row_index b e).
Proof. unfold read_row_index. frame. Qed.

Lemma ignores_rows_stealth_match key row : ignores_rows (stealth_match key row).
Proof. unfold stealth_match. frame. Qed.

#[local] Hint Resolve ignores_rows_entry_position ignores_rows_calc_entry_size
  ignores_rows_which_bucket ignores_rows_read_row_index
  ignores_rows_stealth_match : frame.

Lemma ignores_rows_scan_rows fuel key s row_size :
  forall current_row entry_end,
    ignores_rows (scan_rows fuel key s row_size current_row entry_end).
Proof.
  induction fuel as [|fuel IH]; intros current_row entry_end;
    cbn [scan_rows]; frame.
  all: try apply IH.
Qed.

#[local] Hint Resolve ignores_rows_scan_rows : frame.

Lemma ignores_rows_scan_entries fuel inner key bucket_index :
  forall entry,
    ignores_rows (scan_entries fuel inner key bucket_index entry).
Proof.
  induction fuel as [|fuel IH]; intros entry; cbn [scan_entries]; frame.
  all: try apply IH.
Qed.

#[local] Hint Resolve ignores_rows_scan_entries : frame.

Lemma ignores_rows_scan key h fuel : ignores_rows (scan key h fuel).
Proof. unfold scan. frame. Qed.

(** X5: rows are invisible to [scan] until they are synced.  [add]ing
    any rows changes neither what [scan] hands to [read], in any order
    and from any height, nor whether and how it stops. *)
Theorem scan_ignores_buffered_rows (rows : list entry_row)
    (key : address_bitset) (h : Z) (fuel : nat) (st st' : hdb_shard) :
  add_rows rows st = Ok tt st' ->
  result_of (scan key h fuel st') = result_of (scan key h fuel st).
Proof.
  intros H. apply add_rows_Ok in H. subst st'.
  rewrite ignores_rows_scan. now destruct (scan key h fuel st).
Qed.

Lemma scan_ignores_buffered_rows_witness :
  result_of (scan (key_bits [0;1] 2) 0 16
               (state_of (add_rows rows_S3_inner synced_twice)))
  = result_of (scan (key_bits [0;1] 2) 0 16 synced_twice).
Proof.
  apply (scan_ignores_buffered_rows rows_S3_inner).
  vm_compute; reflexivity.
Defined.

(** ** Bucket indexes follow the sort order *)

(** The number whose binary digits, most significant first, are the
    bits in index order. *)
Fixpoint msb_value (bits : list bool) : Z :=
  match bits with
  | [] => 0
  | b :: rest => Z.b2z b * 2 ^ Z.of_nat (length rest) + msb_value rest
  end.

Lemma msb_value_bounds bits : 0 <= msb_value bits < 2 ^ Z.of_nat (length bits).
Proof.
  induction bits as [|b rest IH]; [simpl; lia|].
  cbn [msb_value length]. rewrite Nat2Z.inj_succ, Z.pow_succ_r by lia.
  destruct b; simpl Z.b2z; lia.
Qed.

Lemma msb_value_app bits b :
  msb_value (bits ++ [b]) = 2 * msb_value bits + Z.b2z b.
Proof.
  induction bits as [|c rest IH]; [simpl; lia|].
  cbn [app msb_value]. rewrite IH, length_app. cbn [length].
  rewrite Nat.add_1_r, Nat2Z.inj_succ, Z.pow_succ_r by lia. ring.
Qed.

Lemma to_ulong_reverse_loop_app bits b n :
  (n <= length bits)%nat ->
  to_ulong_reverse_loop (b :: bits) n = to_ulong_reverse_loop bits n.
Proof.
  induction n as [|n IH]; intros Hn; [reflexivity|].
  cbn [to_ulong_reverse_loop]. rewrite IH by lia.
  replace (length (b :: bits) - n - 1)%nat
    with (S (length bits - n - 1)) by (cbn [length]; lia).
  reflexivity.
Qed.

(** [to_ulong_reverse] reads the key with the bit of index 0 as the most
    significant one. *)
Lemma to_ulong_reverse_msb bits :
  (length bits <= 32)%nat -> to_ulong_reverse bits = msb_value bits.
Proof.
  unfold to_ulong_reverse. induction bits as [|b rest IH]; intros Hl;
    [reflexivity|].
  cbn [length] in *. cbn [to_ulong_reverse_loop msb_value].
  rewrite to_ulong_reverse_loop_app by lia. rewrite IH by lia.
  replace (length (b :: rest) - length rest - 1)%nat with 0%nat
    by (cbn [length]; lia).
  cbn [nth]. rewrite Z.shiftl_1_l.
  pose proof (msb_value_bounds rest) as Hb.
  assert (2 ^ Z.of_nat (length rest) <= 2 ^ 31)
    by (apply Z.pow_le_mono_r; lia).
  destruct b; simpl Z.b2z; [|lia].
  rewrite wrap32_small by lia. lia.
Qed.

Lemma reverse_less_than_refl a : reverse_less_than a a = true.
Proof.
  induction a as [|x a IH]; [reflexivity|].
  simpl. now rewrite Bool.eqb_reflx.
Qed.

Lemma reverse_less_than_firstn k a b :
  length a = length b ->
  reverse_less_than a b = true ->
  reverse_less_than (firstn k a) (firstn k b) = true.
Proof.
  revert a b; induction k as [|k IH]; intros [|x a] [|y b] Hl H;
    try discriminate; try reflexivity.
  cbn [firstn]. simpl in *. injection Hl as Hl.
  destruct (Bool.eqb x y); [now apply IH | exact H].
Qed.

Lemma reverse_less_than_app a b p :
  length a = length b ->
  reverse_less_than a b = true ->
  reverse_less_than (a ++ p) (b ++ p) = true.
Proof.
  revert b; induction a as [|x a IH]; intros [|y b] Hl H;
    try discriminate.
  - apply reverse_less_than_refl.
  - simpl in *. injection Hl as Hl.
    destruct (Bool.eqb x y); [now apply IH | exact H].
Qed.

Lemma reverse_less_than_msb_value a b :
  length a = length b ->
  reverse_less_than a b = true ->
  msb_value a <= msb_value b.
Proof.
  revert b; induction a as [|x a IH]; intros [|y b] Hl H;
    try discriminate.
  simpl in H. injection Hl as Hl. cbn [msb_value]. rewrite Hl.
  pose proof (msb_value_bounds a) as Ha.
  pose proof (msb_value_bounds b) as Hb. rewrite Hl in Ha.
  destruct x, y; simpl in H; simpl Z.b2z; try discriminate.
  - specialize (IH b Hl H). lia.
  - lia.
  - specialize (IH b Hl H). lia.
Qed.

(** Rows in the order of the comparator are in bucket order. *)
Lemma sort_func_bucket_of s a b :
  settings_ok s = true ->
  length (scan_key a) = length (scan_key b) ->
  sort_func a b = true ->
  bucket_of s a <= bucket_of s b.
Proof.
  intros Hs Hl H. apply settings_ok_true in Hs.
  unfold bucket_of, sort_func in *.
  assert (Hk : forall key,
            (length (resize_bits key (bucket_bitsize s)) <= 32)%nat).
  { intros key.
    pose proof (length_resize_bits key (bucket_bitsize s) ltac:(lia)). lia. }
  rewrite !to_ulong_reverse_msb by apply Hk.
  unfold resize_bits. rewrite Hl.
  apply reverse_less_than_msb_value.
  - rewrite !length_app, !length_firstn, !repeat_length. lia.
  - apply reverse_less_than_app.
    + rewrite !length_firstn. lia.
    + now apply reverse_less_than_firstn.
Qed.

Lemma bucket_fields_loop_sorted s n M rows :
  settings_ok s = true ->
  Forall (fun r => length (scan_key r) = n) rows ->
  Forall (fun r => bucket_of s r + 1 <= M) rows ->
  Sorted (fun a b => sort_func a b = true) rows ->
  forall i b,
    0 <= b <= M ->
    (forall r, hd_error rows = Some r -> b <= bucket_of s r + 1) ->
    exists vals b',
      bucket_fields_loop s i b rows = Some (vals, b') /\ b' <= M.
Proof.
  intros Hs Hlen HM Hsorted.
  pose proof (number_buckets_bounds s Hs) as Hnb.
  pose proof Hs as Hs'. apply settings_ok_true in Hs'.
  induction Hsorted as [|row rest Hrest IH Hhd]; intros i b Hb Hfirst.
  - exists [], b. split; [reflexivity | lia].
  - inversion Hlen as [|? ? Hrow Hlen']; subst.
    inversion HM as [|? ? HMrow HM']; subst.
    pose proof (bucket_of_bounds s row Hs) as Hk.
    specialize (Hfirst row eq_refl).
    cbn [bucket_fields_loop].
    rewrite (wrap32_small (bucket_of s row + 1)) by lia.
    replace (bucket_bitsize s <=? 32) with true
      by (symmetry; apply Z.leb_le; lia).
    replace (b <=? bucket_of s row + 1) with true
      by (symmetry; apply Z.leb_le; lia).
    cbn [andb].
    destruct (IH Hlen' HM' (i + 1) (bucket_of s row + 1)) as (vals & b' & E & Hb').
    + lia.
    + intros r Hr. destruct rest as [|r' rest']; [discriminate|].
      injection Hr as ->. inversion Hhd as [|? ? Hc]; subst.
      inversion Hlen' as [|? ? Hr' _]; subst.
      pose proof (sort_func_bucket_of s row r Hs ltac:(congruence) Hc). lia.
    + rewrite E. eauto.
Qed.

(** What [add] checks of a row. *)
Definition row_fits (s : hdb_shard_settings) (r : entry_row) : bool :=
  (Z.of_nat (length (value r)) =? row_value_size s)
  && (Z.of_nat (length (scan_key r))
      =? wrap64 (wrap64 (total_key_size s * 8) - sharded_bitsize s)).

Lemma add_eval r st :
  row_fits (settings_ st) r = true ->
  add (scan_key r) (value r) st = Ok tt (set_rows (rows_ st ++ [r]) st).
Proof.
  intros Hr. unfold row_fits in Hr. apply andb_true_iff in Hr as [Hv Hk].
  unfold add.
  erewrite bind_eval by reflexivity.
  erewrite bind_eval by (apply assert_eval; exact Hv).
  erewrite bind_eval by (apply assert_eval; exact Hk).
  destruct r. reflexivity.
Qed.

Lemma add_rows_eval rows :
  forall st,
    forallb (row_fits (settings_ st)) rows = true ->
    add_rows rows st = Ok tt (set_rows (rows_ st ++ rows) st).
Proof.
  induction rows as [|r rows IH]; intros st H.
  - simpl. rewrite app_nil_r. now destruct st.
  - cbn [forallb] in H. apply andb_true_iff in H as [Hr H].
    cbn [add_rows].
    erewrite bind_eval by (apply add_eval; exact Hr).
    rewrite IH by exact H.
    simpl_state. unfold set_rows. simpl_state. now rewrite <- app_assoc.
Qed.

Lemma row_fits_true s r :
  settings_ok s = true ->
  row_fits s r = true ->
  Z.of_nat (length (value r)) = row_value_size s
  /\ Z.of_nat (length (scan_key r)) = scan_bits s
  /\ row_ok s r = true.
Proof.
  intros Hs H. apply settings_ok_true in Hs.
  unfold row_fits in H. apply andb_true_iff in H as [Hv Hk].
  apply Z.eqb_eq in Hv, Hk.
  rewrite (wrap64_small (total_key_size s * 8)) in Hk by lia.
  rewrite wrap64_small in Hk by lia.
  fold (scan_bits s) in Hk.
  split; [exact Hv|]. split; [exact Hk|].
  unfold row_ok. apply andb_true_iff. split; apply Z.eqb_eq; [|exact Hv].
  unfold scan_bytes, num_blocks. rewrite Hk.
  replace (scan_bits s + 7) with (scan_bits s - 1 + 1 * 8) by lia.
  now rewrite Z.div_add by lia.
Qed.

(** The sorted rows of a buffer that [add] filled, none of them in the
    last bucket, make an entry. *)
Lemma entry_image_sorted s rows :
  settings_ok s = true ->
  forallb (row_fits s) rows = true ->
  Forall (fun r => bucket_of s r < number_buckets s - 1) rows ->
  exists img, entry_image s (std_sort sort_func rows) = Some img.
Proof.
  intros Hs Hfits Hlast.
  pose proof (number_buckets_bounds s Hs) as Hnb.
  set (sorted := std_sort sort_func rows).
  assert (Hp : Permutation rows sorted)
    by (apply Permutation_sym, std_sort_perm).
  assert (Hall : Forall (fun r => row_fits s r = true) sorted).
  { eapply Permutation_Forall; [exact Hp|].
    apply Forall_forall. now apply forallb_forall. }
  assert (Hlen : Forall (fun r => length (scan_key r)
                                  = Z.to_nat (scan_bits s)) sorted).
  { eapply Forall_impl; [|exact Hall]. simpl. intros r Hr.
    apply row_fits_true in Hr as (_ & Hk & _); [lia | exact Hs]. }
  assert (Hok : forallb (row_ok s) sorted = true).
  { apply forallb_forall. intros r Hr.
    rewrite Forall_forall in Hall.
    now apply (row_fits_true s r Hs (Hall r Hr)). }
  assert (HM : Forall (fun r => bucket_of s r + 1 <= number_buckets s - 1)
                      sorted).
  { eapply Permutation_Forall; [exact Hp|].
    eapply Forall_impl; [|exact Hlast]. simpl. intros; lia. }
  destruct (bucket_fields_loop_sorted s _ _ sorted Hs Hlen HM
              (std_sort_sorted sort_func
                 (fun a b => reverse_less_than_total _ _) rows)
              0 0) as (vals0 & b' & Hloop & Hb').
  { lia. }
  { intros r _. pose proof (bucket_of_bounds s r Hs). lia. }
  assert (Hvals : bucket_fields s sorted
                  = Some (vals0 ++ repeat (wrap16 (Z.of_nat (length sorted)))
                                          (Z.to_nat (number_buckets s - b')))).
  { unfold bucket_fields. rewrite Hloop.
    rewrite (wrap32_small (number_buckets s)) by lia.
    now replace (b' <? number_buckets s) with true
      by (symmetry; apply Z.ltb_lt; lia). }
  pose proof (bucket_fields_spec _ _ _ Hs Hvals) as [Hcount _].
  unfold entry_image. rewrite Hvals, Hok.
  replace (_ =? number_buckets s) with true
    by (symmetry; apply Z.eqb_eq; exact Hcount).
  cbn [andb]. eexists. reflexivity.
Qed.

(** [reserve] returns when the operating system grants the growth. *)
Lemma reserve_eval space st :
  file_ok st ->
  0 <= entries_end_ st -> 0 <= space ->
  3 * (entries_end_ st + space) < 2 ^ 64 ->
  (forall n, Mmfile.ftruncate_ok (os_ st) n = true
             /\ Mmfile.mremap_ok (os_ st) n = true) ->
  exists st1, reserve space st = Ok tt st1.
Proof.
  intros (Hm & Hsz & Hl) He Hsp Hfit Hos.
  unfold reserve, file_size.
  erewrite bind_eval by reflexivity.
  erewrite bind_eval by reflexivity.
  rewrite (wrap64_small (entries_end_ st + space)) by lia.
  destruct (entries_end_ st + space <=? Mmfile.size (file_ st)) eqn:E.
  - eexists. reflexivity.
  - apply Z.leb_gt in E. rewrite wrap64_small by lia.
    assert (entries_end_ st + space
            <= (entries_end_ st + space) * 3 / 2 < 2 ^ 63).
    { split; [apply Z.div_le_lower_bound; lia
             | apply Z.div_lt_upper_bound; lia]. }
    erewrite bind_eval by (apply assert_eval; apply Z.ltb_lt; lia).
    unfold bind, file_resize, Mmfile.resize, Mmfile.ftruncate.
    cbv beta zeta.
    destruct (Hos ((entries_end_ st + space) * 3 / 2)) as [-> ->].
    replace (_ <? 2 ^ 63) with true by (symmetry; apply Z.ltb_lt; lia).
    cbn [andb negb fst snd]. eexists. reflexivity.
Qed.

Lemma length_entry_image s rows img :
  entry_image s rows = Some img ->
  Z.of_nat (length img)
  = header_size_of s + row_size_of s * Z.of_nat (length rows).
Proof.
  unfold entry_image. intros H.
  destruct (bucket_fields s rows) as [vals|]; [|discriminate].
  destruct (forallb (row_ok s) rows) eqn:Hrows; [|discriminate].
  cbn [andb] in H.
  destruct (Z.of_nat (length vals) =? number_buckets s) eqn:Hnv;
    [|discriminate].
  apply Z.eqb_eq in Hnv.
  assert (E : img = to_little_endian 2 (Z.of_nat (length rows))
                      ++ fields_bytes vals ++ rows_image rows)
    by congruence.
  pose proof (length_rows_image s rows Hrows).
  pose proof (length_fields_bytes vals).
  rewrite E, !length_app, length_to_little_endian, !Nat2Z.inj_add.
  unfold header_size_of. lia.
Qed.

(** X6: when [sync] returns.  On a started shard whose file the
    operating system lets grow, with rows buffered by [add] (each with a
    value of [row_value_size] bytes and a key of [scan_bitsize] bits)
    whose keys are pairwise distinct, none of them in the last bucket,
    [sync(height)] for a height below [shard_max_entries] returns,
    however many rows there are; it moves [entries_end] past the new
    entry of [2 + 2 * number_buckets + row_size * rows] bytes and
    empties the buffer.  (With a key buffered twice the comparator of
    [sort_rows] is no strict weak ordering, and what [std::sort] then
    does is not defined.) *)
Theorem sync_succeeds (h : Z) (st : hdb_shard) :
  settings_ok (settings_ st) = true ->
  file_ok st ->
  initial_entries_end (settings_ st) <= entries_end_ st ->
  0 <= h < shard_max_entries (settings_ st) ->
  (forall n, Mmfile.ftruncate_ok (os_ st) n = true
             /\ Mmfile.mremap_ok (os_ st) n = true) ->
  forallb (row_fits (settings_ st)) (rows_ st) = true ->
  NoDup (map scan_key (rows_ st)) ->
  Forall (fun r => bucket_of (settings_ st) r
                   < number_buckets (settings_ st) - 1) (rows_ st) ->
  3 * (entries_end_ st + header_size_of (settings_ st)
       + row_size_of (settings_ st) * Z.of_nat (length (rows_ st))) < 2 ^ 64 ->
  exists st',
    sync h st = Ok tt st'
    /\ entries_end_ st'
       = entries_end_ st + header_size_of (settings_ st)
         + row_size_of (settings_ st) * Z.of_nat (length (rows_ st))
    /\ rows_ st' = [].
Proof.
  intros Hs Hf He Hh Hos Hfits _ Hlast Hroom.
  pose proof (initial_entries_end_ok _ Hs) as Hinit.
  pose proof Hs as Hs'. apply settings_ok_true in Hs'.
  pose proof (number_buckets_bounds _ Hs) as Hnb.
  pose proof (scan_bytes_bounds _ Hs) as Hsb.
  destruct (entry_image_sorted _ _ Hs Hfits Hlast) as (img & Himg).
  pose proof (length_entry_image _ _ _ Himg) as Hlen.
  rewrite length_std_sort in Hlen.
  assert (Hpos : 0 <= Z.of_nat (length img)) by lia.
  set (sorted := std_sort sort_func (rows_ st)) in *.
  assert (Hf0 : file_ok (set_rows sorted st)) by exact Hf.
  destruct (reserve_eval (Z.of_nat (length img)) (set_rows sorted st))
    as (st1 & Hres); try assumption.
  { simpl_state. lia. }
  { simpl_state. lia. }
  pose proof (reserve_room _ _ _ Hf0 ltac:(simpl_state; lia) Hpos
                ltac:(simpl_state; lia) Hres) as Hfit1.
  simpl_state.
  pose proof Hres as Hg. apply reserve_Ok in Hg; [|exact Hf0].
  pose proof (grown_file_ok _ _ Hf0 Hg) as (Hm1 & Hsz1 & _).
  eexists. split.
  - apply (sync_eval h st st1 img); try assumption.
    + split; [exact Hm1|]. apply in_bounds_true. right.
      unfold Mmfile.size in *. lia.
    + lia.
    + unfold Mmfile.size in *. unfold header_size_of in Hlen. lia.
  - simpl_state. split; [lia | reflexivity].
Qed.

Lemma sync_succeeds_witness :
  exists st',
    sync 0 buffered_shard = Ok tt st'
    /\ entries_end_ st'
       = entries_end_ buffered_shard + header_size_of example_settings
         + row_size_of example_settings
           * Z.of_nat (length (rows_ buffered_shard))
    /\ rows_ st' = [].
Proof.
  apply (sync_succeeds 0 buffered_shard).
  - reflexivity.
  - repeat split; vm_compute; try reflexivity; discriminate.
  - vm_compute; discriminate.
  - split; vm_compute; [discriminate | reflexivity].
  - intros n. split; reflexivity.
  - vm_compute; reflexivity.
  - vm_compute. repeat constructor; simpl; intuition discriminate.
  - repeat constructor.
  - vm_compute; reflexivity.
Defined.

End Shard.

(* ================================================================== *)
(** * The slab hash table (htdb_slab, htdb_slab_list_item) *)
(* ================================================================== *)

Module Slab.

Import Bytes Exec.
Local Open Scope exec_scope.

Section Table.

(** [std::tuple_size<HashType>::value]: a key is an array of this many
    bytes. *)
Variable hash_size : nat.

(** [remainder(key, divisor)] of the database's utility.hpp, which is
    not among the sources: some function of the key and the bucket
    count. *)
Variable remainder : list byte -> Z -> Z.

(** The table's two parts: the bucket array behind [header_] and the
    slab file behind [allocator_], with the position of its free end. *)
Record table := {
  header_ : list Z;
  slabs_ : list byte;
  end_ : Z
}.

Definition table_op := M table.

(** ** disk_array and slab_allocator *)

(** Modelled from the spec: [disk_array] is not among the sources.  "An
    empty bucket stores the all-ones sentinel." *)
Definition empty : Z := 2 ^ 64 - 1.

(** Modelled from the spec: the bucket array has a fixed number of
    slots, read and written by index. *)
Definition header_size : table_op Z :=
  gets (fun t => Z.of_nat (length (header_ t))).

Definition header_read (i : Z) : table_op Z :=
  fun t =>
    if (0 <=? i) && (i <? Z.of_nat (length (header_ t)))
    then Ok (nth (Z.to_nat i) (header_ t) 0) t
    else Abort access_violation t.

Definition header_write (i value : Z) : table_op unit :=
  fun t =>
    if (0 <=? i) && (i <? Z.of_nat (length (header_ t)))
    then Ok tt {| header_ := firstn (Z.to_nat i) (header_ t)
                               ++ value :: skipn (S (Z.to_nat i)) (header_ t);
                  slabs_ := slabs_ t;
                  end_ := end_ t |}
    else Abort access_violation t.

(** Modelled from the spec: [slab_allocator] is not among the sources.
    "Allocations append: reserve [n] bytes starting at [payload_end]";
    the file grows (with zeros) to hold them.  [get_slab(position)] is a
    pointer into the mapping, here the position itself. *)
Definition new_slab (size : Z) : table_op Z :=
  fun t =>
    let slab := end_ t in
    let new_end := wrap64 (slab + size) in
    Ok slab {| header_ := header_ t;
               slabs_ := slabs_ t
                           ++ repeat 0 (Z.to_nat new_end - length (slabs_ t));
               end_ := new_end |}.

Definition get_slab (position : Z) : Z := position.

Definition store_at (pos : Z) (bs : list byte) : table_op unit :=
  fun t =>
    match write_bytes pos bs (slabs_ t) with
    | Some d => Ok tt {| header_ := header_ t; slabs_ := d; end_ := end_ t |}
    | None => Abort access_violation t
    end.

Definition load_at (pos n : Z) : table_op (list byte) :=
  fun t =>
    match read_bytes pos n (slabs_ t) with
    | Some bs => Ok bs t
    | None => Abort access_violation t
    end.

(** ** htdb_slab_list_item *)

(** An item is its [raw_data_], a position in the slab file.  [create]
    is the member that htdb_slab.ipp calls [initialize_new]. *)
Definition value_begin : Z := Z.of_nat hash_size + 8.

Definition create (key : list byte) (value_size next : Z) : table_op Z :=
  let info_size := Z.of_nat (length key) + 8 in
  let slab_size := wrap64 (info_size + value_size) in
  slab <- new_slab slab_size ;;
  let raw_data_ := get_slab slab in
  store_at raw_data_ key ;;
  store_at (raw_data_ + Z.of_nat (length key)) (to_little_endian 8 next) ;;
  ret slab.

(** [std::equal] over the bytes of the key. *)
Fixpoint bytes_equal (a b : list byte) : bool :=
  match a, b with
  | [], [] => true
  | x :: a', y :: b' => (x =? y) && bytes_equal a' b'
  | _, _ => false
  end.

Definition compare (raw_data_ : Z) (key : list byte) : table_op bool :=
  key_data <- load_at raw_data_ (Z.of_nat (length key)) ;;
  ret (bytes_equal key key_data).

Definition data (raw_data_ : Z) : Z := raw_data_ + value_begin.

Definition raw_next_data (raw_data_ : Z) : Z :=
  raw_data_ + Z.of_nat hash_size.

Definition next_position (raw_data_ : Z) : table_op Z :=
  next_data <- load_at (raw_next_data raw_data_) 8 ;;
  ret (from_little_endian next_data).

Definition write_next_position (raw_data_ next : Z) : table_op unit :=
  store_at (raw_next_data raw_data_) (to_little_endian 8 next).

(** ** htdb_slab *)

Definition bucket_index (key : list byte) : table_op Z :=
  size <- header_size ;;
  let bucket := remainder key size in
  BITCOIN_ASSERT (bucket <? size) ;;
  ret bucket.

Definition read_bucket_value (key : list byte) : table_op Z :=
  i <- bucket_index key ;;
  header_read i.

Definition link (key : list byte) (begin : Z) : table_op unit :=
  i <- bucket_index key ;;
  header_write i begin.

(** [store]; [write] is handed the pointer [item.data()]. *)
Definition store (key : list byte) (value_size : Z)
    (write : Z -> table_op unit) : table_op unit :=
  old_begin <- read_bucket_value key ;;
  new_begin <- create key value_size old_begin ;;
  write (data (get_slab new_begin)) ;;
  link key new_begin.

(** The [while] of [get], cut after [fuel] rounds; [None] is
    [nullptr]. *)
Fixpoint get_loop (fuel : nat) (key : list byte) (current : Z)
  : table_op (option Z) :=
  match fuel with
  | O => abort out_of_fuel
  | S fuel' =>
      if current =? empty then ret None
      else
        let item := get_slab current in
        found <- compare item key ;;
        if found then ret (Some (data item))
        else
          next <- next_position item ;;
          get_loop fuel' key next
  end.

Definition get (key : list byte) (fuel : nat) : table_op (option Z) :=
  current <- read_bucket_value key ;;
  get_loop fuel key current.

(** A writer that puts the bytes [v] where it is pointed. *)
Definition write_value (v : list byte) : Z -> table_op unit :=
  fun p => store_at p v.

(** ** Running the memory operations *)

Lemma bytes_equal_eq a b : bytes_equal a b = true <-> a = b.
Proof.
  revert b; induction a as [|x a IH]; intros [|y b]; simpl;
    try (split; [discriminate | congruence]); [tauto|].
  rewrite andb_true_iff, Z.eqb_eq, IH.
  split; [intros [-> ->] | intros [= -> ->]]; auto.
Qed.

Lemma wrap64_fits x : 0 <= x < 2 ^ 64 -> wrap64 x = x.
Proof. intros. unfold wrap64. now apply Z.mod_small. Qed.

Lemma store_at_eval pos bs t :
  in_bounds pos (Z.of_nat (length bs)) (slabs_ t) = true ->
  store_at pos bs t
  = Ok tt {| header_ := header_ t;
             slabs_ := splice pos bs (slabs_ t);
             end_ := end_ t |}.
Proof. intros H. unfold store_at, write_bytes. now rewrite H. Qed.

Lemma load_at_eval pos n t bs :
  read_bytes pos n (slabs_ t) = Some bs -> load_at pos n t = Ok bs t.
Proof. intros H. unfold load_at. now rewrite H. Qed.

Definition bucket_of (t : table) (key : list byte) : Z :=
  remainder key (Z.of_nat (length (header_ t))).

Lemma bucket_index_eval key t :
  bucket_of t key < Z.of_nat (length (header_ t)) ->
  bucket_index key t = Ok (bucket_of t key) t.
Proof.
  intros H. unfold bucket_index, header_size.
  erewrite bind_eval by reflexivity.
  fold (bucket_of t key).
  replace (bucket_of t key <? _) with true by (symmetry; now apply Z.ltb_lt).
  reflexivity.
Qed.

Lemma read_bucket_value_eval key t :
  0 <= bucket_of t key < Z.of_nat (length (header_ t)) ->
  read_bucket_value key t
  = Ok (nth (Z.to_nat (bucket_of t key)) (header_ t) 0) t.
Proof.
  intros H. unfold read_bucket_value.
  erewrite bind_eval by (apply bucket_index_eval; lia).
  unfold header_read.
  replace (0 <=? _) with true by (symmetry; apply Z.leb_le; lia).
  now replace (_ <? _) with true by (symmetry; apply Z.ltb_lt; lia).
Qed.

(** The slab file after [store] laid a slab out as key, next, value at
    the former free end. *)
Definition slab_written (key v : list byte) (t : table) : list byte :=
  let i := Z.to_nat (bucket_of t key) in
  let size := Z.of_nat (length key) + 8 + Z.of_nat (length v) in
  splice (end_ t)
    (key ++ to_little_endian 8 (nth i (header_ t) 0) ++ v)
    (slabs_ t ++ repeat 0 (Z.to_nat (end_ t + size) - length (slabs_ t))).

(** The table an interrupted [store] leaves: the slab is written, the
    bucket is not. *)
Definition unlinked (key v : list byte) (t : table) : table :=
  {| header_ := header_ t;
     slabs_ := slab_written key v t;
     end_ := end_ t + (Z.of_nat (length key) + 8 + Z.of_nat (length v)) |}.

(** The table [store] leaves. *)
Definition stored (key v : list byte) (t : table) : table :=
  let i := Z.to_nat (bucket_of t key) in
  {| header_ := firstn i (header_ t) ++ end_ t :: skipn (S i) (header_ t);
     slabs_ := slab_written key v t;
     end_ := end_ t + (Z.of_nat (length key) + 8 + Z.of_nat (length v)) |}.

Lemma unlinked_eval key v t :
  length key = hash_size ->
  0 <= bucket_of t key < Z.of_nat (length (header_ t)) ->
  0 <= end_ t <= Z.of_nat (length (slabs_ t)) ->
  end_ t + Z.of_nat (length key) + 8 + Z.of_nat (length v) < 2 ^ 64 ->
  (old_begin <- read_bucket_value key ;;
   new_begin <- create key (Z.of_nat (length v)) old_begin ;;
   write_value v (data (get_slab new_begin)) ;;
   ret new_begin) t
  = Ok (end_ t) (unlinked key v t).
Proof.
  intros Hk Hb He Hfit.
  erewrite bind_eval by (now apply read_bucket_value_eval).
  set (old := nth (Z.to_nat (bucket_of t key)) (header_ t) 0).
  set (size := Z.of_nat (length key) + 8 + Z.of_nat (length v)).
  set (d := slabs_ t ++ repeat 0 (Z.to_nat (end_ t + size) - length (slabs_ t))).
  assert (Hd : Z.of_nat (length d) = Z.max (Z.of_nat (length (slabs_ t)))
                                           (end_ t + size)).
  { unfold d. rewrite length_app, repeat_length. lia. }
  assert (B1 : in_bounds (end_ t) (Z.of_nat (length key)) d = true)
    by (apply in_bounds_true; right; lia).
  assert (B2 : in_bounds (end_ t + Z.of_nat (length key))
                 (Z.of_nat (length (to_little_endian 8 old))) d = true)
    by (apply in_bounds_true; right; rewrite length_to_little_endian; lia).
  destruct (splice_splice _ _ _ _ B1 B2) as [S1 B12].
  assert (B3 : in_bounds (end_ t + Z.of_nat (length (key ++ to_little_endian 8 old)))
                 (Z.of_nat (length v)) d = true).
  { apply in_bounds_true; right.
    rewrite length_app, length_to_little_endian. lia. }
  destruct (splice_splice _ _ _ _ B12 B3) as [S2 _].
  unfold create, get_slab, write_value, data, value_begin.
  rewrite bind_assoc.
  assert (N : new_slab (wrap64 (Z.of_nat (length key) + 8
                                + Z.of_nat (length v))) t
              = Ok (end_ t) {| header_ := header_ t; slabs_ := d;
                               end_ := end_ t + size |}).
  { unfold new_slab. fold size.
    rewrite (wrap64_fits size) by lia.
    rewrite wrap64_fits by lia. reflexivity. }
  erewrite bind_eval by exact N.
  rewrite bind_assoc.
  erewrite bind_eval by (apply store_at_eval; exact B1).
  rewrite bind_assoc.
  erewrite bind_eval.
  2:{ apply store_at_eval. cbn [slabs_].
      apply in_bounds_true. right. rewrite length_splice by exact B1.
      rewrite length_to_little_endian. lia. }
  cbn [slabs_ header_ end_]. rewrite S1.
  erewrite bind_eval by reflexivity.
  erewrite bind_eval.
  2:{ apply store_at_eval. cbn [slabs_].
      apply in_bounds_true. right. rewrite length_splice by exact B12.
      lia. }
  cbn [slabs_ header_ end_].
  replace (end_ t + (Z.of_nat hash_size + 8))
    with (end_ t + Z.of_nat (length (key ++ to_little_endian 8 old)))
    by (rewrite length_app, length_to_little_endian, Hk; lia).
  rewrite S2, <- app_assoc. reflexivity.
Qed.

Lemma store_eval key v t :
  length key = hash_size ->
  0 <= bucket_of t key < Z.of_nat (length (header_ t)) ->
  0 <= end_ t <= Z.of_nat (length (slabs_ t)) ->
  end_ t + Z.of_nat (length key) + 8 + Z.of_nat (length v) < 2 ^ 64 ->
  store key (Z.of_nat (length v)) (write_value v) t = Ok tt (stored key v t).
Proof.
  intros Hk Hb He Hfit.
  pose proof (unlinked_eval key v t Hk Hb He Hfit) as H.
  unfold store.
  unfold bind in *.
  destruct (read_bucket_value key t) as [old t0|]; [|discriminate].
  destruct (create key (Z.of_nat (length v)) old t0) as [nb t1|];
    [|discriminate].
  destruct (write_value v (data (get_slab nb)) t1) as [[] t2|];
    [|discriminate].
  injection H as -> ->.
  unfold link. fold (bind (bucket_index key)
                          (fun i => header_write i (end_ t))
                          (unlinked key v t)).
  assert (E : bucket_of (unlinked key v t) key = bucket_of t key)
    by reflexivity.
  erewrite bind_eval
    by (apply bucket_index_eval; rewrite E; cbn [header_ unlinked]; lia).
  rewrite E. unfold header_write. cbn [header_ unlinked slabs_ end_].
  replace (0 <=? _) with true by (symmetry; apply Z.leb_le; lia).
  replace (_ <? _) with true by (symmetry; apply Z.ltb_lt; lia).
  reflexivity.
Qed.

(** ** What the written slab holds *)

Section Written.

Variables (key v : list byte) (t : table).
Hypothesis end_in_file : 0 <= end_ t <= Z.of_nat (length (slabs_ t)).

Let old := nth (Z.to_nat (bucket_of t key)) (header_ t) 0.
Let image := key ++ to_little_endian 8 old ++ v.

Lemma slab_written_bounds :
  in_bounds (end_ t) (Z.of_nat (length image))
    (slabs_ t ++ repeat 0 (Z.to_nat (end_ t + (Z.of_nat (length key) + 8
                                               + Z.of_nat (length v)))
                           - length (slabs_ t))) = true.
Proof.
  apply in_bounds_true. right. unfold image.
  rewrite !length_app, length_to_little_endian, repeat_length. lia.
Qed.

Lemma length_slab_written :
  Z.of_nat (length (slab_written key v t))
  = Z.max (Z.of_nat (length (slabs_ t)))
          (end_ t + (Z.of_nat (length key) + 8 + Z.of_nat (length v))).
Proof.
  unfold slab_written. rewrite length_splice by apply slab_written_bounds.
  rewrite length_app, repeat_length. lia.
Qed.

(** What lay below the free end is untouched. *)
Lemma slab_written_frame p n bs :
  read_bytes p n (slabs_ t) = Some bs ->
  p + n <= end_ t ->
  read_bytes p n (slab_written key v t) = Some bs.
Proof.
  intros H Hp. unfold slab_written.
  rewrite read_splice_other by (apply slab_written_bounds || (left; lia)).
  rewrite read_bytes_prefix; [exact H|].
  now apply read_bytes_Some in H.
Qed.

Lemma slab_written_image :
  read_bytes (end_ t) (Z.of_nat (length image)) (slab_written key v t)
  = Some image.
Proof. apply read_splice_same, slab_written_bounds. Qed.

Lemma slab_written_key :
  read_bytes (end_ t) (Z.of_nat (length key)) (slab_written key v t)
  = Some key.
Proof.
  pose proof (read_bytes_sub _ _ _ _ 0 (Z.of_nat (length key))
                slab_written_image) as H.
  rewrite Z.add_0_r in H. rewrite H.
  - unfold image. cbn [Z.to_nat skipn]. rewrite Nat2Z.id.
    now rewrite firstn_app, firstn_all, Nat.sub_diag, firstn_O, app_nil_r.
  - lia.
  - lia.
  - unfold image. rewrite length_app. lia.
Qed.

Lemma slab_written_next :
  read_bytes (end_ t + Z.of_nat (length key)) 8 (slab_written key v t)
  = Some (to_little_endian 8 old).
Proof.
  rewrite (read_bytes_sub _ _ _ _ (Z.of_nat (length key)) 8
             slab_written_image).
  - unfold image. rewrite Nat2Z.id.
    rewrite skipn_app, skipn_all, Nat.sub_diag. cbn [skipn app].
    change (Z.to_nat 8) with (length (to_little_endian 8 old)).
    now rewrite firstn_app, firstn_all, Nat.sub_diag, firstn_O, app_nil_r.
  - lia.
  - lia.
  - unfold image. rewrite !length_app, length_to_little_endian. lia.
Qed.

Lemma slab_written_value :
  read_bytes (end_ t + Z.of_nat (length key) + 8) (Z.of_nat (length v))
             (slab_written key v t)
  = Some v.
Proof.
  replace (end_ t + Z.of_nat (length key) + 8)
    with (end_ t + Z.of_nat (length (key ++ to_little_endian 8 old)))
    by (rewrite length_app, length_to_little_endian; lia).
  rewrite (read_bytes_sub _ _ _ _
             (Z.of_nat (length (key ++ to_little_endian 8 old)))
             (Z.of_nat (length v)) slab_written_image).
  - unfold image. rewrite !Nat2Z.id, app_assoc.
    rewrite skipn_app, skipn_all, Nat.sub_diag. cbn [skipn app].
    now rewrite firstn_all.
  - lia.
  - lia.
  - unfold image. rewrite !length_app, length_to_little_endian. lia.
Qed.

End Written.

(** ** What the table holds *)

(** A stored item: where its slab starts, its key and its value. *)
Record node := {
  node_position : Z;
  node_key : list byte;
  node_value : list byte
}.

(** The chain that starts at [head] in the slab file [d] runs through
    [nodes], in this order, and then ends. *)
Fixpoint chain (d : list byte) (head : Z) (nodes : list node) : Prop :=
  match nodes with
  | [] => head = empty
  | n :: rest =>
      head = node_position n /\ head <> empty
      /\ read_bytes head (Z.of_nat hash_size) d = Some (node_key n)
      /\ exists next,
           0 <= next < 2 ^ 64
           /\ read_bytes (head + Z.of_nat hash_size) 8 d
              = Some (to_little_endian 8 next)
           /\ chain d next rest
  end.

(** The slab of a node lies below the free end and holds its value. *)
Definition node_ok (t : table) (n : node) : Prop :=
  0 <= node_position n
  /\ node_position n + value_begin + Z.of_nat (length (node_value n))
     <= end_ t
  /\ read_bytes (data (node_position n))
                (Z.of_nat (length (node_value n))) (slabs_ t)
     = Some (node_value n).

Definition in_bucket (t : table) (i : nat) (n : node) : bool :=
  bucket_of t (node_key n) =? Z.of_nat i.

(** The table holds [contents], the most recently stored first: every
    bucket's chain runs through the nodes of that bucket, most recent
    first. *)
Definition holds (t : table) (contents : list node) : Prop :=
  0 <= end_ t <= Z.of_nat (length (slabs_ t))
  /\ end_ t < empty
  /\ Forall (fun head => 0 <= head < 2 ^ 64) (header_ t)
  /\ Forall (node_ok t) contents
  /\ forall i, (i < length (header_ t))%nat ->
       chain (slabs_ t) (nth i (header_ t) 0)
             (filter (in_bucket t i) contents).

Lemma chain_frame d d' limit nodes :
  (forall p n bs, read_bytes p n d = Some bs -> p + n <= limit ->
                  read_bytes p n d' = Some bs) ->
  Forall (fun n => node_position n + value_begin <= limit) nodes ->
  forall head, chain d head nodes -> chain d' head nodes.
Proof.
  intros Hframe Hall. induction Hall as [|n rest Hn _ IH]; intros head H;
    [exact H|].
  cbn [chain] in *. destruct H as (Hh & Hne & Hkey & next & Hnext & Hrd & Hc).
  unfold value_begin in Hn.
  split; [exact Hh|]. split; [exact Hne|].
  split; [apply Hframe; [exact Hkey | lia]|].
  exists next. split; [exact Hnext|].
  split; [apply Hframe; [exact Hrd | lia] | now apply IH].
Qed.

Lemma nth_update {A} (l : list A) i j x d :
  (i < length l)%nat ->
  nth j (firstn i l ++ x :: skipn (S i) l) d
  = if (j =? i)%nat then x else nth j l d.
Proof.
  intros Hi. destruct (Nat.eqb_spec j i) as [-> | Hne].
  - rewrite app_nth2 by (rewrite length_firstn; lia).
    rewrite length_firstn.
    now replace (i - Nat.min i (length l))%nat with 0%nat by lia.
  - destruct (Nat.lt_ge_cases j i) as [Hlt | Hge].
    + rewrite app_nth1 by (rewrite length_firstn; lia).
      now rewrite nth_firstn, (proj2 (Nat.ltb_lt _ _) Hlt).
    + rewrite app_nth2 by (rewrite length_firstn; lia).
      rewrite length_firstn.
      replace (j - Nat.min i (length l))%nat with (S (j - S i)) by lia.
      cbn [nth]. rewrite nth_skipn. f_equal. lia.
Qed.

Lemma length_update {A} (l : list A) i x :
  (i < length l)%nat ->
  length (firstn i l ++ x :: skipn (S i) l) = length l.
Proof.
  intros Hi. rewrite length_app, length_firstn. cbn [length].
  rewrite length_skipn. lia.
Qed.

Lemma Forall_update {A} (P : A -> Prop) (l : list A) i x :
  Forall P l -> P x -> Forall P (firstn i l ++ x :: skipn (S i) l).
Proof.
  intros Hl Hx. apply Forall_app. split.
  - rewrite <- (firstn_skipn i l) in Hl. now apply Forall_app in Hl.
  - constructor; [exact Hx|].
    rewrite <- (firstn_skipn (S i) l) in Hl. now apply Forall_app in Hl.
Qed.

(** [store] adds a node in front of what the table held. *)
Lemma holds_stored key v t contents :
  holds t contents ->
  length key = hash_size ->
  0 <= bucket_of t key < Z.of_nat (length (header_ t)) ->
  end_ t + Z.of_nat (length key) + 8 + Z.of_nat (length v) < empty ->
  holds (stored key v t)
        ({| node_position := end_ t; node_key := key; node_value := v |}
           :: contents).
Proof.
  intros (He & Hlt & Hheads & Hnodes & Hchains) Hk Hb Hfit.
  set (i := Z.to_nat (bucket_of t key)).
  assert (Hi : (i < length (header_ t))%nat) by lia.
  assert (Hlen : length (header_ (stored key v t)) = length (header_ t))
    by (cbn [stored header_]; now apply length_update).
  assert (Hbucket : forall k, bucket_of (stored key v t) k = bucket_of t k)
    by (intros k; unfold bucket_of; now rewrite Hlen).
  assert (Hframe : forall p n bs,
            read_bytes p n (slabs_ t) = Some bs -> p + n <= end_ t ->
            read_bytes p n (slabs_ (stored key v t)) = Some bs)
    by (intros p n bs; apply slab_written_frame; exact He).
  assert (Hbelow : Forall (fun n => node_position n + value_begin <= end_ t)
                          contents).
  { eapply Forall_impl; [|exact Hnodes]. intros n (_ & Hn & _). lia. }
  unfold holds. unfold empty in *.
  split; [|split; [|split; [|split]]].
  - cbn [stored end_ slabs_]. rewrite length_slab_written by exact He. lia.
  - cbn [stored end_]. lia.
  - cbn [stored header_]. apply Forall_update; [exact Hheads | lia].
  - constructor.
    + unfold node_ok, data, value_begin.
      cbn [node_position node_value stored end_ slabs_].
      rewrite <- Hk. split; [lia|]. split; [lia|].
      rewrite Z.add_assoc. now apply slab_written_value.
    + eapply Forall_impl; [|exact Hnodes].
      intros n (Hp & Hn & Hv). unfold node_ok, data in *.
      split; [exact Hp|].
      split; [cbn [stored end_]; lia|].
      apply Hframe; [exact Hv | lia].
  - intros j Hj. rewrite Hlen in Hj.
    cbn [filter]. unfold in_bucket at 1. cbn [node_key].
    rewrite Hbucket.
    rewrite (filter_ext (in_bucket (stored key v t) j) (in_bucket t j))
      by (intros n; unfold in_bucket; now rewrite Hbucket).
    cbn [stored header_]. fold i. rewrite nth_update by exact Hi.
    destruct (Nat.eqb_spec j i) as [-> | Hne].
    + replace (bucket_of t key =? Z.of_nat i) with true
        by (symmetry; apply Z.eqb_eq; lia).
      cbn [chain node_position node_key].
      split; [reflexivity|]. split; [unfold empty; lia|]. rewrite <- Hk.
      split; [now apply slab_written_key|].
      exists (nth i (header_ t) 0).
      split; [|split].
      * rewrite Forall_forall in Hheads. apply Hheads. now apply nth_In.
      * now apply slab_written_next.
      * eapply chain_frame; [exact Hframe | | apply Hchains; exact Hi].
        clear -Hbelow. induction Hbelow as [|n rest Hn _ IH]; [constructor|].
        cbn [filter]. destruct (in_bucket t i n); [constructor|]; assumption.
    + replace (bucket_of t key =? Z.of_nat j) with false
        by (symmetry; apply Z.eqb_neq; lia).
      eapply chain_frame; [exact Hframe | | apply Hchains; exact Hj].
      clear -Hbelow. induction Hbelow as [|n rest Hn _ IH]; [constructor|].
      cbn [filter]. destruct (in_bucket t j n); [constructor|]; assumption.
Qed.


(** ** get *)

(** The data pointer of the first node whose key is [key]. *)
Definition lookup (key : list byte) (nodes : list node) : option Z :=
  option_map (fun n => data (node_position n))
             (find (fun n => bytes_equal key (node_key n)) nodes).

Lemma get_loop_chain key t nodes :
  length key = hash_size ->
  forall fuel head,
    chain (slabs_ t) head nodes ->
    (length nodes < fuel)%nat ->
    get_loop fuel key head t = Ok (lookup key nodes) t.
Proof.
  intros Hk. induction nodes as [|n rest IH]; intros fuel head Hc Hfuel;
    (destruct fuel as [|fuel]; [cbn [length] in Hfuel; lia|]);
    cbn [get_loop chain] in *.
  - subst head. now rewrite Z.eqb_refl.
  - destruct Hc as (Hh & Hne & Hkey & next & Hnext & Hrd & Hc).
    replace (head =? empty) with false by (symmetry; now apply Z.eqb_neq).
    unfold compare, get_slab. rewrite Hk.
    rewrite bind_assoc. erewrite bind_eval by (apply load_at_eval; exact Hkey).
    erewrite bind_eval by reflexivity.
    unfold lookup. cbn [find].
    destruct (bytes_equal key (node_key n)).
    + cbn [option_map]. now rewrite Hh.
    + unfold next_position, raw_next_data. rewrite bind_assoc.
      erewrite bind_eval by (apply load_at_eval; exact Hrd).
      erewrite bind_eval by reflexivity.
      rewrite from_to_little_endian_small
        by (change (256 ^ Z.of_nat 8) with (2 ^ 64); lia).
      apply IH; [exact Hc | cbn [length] in Hfuel; lia].
Qed.

Lemma find_filter {A} (p q : A -> bool) (l : list A) :
  (forall x, p x = true -> q x = true) ->
  find p (filter q l) = find p l.
Proof.
  intros H. induction l as [|x l IH]; [reflexivity|].
  cbn [filter find]. destruct (p x) eqn:Hp.
  - rewrite (H x Hp). cbn [find]. now rewrite Hp.
  - destruct (q x); [cbn [find]; now rewrite Hp | exact IH].
Qed.

Lemma filter_length_le {A} (q : A -> bool) (l : list A) :
  (length (filter q l) <= length l)%nat.
Proof.
  induction l as [|x l IH]; [auto|].
  cbn [filter]. destruct (q x); cbn [length]; lia.
Qed.

(** [get] returns the most recently stored node with the key asked
    for. *)
Lemma get_holds key t contents fuel :
  holds t contents ->
  length key = hash_size ->
  0 <= bucket_of t key < Z.of_nat (length (header_ t)) ->
  (length contents < fuel)%nat ->
  get key fuel t = Ok (lookup key contents) t.
Proof.
  intros (He & Hlt & Hheads & Hnodes & Hchains) Hk Hb Hfuel.
  unfold get.
  erewrite bind_eval by (now apply read_bucket_value_eval).
  set (i := Z.to_nat (bucket_of t key)).
  rewrite (get_loop_chain key t (filter (in_bucket t i) contents) Hk).
  - unfold lookup. rewrite find_filter; [reflexivity|].
    intros n Hn. apply bytes_equal_eq in Hn. subst key.
    unfold in_bucket. apply Z.eqb_eq. unfold i. lia.
  - apply Hchains. lia.
  - pose proof (filter_length_le (in_bucket t i) contents). lia.
Qed.

(** ** A table built by stores *)

(** Modelled from the spec: a table just created has every bucket empty
    and a slab file made of the 8 bytes that hold its end position. *)
Definition new_table (buckets : nat) : table :=
  {| header_ := repeat empty buckets; slabs_ := repeat 0 8; end_ := 8 |}.

(** [store] called for each (key, value) in turn, the value written by
    the callback. *)
Fixpoint stores (ops : list (list byte * list byte)) : table_op unit :=
  match ops with
  | [] => ret tt
  | (key, v) :: rest =>
      store key (Z.of_nat (length v)) (write_value v) ;; stores rest
  end.

(** The bytes the slabs of [ops] take. *)
Definition slab_bytes (ops : list (list byte * list byte)) : Z :=
  fold_right (fun op acc => Z.of_nat hash_size + 8
                            + Z.of_nat (length (snd op)) + acc) 0 ops.

Definition pair_of (n : node) : list byte * list byte :=
  (node_key n, node_value n).

Lemma holds_new buckets : holds (new_table buckets) [].
Proof.
  unfold holds, new_table, empty. cbn [header_ slabs_ end_ filter chain].
  split; [cbn [length repeat]; lia|]. split; [lia|].
  split; [apply Forall_forall; intros x Hx; apply repeat_spec in Hx; lia|].
  split; [constructor|].
  intros i Hi. rewrite repeat_length in Hi. now apply nth_repeat_lt.
Qed.

Section Runs.

(** What [remainder] is for: an index into the buckets. *)
Hypothesis remainder_range :
  forall key n, 0 < n -> 0 <= remainder key n < n.

Lemma stores_holds ops :
  forall t contents,
    holds t contents ->
    (0 < length (header_ t))%nat ->
    Forall (fun op => length (fst op) = hash_size) ops ->
    end_ t + slab_bytes ops < empty ->
    exists t' added,
      stores ops t = Ok tt t'
      /\ holds t' (added ++ contents)
      /\ map pair_of added = rev ops
      /\ length (header_ t') = length (header_ t)
      /\ end_ t' = end_ t + slab_bytes ops.
Proof.
  induction ops as [|[key v] rest IH]; intros t contents Hh Hn Hkeys Hfit.
  - exists t, []. unfold slab_bytes. cbn [fold_right].
    split; [reflexivity|]. split; [exact Hh|].
    split; [reflexivity|]. split; [reflexivity | lia].
  - inversion Hkeys as [|? ? Hk Hrest]; subst. cbn [fst] in Hk.
    unfold slab_bytes in Hfit. cbn [fold_right snd] in Hfit.
    fold (slab_bytes rest) in Hfit.
    assert (Hpos : 0 <= slab_bytes rest).
    { clear. induction rest as [|op rest IH]; unfold slab_bytes;
        cbn [fold_right]; [lia|]. fold (slab_bytes rest). lia. }
    pose proof (remainder_range key (Z.of_nat (length (header_ t)))
                  ltac:(lia)) as Hb.
    fold (bucket_of t key) in Hb.
    pose proof Hh as (He & _).
    cbn [stores].
    erewrite bind_eval
      by (apply store_eval; try assumption; unfold empty in *; lia).
    assert (Hlen : length (header_ (stored key v t)) = length (header_ t))
      by (cbn [stored header_]; apply length_update; lia).
    destruct (IH (stored key v t)
                 ({| node_position := end_ t; node_key := key;
                     node_value := v |} :: contents))
      as (t' & added & Hrun & Hh' & Hmap & Hlen' & Hend).
    + apply holds_stored; try assumption. lia.
    + lia.
    + exact Hrest.
    + cbn [stored end_]. lia.
    + exists t', (added ++ [{| node_position := end_ t; node_key := key;
                               node_value := v |}]).
      split; [exact Hrun|].
      split; [now rewrite <- app_assoc|].
      split; [rewrite map_app, Hmap; reflexivity|].
      split; [congruence|].
      rewrite Hend. unfold slab_bytes. cbn [stored end_ fold_right snd].
      fold (slab_bytes rest). lia.
Qed.


Lemma find_map {A B} (p : B -> bool) (f : A -> B) (l : list A) :
  find p (map f l) = option_map f (find (fun x => p (f x)) l).
Proof.
  induction l as [|x l IH]; [reflexivity|].
  cbn [map find]. now destruct (p (f x)).
Qed.

(** X10: a store is found at once.  Whatever the table holds, after
    [store(key, value_size, write)] whose writer puts [value_size] bytes
    [v] at the pointer it is given, [get(key)] returns the data pointer
    of the slab just allocated (the former free end plus the key and the
    8 bytes of [next]), and [v] is what lies there: the new item is the
    head of its bucket's chain, so it shadows every older item of that
    key. *)
Theorem get_after_store (key v : list byte) (t : table) (fuel : nat) :
  length key = hash_size ->
  (0 < length (header_ t))%nat ->
  0 <= end_ t <= Z.of_nat (length (slabs_ t)) ->
  end_ t + Z.of_nat hash_size + 8 + Z.of_nat (length v) < empty ->
  (0 < fuel)%nat ->
  exists t',
    store key (Z.of_nat (length v)) (write_value v) t = Ok tt t'
    /\ get key fuel t' = Ok (Some (data (end_ t))) t'
    /\ load_at (data (end_ t)) (Z.of_nat (length v)) t' = Ok v t'.
Proof.
  intros Hk Hn He Hfit Hfuel. unfold empty in Hfit.
  pose proof (remainder_range key (Z.of_nat (length (header_ t)))
                ltac:(lia)) as Hb.
  fold (bucket_of t key) in Hb.
  exists (stored key v t).
  split; [apply store_eval; try assumption; lia|].
  assert (Hlen : length (header_ (stored key v t)) = length (header_ t))
    by (cbn [stored header_]; apply length_update; lia).
  assert (E : bucket_of (stored key v t) key = bucket_of t key)
    by (unfold bucket_of; now rewrite Hlen).
  split.
  - unfold get.
    erewrite bind_eval by (apply read_bucket_value_eval; rewrite E, Hlen; lia).
    rewrite E. cbn [stored header_].
    rewrite nth_update, Nat.eqb_refl by lia.
    destruct fuel as [|fuel]; [lia|]. cbn [get_loop].
    replace (end_ t =? empty) with false
      by (symmetry; apply Z.eqb_neq; unfold empty; lia).
    unfold compare, get_slab.
    rewrite bind_assoc.
    erewrite bind_eval
      by (apply load_at_eval; cbn [stored slabs_];
          now apply slab_written_key).
    erewrite bind_eval by reflexivity.
    now rewrite (proj2 (bytes_equal_eq key key) eq_refl).
  - apply load_at_eval. unfold data, value_begin. cbn [stored slabs_].
    rewrite <- Hk, Z.add_assoc. now apply slab_written_value.
Qed.

(** X11: [get] returns the latest store.  On a table created empty and
    filled by any sequence of stores, [get(key)] returns the data
    pointer of the slab of the last store made under that key, where the
    bytes of that store lie, and [nullptr] when the key was never
    stored. *)
Theorem get_returns_latest (buckets : nat)
    (ops : list (list byte * list byte)) :
  (0 < buckets)%nat ->
  Forall (fun op => length (fst op) = hash_size) ops ->
  8 + slab_bytes ops < empty ->
  exists t,
    stores ops (new_table buckets) = Ok tt t
    /\ forall key fuel,
         length key = hash_size ->
         (length ops < fuel)%nat ->
         match find (fun op => bytes_equal key (fst op)) (rev ops) with
         | Some (_, v) =>
             exists p,
               get key fuel t = Ok (Some p) t
               /\ load_at p (Z.of_nat (length v)) t = Ok v t
         | None => get key fuel t = Ok None t
         end.
Proof.
  intros Hn Hkeys Hfit.
  destruct (stores_holds ops (new_table buckets) [] (holds_new buckets))
    as (t & added & Hrun & Hh & Hmap & Hlen & _); try assumption.
  { cbn [new_table header_]. now rewrite repeat_length. }
  rewrite app_nil_r in Hh.
  cbn [new_table header_] in Hlen. rewrite repeat_length in Hlen.
  exists t. split; [exact Hrun|].
  intros key fuel Hk Hfuel.
  pose proof (remainder_range key (Z.of_nat (length (header_ t)))
                ltac:(lia)) as Hb.
  fold (bucket_of t key) in Hb.
  assert (Hcount : length added = length ops).
  { rewrite <- (length_map pair_of), Hmap. apply length_rev. }
  rewrite (get_holds key t added fuel Hh Hk Hb) by lia.
  rewrite <- Hmap, find_map. unfold lookup, pair_of. cbn [fst].
  destruct (find (fun n => bytes_equal key (node_key n)) added)
    as [n|] eqn:Hfind; cbn [option_map]; [|reflexivity].
  exists (data (node_position n)). split; [reflexivity|].
  apply find_some in Hfind as [Hin _].
  destruct Hh as (_ & _ & _ & Hnodes & _).
  rewrite Forall_forall in Hnodes.
  destruct (Hnodes n Hin) as (_ & _ & Hv).
  now apply load_at_eval.
Qed.


End Runs.

(** ** The steps of store *)


Section Steps.

Hypothesis remainder_range :
  forall key n, 0 < n -> 0 <= remainder key n < n.


End Steps.

End Table.

(** ** A table of two buckets with 4-byte keys *)

(** Keys are read as little-endian numbers and reduced modulo the number
    of buckets. *)
Definition key_remainder (key : list byte) (n : Z) : Z :=
  from_little_endian key mod n.

Lemma key_remainder_range key n : 0 < n -> 0 <= key_remainder key n < n.
Proof. intros H. unfold key_remainder. apply Z.mod_pos_bound. exact H. Qed.

Definition three_stores : list (list byte * list byte) :=
  [ ([1; 0; 0; 0], [10; 11]);
    ([2; 0; 0; 0], [20]);
    ([1; 0; 0; 0], [30; 31; 32]) ].

Lemma get_after_store_witness :
  exists t',
    store 4 key_remainder [1; 0; 0; 0] 2 (write_value [10; 11])
          (new_table 2) = Ok tt t'
    /\ get 4 key_remainder [1; 0; 0; 0] 1 t' = Ok (Some 20) t'
    /\ load_at 20 2 t' = Ok [10; 11] t'.
Proof.
  apply (get_after_store 4 key_remainder key_remainder_range
           [1; 0; 0; 0] [10; 11] (new_table 2) 1).
  - reflexivity.
  - cbn; lia.
  - vm_compute; split; discriminate.
  - vm_compute; reflexivity.
  - lia.
Defined.

Lemma get_returns_latest_witness :
  exists t,
    stores 4 key_remainder three_stores (new_table 2) = Ok tt t
    /\ (exists p, get 4 key_remainder [1; 0; 0; 0] 4 t = Ok (Some p) t
                  /\ load_at p 3 t = Ok [30; 31; 32] t)
    /\ get 4 key_remainder [3; 0; 0; 0] 4 t = Ok None t.
Proof.
  destruct (get_returns_latest 4 key_remainder key_remainder_range 2
              three_stores) as (t & Hrun & Hget).
  - lia.
  - repeat constructor.
  - vm_compute; reflexivity.
  - exists t. split; [exact Hrun|]. split.
    + apply (Hget [1; 0; 0; 0] 4%nat); [reflexivity | cbn; lia].
    + apply (Hget [3; 0; 0; 0] 4%nat); [reflexivity | cbn; lia].
Defined.



End Slab.
